(** * tools/tdd.js: the development-server orchestrator

    A shallow embedding of [createCompilationPromise] and of the body of
    [start] (the cleanup routine, the request gate, [checkForUpdate], the
    watch callback and the startup sequence), followed by the properties of
    the orchestration core.

    JavaScript runs every callback to completion and drains the promise
    reactions it queued before the host delivers the next notification.
    The embedding therefore has one [Event] per host notification and a
    total function [step] that runs the callback registered for it together
    with the promise reactions it triggers, in source order.  Everything the
    program does to the outside world (console output, calls to its
    collaborators) is appended to the [effects] trace of the state. *)

From Stdlib Require Import ZArith Lia.
From stdpp Require Import base list strings gmap.

(** ** Values *)

(** The errors that travel through the program. *)
Inductive Err : Type :=
| CompilationFailed            (* new Error('Compilation failed!'), line 44 *)
| HmrDisabled                  (* new Error('[HMR] Hot Module Replacement is disabled.'), line 163 *)
| TypeError (what : string)    (* raised by the runtime: call or member access on undefined *)
| External (msg : string).     (* raised by a collaborator: hot.check, dockerTeardown, browserSync *)

(** webpack's [stats] object, reduced to what the program reads. *)
Record Stats : Type := mkStats {
  hasErrors : bool;
  toString : string
}.

(** A promise is pending or settled, and settles once. *)
Inductive Promise (A : Type) : Type :=
| Pending
| Fulfilled (v : A)
| Rejected (e : Err).
Arguments Pending {A}.
Arguments Fulfilled {A} v.
Arguments Rejected {A} e.

Definition resolve {A} (v : A) (p : Promise A) : Promise A :=
  match p with Pending => Fulfilled v | _ => p end.

Definition reject {A} (e : Err) (p : Promise A) : Promise A :=
  match p with Pending => Rejected e | _ => p end.

Definition is_pending {A} (p : Promise A) : bool :=
  match p with Pending => true | _ => false end.

Definition is_fulfilled {A} (p : Promise A) : bool :=
  match p with Fulfilled _ => true | _ => false end.

Definition is_rejected {A} (p : Promise A) : bool :=
  match p with Rejected _ => true | _ => false end.

(** The status strings of the module's hot interface ([app.hot.status()]):
    'idle', 'check', 'prepare', 'ready', 'dispose', 'apply', 'abort', 'fail'. *)
Inductive HotStatus : Type :=
| StIdle | StCheck | StPrepare | StReady | StDispose | StApply | StAbort | StFail.

Definition is_idle (st : HotStatus) : bool :=
  match st with StIdle => true | _ => false end.

(** ['abort', 'fail'].includes(status), line 186. *)
Definition abort_or_fail (st : HotStatus) : bool :=
  match st with StAbort | StFail => true | _ => false end.

(** The value of [require('../build/server').default]: [mod_gen] tells the
    module objects apart (one per [require] that missed the cache),
    [mod_build] is the server build whose output was read, and [mod_hot]
    tells whether the object carries a [hot] interface. *)
Record ModuleRef : Type := mkModule {
  mod_gen : nat;
  mod_build : nat;
  mod_hot : bool
}.

(** ** Console output and calls to collaborators *)

Inductive Msg : Type :=
| MCompiling (name : string) (at_time : Z)
| MStats (report : string)
| MFailed (name : string) (at_time duration : Z)
| MFinished (name : string) (at_time duration : Z)
| MLaunching (at_time : Z)
| MLaunched (at_time duration : Z)
| MHmrUpdateApplied
| MHmrNothing
| MHmrUpdated
| MHmrModule (moduleId : string)
| MHmrCannotApply
| MHmrReloaded
| MHmrUpdateFailed (e : Err)
| MExiting
| MCleanupFinished
| MException (e : Err).

Inductive Effect : Type :=
| ConsoleInfo (m : Msg)
| ConsoleWarn (m : Msg)
| ConsoleError (e : Err)
| BuildLog (m : Msg)
| DockerTeardown                      (* dockerTeardown() is called *)
| OuterResolve                        (* outerResolve() is called *)
| CleanupReturned (fut : nat)         (* cleanupAndExit() returned the future [fut] *)
| HotCheck                            (* app.hot.check(true) is called *)
| CacheEvict                          (* delete require.cache[...] *)
| RequireServer (m : ModuleRef)             (* require('../build/server') evaluated the bundle *)
| GateResolve (g : nat)               (* appPromiseResolve() is called on gate [g] *)
| AppHandle (req : nat) (m : ModuleRef)   (* app.handle(req, res) on module [m] *)
| Uncaught (e : Err)                  (* an exception left a callback towards the host *)
| UnhandledRejection (e : Err).       (* a promise nobody observes was rejected *)

(** ** createCompilationPromise (lines 30-51) *)

Module Tracker.

(** The closure of one call: the [timeStart] variable and the promise
    whose [resolve] and [reject] the two hooks hold. *)
Record t : Type := mk {
  name : string;
  timeStart : Z;
  promise : Promise Stats
}.

(** [new Promise(...)]: the executor reads the clock and taps both hooks;
    the promise is pending when the call returns. *)
Definition createCompilationPromise (name : string) (now : Z) : t :=
  {| name := name; timeStart := now; promise := Pending |}.

(** compiler.hooks.compile (lines 33-36). *)
Definition on_compile (now : Z) (tr : t) : t * list Effect :=
  ({| name := name tr; timeStart := now; promise := promise tr |},
   [ConsoleInfo (MCompiling (name tr) now)]).

(** compiler.hooks.done (lines 38-49). *)
Definition on_done (stats : Stats) (now : Z) (tr : t) : t * list Effect :=
  let time := (now - timeStart tr)%Z in
  if hasErrors stats then
    ({| name := name tr; timeStart := timeStart tr;
        promise := reject CompilationFailed (promise tr) |},
     [ConsoleInfo (MStats (toString stats));
      ConsoleInfo (MFailed (name tr) now time)])
  else
    ({| name := name tr; timeStart := timeStart tr;
        promise := resolve stats (promise tr) |},
     [ConsoleInfo (MStats (toString stats));
      ConsoleInfo (MFinished (name tr) now time)]).

(** The notifications of one compiler. *)
Inductive Notification : Type :=
| CompileStart (now : Z)
| CompileDone (stats : Stats) (now : Z).

Definition notify (acc : t * list Effect) (n : Notification) : t * list Effect :=
  let r :=
    match n with
    | CompileStart now => on_compile now acc.1
    | CompileDone stats now => on_done stats now acc.1
    end in
  (r.1, acc.2 ++ r.2).

Definition run (tr : t) (ns : list Notification) : t * list Effect :=
  foldl notify (tr, []) ns.

(** What a trace of notifications says, read off the trace alone. *)
Fixpoint first_done (ns : list Notification) : option Stats :=
  match ns with
  | [] => None
  | CompileStart _ :: ns' => first_done ns'
  | CompileDone stats _ :: _ => Some stats
  end.

Fixpoint last_start (ns : list Notification) : option Z :=
  match ns with
  | [] => None
  | CompileStart now :: ns' =>
      match last_start ns' with Some later => Some later | None => Some now end
  | CompileDone _ _ :: ns' => last_start ns'
  end.

Definition outcome_of (stats : Stats) : Promise Stats :=
  if hasErrors stats then Rejected CompilationFailed else Fulfilled stats.

End Tracker.

(** ** The state of [start] (lines 71-243) *)

(** One [appPromise] object: whether it is resolved, and the requests whose
    [then] reaction waits on it. *)
Record Gate : Type := mkGate {
  resolved : bool;
  waiters : list nat
}.

(** The promise of one [app.hot.check(true)] call together with what is
    chained on it: the [fromUpdate] argument its handlers close over, and
    whether the caller chained the gate release (the watch callback does,
    the nested call of line 182 drops the promise). *)
Record PendingCheck : Type := mkCheck {
  fromUpdate : bool;
  releases : bool
}.

(** The promise stored in [cleaning]. *)
Record Future : Type := mkFuture {
  fut_id : nat;
  fut_state : Promise unit
}.

(** Where the body of the promise executor is suspended. *)
Inductive MainPc : Type :=
| AwaitClient        (* line 208 *)
| AwaitServer        (* line 209 *)
| AwaitBrowserSync   (* line 221 *)
| Launched           (* past line 237 *)
| AwaitCleanup       (* line 241 *)
| Exited.            (* past line 241 *)

Record State : Type := mkState {
  bundle_hot : bool;                (* does the server bundle export a hot interface *)
  builds : nat;                     (* server builds finished without errors so far *)
  loads : nat;                      (* bundle evaluations so far *)
  cleanups : nat;                   (* cleanup futures created so far *)
  clientPromise : Tracker.t;        (* line 129, with the closure of its hooks *)
  serverPromise : Tracker.t;        (* line 130, with the closure of its hooks *)
  gates : list Gate;                (* every promise [appPromise] has referred to *)
  appPromise : option nat;
  appPromiseResolve : option nat;
  appPromiseIsResolved : bool;
  app : option ModuleRef;
  hotStatus : HotStatus;            (* app.hot.status() of the live module *)
  checking : option PendingCheck;   (* the hot.check promise in flight *)
  cleaning : option Future;
  pc : MainPc;
  launchStart : Z;                  (* timeStart of line 211 *)
  effects : list Effect
}.

Definition emit (out : list Effect) (s : State) : State :=
  mkState (bundle_hot s) (builds s) (loads s) (cleanups s) (clientPromise s) (serverPromise s)
    (gates s) (appPromise s) (appPromiseResolve s) (appPromiseIsResolved s)
    (app s) (hotStatus s) (checking s) (cleaning s) (pc s) (launchStart s)
    (effects s ++ out).

Definition set_builds (n : nat) (s : State) : State :=
  mkState (bundle_hot s) n (loads s) (cleanups s) (clientPromise s) (serverPromise s)
    (gates s) (appPromise s) (appPromiseResolve s) (appPromiseIsResolved s)
    (app s) (hotStatus s) (checking s) (cleaning s) (pc s) (launchStart s)
    (effects s).

Definition set_clientPromise (tr : Tracker.t) (s : State) : State :=
  mkState (bundle_hot s) (builds s) (loads s) (cleanups s) tr (serverPromise s)
    (gates s) (appPromise s) (appPromiseResolve s) (appPromiseIsResolved s)
    (app s) (hotStatus s) (checking s) (cleaning s) (pc s) (launchStart s)
    (effects s).

Definition set_serverPromise (tr : Tracker.t) (s : State) : State :=
  mkState (bundle_hot s) (builds s) (loads s) (cleanups s) (clientPromise s) tr
    (gates s) (appPromise s) (appPromiseResolve s) (appPromiseIsResolved s)
    (app s) (hotStatus s) (checking s) (cleaning s) (pc s) (launchStart s)
    (effects s).

Definition set_gates (gs : list Gate) (s : State) : State :=
  mkState (bundle_hot s) (builds s) (loads s) (cleanups s) (clientPromise s) (serverPromise s)
    gs (appPromise s) (appPromiseResolve s) (appPromiseIsResolved s)
    (app s) (hotStatus s) (checking s) (cleaning s) (pc s) (launchStart s)
    (effects s).

(** [appPromise = new Promise(resolve => (appPromiseResolve = resolve))]:
    both variables are assigned by the one statement of line 151. *)
Definition set_appPromise (g : nat) (s : State) : State :=
  mkState (bundle_hot s) (builds s) (loads s) (cleanups s) (clientPromise s) (serverPromise s)
    (gates s) (Some g) (Some g) (appPromiseIsResolved s)
    (app s) (hotStatus s) (checking s) (cleaning s) (pc s) (launchStart s)
    (effects s).

Definition set_appPromiseIsResolved (b : bool) (s : State) : State :=
  mkState (bundle_hot s) (builds s) (loads s) (cleanups s) (clientPromise s) (serverPromise s)
    (gates s) (appPromise s) (appPromiseResolve s) b
    (app s) (hotStatus s) (checking s) (cleaning s) (pc s) (launchStart s)
    (effects s).

(** [app = require('../build/server').default] on a cache miss: the bundle
    is evaluated, which gives a new module object with an idle hot runtime. *)
Definition set_app (m : ModuleRef) (s : State) : State :=
  mkState (bundle_hot s) (builds s) (S (loads s)) (cleanups s) (clientPromise s) (serverPromise s)
    (gates s) (appPromise s) (appPromiseResolve s) (appPromiseIsResolved s)
    (Some m) StIdle (checking s) (cleaning s) (pc s) (launchStart s)
    (effects s).

Definition set_hot (st : HotStatus) (c : option PendingCheck) (s : State) : State :=
  mkState (bundle_hot s) (builds s) (loads s) (cleanups s) (clientPromise s) (serverPromise s)
    (gates s) (appPromise s) (appPromiseResolve s) (appPromiseIsResolved s)
    (app s) st c (cleaning s) (pc s) (launchStart s)
    (effects s).

Definition set_checking (c : option PendingCheck) (s : State) : State :=
  set_hot (hotStatus s) c s.

Definition set_cleaning (f : Future) (s : State) : State :=
  mkState (bundle_hot s) (builds s) (loads s) (cleanups s) (clientPromise s) (serverPromise s)
    (gates s) (appPromise s) (appPromiseResolve s) (appPromiseIsResolved s)
    (app s) (hotStatus s) (checking s) (Some f) (pc s) (launchStart s)
    (effects s).

Definition new_cleaning (f : Future) (s : State) : State :=
  mkState (bundle_hot s) (builds s) (loads s) (S (cleanups s)) (clientPromise s) (serverPromise s)
    (gates s) (appPromise s) (appPromiseResolve s) (appPromiseIsResolved s)
    (app s) (hotStatus s) (checking s) (Some f) (pc s) (launchStart s)
    (effects s).

Definition set_pc (p : MainPc) (s : State) : State :=
  mkState (bundle_hot s) (builds s) (loads s) (cleanups s) (clientPromise s) (serverPromise s)
    (gates s) (appPromise s) (appPromiseResolve s) (appPromiseIsResolved s)
    (app s) (hotStatus s) (checking s) (cleaning s) p (launchStart s)
    (effects s).

Definition set_launchStart (now : Z) (s : State) : State :=
  mkState (bundle_hot s) (builds s) (loads s) (cleanups s) (clientPromise s) (serverPromise s)
    (gates s) (appPromise s) (appPromiseResolve s) (appPromiseIsResolved s)
    (app s) (hotStatus s) (checking s) (cleaning s) (pc s) now
    (effects s).

(** The state when the executor first suspends at line 208: both
    compilation promises created (lines 129-130) and pending, no gate yet,
    [appPromiseIsResolved = true] (line 146), [app] undefined, [cleaning]
    null.  [hot] fixes whether the server bundle is built with a hot
    interface; [now] is the clock read by the two promise executors.  The
    statements before line 129 (network, database, express and webpack
    configuration) do not touch these variables; an exception there runs
    the catch block that [enter_catch] embeds. *)
Definition init (hot : bool) (now : Z) : State :=
  {| bundle_hot := hot; builds := 0; loads := 0; cleanups := 0;
     clientPromise := Tracker.createCompilationPromise "client" now;
     serverPromise := Tracker.createCompilationPromise "server" now;
     gates := []; appPromise := None; appPromiseResolve := None;
     appPromiseIsResolved := true;
     app := None; hotStatus := StIdle; checking := None;
     cleaning := None; pc := AwaitClient; launchStart := now;
     effects := [] |}.

(** ** The cleanup routine (lines 74-86) *)

(** [cleanupAndExit()]: the body runs up to [await dockerTeardown()] on the
    first call and stores the promise of the inner async function in
    [cleaning]; the value returned is [cleaning].  The caller's promise
    follows that future; the trace records which future each call returned. *)
Definition cleanupAndExit (s : State) : State :=
  match cleaning s with
  | None =>
      let f := mkFuture (cleanups s) Pending in
      emit [CleanupReturned (fut_id f)]
        (new_cleaning f (emit [BuildLog MExiting; DockerTeardown] s))
  | Some f => emit [CleanupReturned (fut_id f)] s
  end.

(** The rest of the inner async function (lines 80-81) once
    [dockerTeardown()] settles, and the executor suspended at line 241. *)
Definition teardown_settled (res : option Err) (s : State) : State :=
  match cleaning s with
  | Some f =>
      if is_pending (fut_state f) then
        match res with
        | None =>
            let s1 := emit [BuildLog MCleanupFinished; OuterResolve]
                        (set_cleaning (mkFuture (fut_id f) (Fulfilled tt)) s) in
            match pc s1 with AwaitCleanup => set_pc Exited s1 | _ => s1 end
        | Some e =>
            let s1 := set_cleaning (mkFuture (fut_id f) (Rejected e)) s in
            match pc s1 with
            | AwaitCleanup => emit [UnhandledRejection e] (set_pc Exited s1)
            | _ => s1
            end
        end
      else s
  | None => s
  end.

(** The catch block (lines 238-242). *)
Definition enter_catch (err : Err) (s : State) : State :=
  let s1 := cleanupAndExit (emit [BuildLog (MException err); ConsoleError err] s) in
  match cleaning s1 with
  | Some f =>
      match fut_state f with
      | Pending => set_pc AwaitCleanup s1
      | Fulfilled _ => set_pc Exited s1
      | Rejected e => emit [UnhandledRejection e] (set_pc Exited s1)
      end
  | None => set_pc AwaitCleanup s1
  end.

(** ** The request gate (lines 144-157) *)

(** serverCompiler.hooks.compile, second tap (lines 147-152). *)
Definition gate_on_compile (s : State) : State :=
  if appPromiseIsResolved s then
    let g := length (gates s) in
    set_appPromise g
      (set_gates (gates s ++ [mkGate false []])
         (set_appPromiseIsResolved false s))
  else s.

(** The reaction [() => app.handle(req, res)] of line 156 with its [catch]:
    it reads [app] when it runs. *)
Definition dispatch_effect (a : option ModuleRef) (req : nat) : Effect :=
  match a with
  | Some m => AppHandle req m
  | None => ConsoleError (TypeError "app.handle")
  end.

Definition dispatch (s : State) (req : nat) : State :=
  emit [dispatch_effect (app s) req] s.

(** [appPromiseResolve()]: [None] when the variable is still undefined (the
    call throws a TypeError); otherwise the gate promise is resolved, which
    runs the reactions of the requests waiting on it.  The reactions run
    once the calling callback has returned; what follows the call in its
    callers (line 221, the end of the reaction of line 200) neither writes
    [app] nor the gate, so they are run here. *)
Definition call_appPromiseResolve (s : State) : option State :=
  match appPromiseResolve s with
  | None => None
  | Some g =>
      let s1 := emit [GateResolve g] s in
      match gates s1 !! g with
      | Some gt =>
          if resolved gt then Some s1
          else Some (foldl dispatch (set_gates (<[g := mkGate true []]> (gates s1)) s1)
                       (waiters gt))
      | None => Some s1
      end
  end.

(** The middleware of lines 155-157. *)
Definition on_request (req : nat) (s : State) : State :=
  match appPromise s with
  | None => emit [Uncaught (TypeError "appPromise.then")] s
  | Some g =>
      match gates s !! g with
      | Some gt =>
          if resolved gt then dispatch s req
          else set_gates (<[g := mkGate false (waiters gt ++ [req])]> (gates s)) s
      | None => s
      end
  end.

(** The reaction chained by the watch callback (lines 200-203). *)
Definition release (s : State) : State :=
  let s1 := set_appPromiseIsResolved true s in
  match call_appPromiseResolve s1 with
  | Some s2 => s2
  | None => emit [UnhandledRejection (TypeError "appPromiseResolve")] s1
  end.

(** ** checkForUpdate (lines 160-196) *)

(** What the synchronous part of a call gives its caller. *)
Inductive CheckResult : Type :=
| Threw (e : Err)      (* line 163 *)
| ResolvedNow          (* line 166: Promise.resolve() *)
| Chained.             (* line 168: the promise chained on app.hot.check(true) *)

(** Lines 160-169.  [app.hot.check(true)] moves the hot runtime to status
    ['check'] and returns a promise that the runtime settles later. *)
Definition checkForUpdate (fromUpd : bool) (s : State) : State * CheckResult :=
  match app s with
  | None => (s, Threw (TypeError "app.hot"))
  | Some m =>
      if negb (mod_hot m) then (s, Threw HmrDisabled)
      else if negb (is_idle (hotStatus s)) then (s, ResolvedNow)
      else (set_hot StCheck (Some (mkCheck fromUpd false)) (emit [HotCheck] s), Chained)
  end.

(** The [then] handler (lines 170-184); the error is what it throws. *)
Definition on_checked (fromUpd : bool) (updatedModules : option (list string))
    (s : State) : State * option Err :=
  match updatedModules with
  | None =>
      ((if fromUpd then emit [ConsoleInfo MHmrUpdateApplied] s else s), None)
  | Some [] => (emit [ConsoleInfo MHmrNothing] s, None)
  | Some ids =>
      let s1 := emit (ConsoleInfo MHmrUpdated
                        :: map (fun moduleId => ConsoleInfo (MHmrModule moduleId)) ids) s in
      match checkForUpdate true s1 with
      | (s2, Threw e) => (s2, Some e)
      | (s2, _) => (s2, None)
      end
  end.

(** The [catch] handler (lines 185-195); the error is what it throws. *)
Definition on_check_error (error : Err) (s : State) : State * option Err :=
  match app s with
  | None => (s, Some (TypeError "app.hot"))
  | Some m =>
      if negb (mod_hot m) then (s, Some (TypeError "app.hot.status"))
      else if abort_or_fail (hotStatus s) then
        let fresh := mkModule (loads s) (builds s) (bundle_hot s) in
        (emit [ConsoleWarn MHmrReloaded]
           (set_app fresh
              (emit [ConsoleWarn MHmrCannotApply; CacheEvict; RequireServer fresh] s)),
         None)
      else (emit [ConsoleWarn (MHmrUpdateFailed error)] s, None)
  end.

(** What the runtime settles the promise of [app.hot.check(true)] with. *)
Inductive CheckOutcome : Type :=
| Updated (updatedModules : option (list string))   (* null, or the list of module ids *)
| CheckFailed (error : Err).

(** The promise of [app.hot.check(true)] settles while the runtime is in
    status [st]: the [then] handler or the [catch] handler runs (a throw of
    the [then] handler lands in the [catch] handler), the promise returned
    by [checkForUpdate] settles, and the reaction chained on it runs. *)
Definition check_settled (res : CheckOutcome) (st : HotStatus) (s : State) : State :=
  match checking s with
  | None => s
  | Some c =>
      let s1 := set_hot st None s in
      let '(s2, thrown) :=
        match res with
        | Updated updatedModules =>
            match on_checked (fromUpdate c) updatedModules s1 with
            | (s', Some e) => on_check_error e s'
            | (s', None) => (s', None)
            end
        | CheckFailed error => on_check_error error s1
        end in
      match thrown with
      | Some e => emit [UnhandledRejection e] s2
      | None => if releases c then release s2 else s2
      end
  end.

(** The callback of [serverCompiler.watch] (lines 198-205).  webpack passes
    either an error or the stats of the finished build. *)
Definition watch_callback (error : option Err) (stats : option Stats) (s : State) : State :=
  match app s, error, stats with
  | Some _, None, Some st =>
      if hasErrors st then s
      else
        match checkForUpdate false s with
        | (s1, Threw e) => emit [Uncaught e] s1
        | (s1, ResolvedNow) => release s1
        | (s1, Chained) =>
            match checking s1 with
            | Some c => set_checking (Some (mkCheck (fromUpdate c) true)) s1
            | None => s1
            end
        end
  | Some _, None, None => emit [Uncaught (TypeError "stats.hasErrors")] s
  | _, _, _ => s
  end.

(** ** The startup sequence (lines 207-237) *)

(** Lines 211-233, up to the suspension at [await new Promise(...)]. *)
Definition launch (now : Z) (s : State) : State :=
  let s1 := emit [ConsoleInfo (MLaunching now)] (set_launchStart now s) in
  let m := mkModule (loads s1) (builds s1) (bundle_hot s1) in
  let s2 := set_appPromiseIsResolved true (set_app m (emit [RequireServer m] s1)) in
  match call_appPromiseResolve s2 with
  | Some s3 => set_pc AwaitBrowserSync s3
  | None => enter_catch (TypeError "appPromiseResolve") s2
  end.

(** The executor resumes when the promise it awaits is settled. *)
Definition resume_main (now : Z) (s : State) : State :=
  match pc s with
  | AwaitClient =>
      match Tracker.promise (clientPromise s) with
      | Pending => s
      | Rejected e => enter_catch e s
      | Fulfilled _ =>
          match Tracker.promise (serverPromise s) with
          | Pending => set_pc AwaitServer s
          | Rejected e => enter_catch e s
          | Fulfilled _ => launch now s
          end
      end
  | AwaitServer =>
      match Tracker.promise (serverPromise s) with
      | Pending => s
      | Rejected e => enter_catch e s
      | Fulfilled _ => launch now s
      end
  | _ => s
  end.

(** Lines 235-237, or the catch block when browserSync reports an error. *)
Definition browserSync_settled (res : option Err) (now : Z) (s : State) : State :=
  match pc s with
  | AwaitBrowserSync =>
      match res with
      | None =>
          set_pc Launched
            (emit [ConsoleInfo (MLaunched now (now - launchStart s)%Z)] s)
      | Some e => enter_catch e s
      end
  | _ => s
  end.

(** ** Host notifications *)

Inductive Event : Type :=
| ClientCompile (now : Z)                     (* clientCompiler.hooks.compile *)
| ClientDone (stats : Stats) (now : Z)        (* clientCompiler.hooks.done *)
| ServerCompile (now : Z)                     (* serverCompiler.hooks.compile *)
| ServerDone (stats : Stats) (now : Z)        (* serverCompiler.hooks.done, then the watch callback *)
| ServerWatchError (e : Err)                  (* the watch callback alone, with an error *)
| CheckSettled (res : CheckOutcome) (st : HotStatus)   (* the promise of app.hot.check settles *)
| Request (req : nat)                         (* an inbound HTTP request reaches the middleware *)
| BrowserSyncSettled (res : option Err) (now : Z)      (* the callback of browserSync init *)
| KillSignal                                  (* onKillSignal fires *)
| TeardownSettled (res : option Err).         (* the promise of dockerTeardown() settles *)

Definition client_compile (now : Z) (s : State) : State :=
  let r := Tracker.on_compile now (clientPromise s) in
  emit r.2 (set_clientPromise r.1 s).

Definition client_done (stats : Stats) (now : Z) (s : State) : State :=
  let r := Tracker.on_done stats now (clientPromise s) in
  resume_main now (emit r.2 (set_clientPromise r.1 s)).

(** The two taps of serverCompiler.hooks.compile, in the order they were
    registered: line 33 (through line 130), then line 147. *)
Definition server_compile (now : Z) (s : State) : State :=
  let r := Tracker.on_compile now (serverPromise s) in
  gate_on_compile (emit r.2 (set_serverPromise r.1 s)).

(** A finished server build: its output is on disk, the done hook runs
    (line 38), webpack calls the watch callback, and then the promise
    reactions run, which is where the executor resumes.  The watch callback
    acts only when [app] is set and the executor resumes here only while it
    is not, so the order of their reactions does not show. *)
Definition server_finished (stats : Stats) (now : Z) (s : State) : State :=
  let s0 := if hasErrors stats then s else set_builds (S (builds s)) s in
  let r := Tracker.on_done stats now (serverPromise s0) in
  resume_main now (watch_callback None (Some stats) (emit r.2 (set_serverPromise r.1 s0))).

(** The done hook rejects [serverPromise] while no reaction is attached to
    it: the promise is pending, the build has errors, and the executor is
    not suspended on line 209 (it still awaits [clientPromise], or it has
    left the try block). *)
Definition server_unobserved (stats : Stats) (s : State) : bool :=
  hasErrors stats && is_pending (Tracker.promise (serverPromise s)) &&
  negb (match pc s with AwaitServer => true | _ => false end).

(** The host reports such a rejection once the reactions have run. *)
Definition report_unobserved (unobserved : bool) (s : State) : State :=
  if unobserved then emit [UnhandledRejection CompilationFailed] s else s.

Definition server_done (stats : Stats) (now : Z) (s : State) : State :=
  report_unobserved (server_unobserved stats s) (server_finished stats now s).

Definition step (s : State) (e : Event) : State :=
  match e with
  | ClientCompile now => client_compile now s
  | ClientDone stats now => client_done stats now s
  | ServerCompile now => server_compile now s
  | ServerDone stats now => server_done stats now s
  | ServerWatchError err => watch_callback (Some err) None s
  | CheckSettled res st => check_settled res st s
  | Request req => on_request req s
  | BrowserSyncSettled res now => browserSync_settled res now s
  | KillSignal => cleanupAndExit s
  | TeardownSettled res => teardown_settled res s
  end.

Definition run (s : State) (evs : list Event) : State := foldl step s evs.

(** The states the program can be in. *)
Definition reachable (s : State) : Prop :=
  exists hot now evs, s = run (init hot now) evs.

(** ** Observations *)

Definition count (p : Effect -> bool) (out : list Effect) : nat :=
  length (List.filter p out).

Definition is_teardown (e : Effect) : bool :=
  match e with DockerTeardown => true | _ => false end.

Definition is_outer_resolve (e : Effect) : bool :=
  match e with OuterResolve => true | _ => false end.

Definition is_cleanup_call (e : Effect) : bool :=
  match e with CleanupReturned _ => true | _ => false end.

Definition is_gate_resolve (e : Effect) : bool :=
  match e with GateResolve _ => true | _ => false end.

Definition is_require (e : Effect) : bool :=
  match e with RequireServer _ => true | _ => false end.

(** The executor is in the catch block or past it. *)
Definition in_catch (s : State) : bool :=
  match pc s with AwaitCleanup | Exited => true | _ => false end.

(** The two log entries of the catch block (lines 239-240). *)
Definition catch_logged (out : list Effect) : Prop :=
  exists err, In (BuildLog (MException err)) out /\ In (ConsoleError err) out.


Definition is_updated_entry (e : Effect) : bool :=
  match e with ConsoleInfo MHmrUpdated => true | _ => false end.

Definition is_nothing_entry (e : Effect) : bool :=
  match e with ConsoleInfo MHmrNothing => true | _ => false end.

(** The module ids listed by the "Updated modules" entries. *)
Definition updated_modules (out : list Effect) : list string :=
  omap (fun e => match e with ConsoleInfo (MHmrModule id) => Some id | _ => None end) out.

(** The futures returned by the calls of [cleanupAndExit], in call order. *)
Definition returned_futures (out : list Effect) : list nat :=
  omap (fun e => match e with CleanupReturned f => Some f | _ => None end) out.

(** The requests handed to [app.handle], with the module that served them. *)
Definition handled (out : list Effect) : list (nat * ModuleRef) :=
  omap (fun e => match e with AppHandle r m => Some (r, m) | _ => None end) out.

(** The gate promises that are not resolved. *)
Definition pending_gates (s : State) : list Gate :=
  List.filter (fun g => negb (resolved g)) (gates s).

(** [appPromise] refers to an unresolved promise. *)
Definition gate_armed (s : State) : bool :=
  match appPromise s with
  | Some g =>
      match gates s !! g with
      | Some gt => negb (resolved gt)
      | None => false
      end
  | None => false
  end.

(** A server rebuild is outstanding after a trace when its last server
    notification is a compile-start: a build is running. *)
Definition rebuild_outstanding (evs : list Event) : bool :=
  foldl (fun acc e =>
           match e with
           | ServerCompile _ => true
           | ServerDone _ _ | ServerWatchError _ => false
           | _ => acc
           end) false evs.

(** The wider reading: a rebuild has started and no build has finished
    without errors since. *)
Definition awaiting_ready (evs : list Event) : bool :=
  foldl (fun acc e =>
           match e with
           | ServerCompile _ => true
           | ServerDone stats _ => if hasErrors stats then acc else false
           | _ => acc
           end) false evs.

Definition is_Some_bool {A} (o : option A) : bool :=
  match o with Some _ => true | None => false end.

(** ** Scenarios *)

(** All the ways two notification sequences can interleave. *)
Fixpoint interleave {A} (xs : list A) : list A -> list (list A) :=
  fix inner (ys : list A) : list (list A) :=
    match xs, ys with
    | [], _ => [ys]
    | _, [] => [xs]
    | x :: xs', y :: ys' =>
        map (cons x) (interleave xs' ys) ++ map (cons y) (inner ys')
    end.

(** The effects a step adds to the trace. *)
Definition new_effects (s s' : State) : list Effect :=
  drop (length (effects s)) (effects s').

(** [s'] continues the trace of [s] without handing a request to the
    module. *)
Definition quiet_step (s s' : State) : Prop :=
  exists out, effects s' = effects s ++ out /\ handled out = [].

(** [s'] continues the trace of [s], and every request handed over in
    between went to the module [app] refers to in [s'], with the gate flag
    set. *)
Definition served_step (s s' : State) : Prop :=
  exists out,
    effects s' = effects s ++ out /\
    forall r m, In (r, m) (handled out) ->
                app s' = Some m /\ appPromiseIsResolved s' = true.



(** ** Invariants of the reachable states *)

(** The gate variables: [appPromise] and [appPromiseResolve] belong to the
    same promise, which is the last one created; every earlier promise is
    resolved and has no reaction left; the flag tells whether the last one
    is resolved. *)
Definition GateInv (s : State) : Prop :=
  appPromiseResolve s = appPromise s /\
  match appPromise s with
  | None => gates s = [] /\ appPromiseIsResolved s = true
  | Some g =>
      exists gt,
        gates s = replicate g (mkGate true []) ++ [gt] /\
        resolved gt = appPromiseIsResolved s /\
        (resolved gt = true -> waiters gt = [])
  end.

(** The module and the patch check in flight. *)
Definition ModInv (s : State) : Prop :=
  (forall m, app s = Some m ->
     mod_hot m = bundle_hot s /\ mod_gen m < loads s /\ mod_build m <= builds s /\
     is_fulfilled (Tracker.promise (clientPromise s)) = true /\
     is_fulfilled (Tracker.promise (serverPromise s)) = true) /\
  (forall c, checking s = Some c ->
     bundle_hot s = true /\ is_Some_bool (app s) = true /\ is_idle (hotStatus s) = false) /\
  (is_Some_bool (app s) = false -> loads s = 0).

(** Where the executor is suspended, once the promise reactions have run. *)
Definition PcInv (s : State) : Prop :=
  match pc s with
  | AwaitClient =>
      Tracker.promise (clientPromise s) = Pending /\ is_Some_bool (app s) = false
  | AwaitServer =>
      is_fulfilled (Tracker.promise (clientPromise s)) = true /\
      Tracker.promise (serverPromise s) = Pending /\ is_Some_bool (app s) = false
  | AwaitBrowserSync | Launched => is_Some_bool (app s) = true
  | AwaitCleanup | Exited =>
      is_Some_bool (cleaning s) = true /\
      is_pending (Tracker.promise (clientPromise s)) = false
  end.

(** The same between a hook and the promise reactions it has queued. *)
Definition PcWeak (s : State) : Prop :=
  match pc s with
  | AwaitClient => is_Some_bool (app s) = false
  | AwaitServer =>
      is_fulfilled (Tracker.promise (clientPromise s)) = true /\
      is_Some_bool (app s) = false
  | AwaitBrowserSync | Launched => is_Some_bool (app s) = true
  | AwaitCleanup | Exited =>
      is_Some_bool (cleaning s) = true /\
      is_pending (Tracker.promise (clientPromise s)) = false
  end.

(** The effects of the cleanup routine. *)
Definition is_clean (e : Effect) : bool :=
  is_teardown e || is_cleanup_call e || is_outer_resolve e.

Definition clean_trace (out : list Effect) : list Effect := List.filter is_clean out.

(** The cleanup future and what the trace holds about it. *)
Definition CleanInv (s : State) : Prop :=
  let tr := clean_trace (effects s) in
  cleanups s = count is_teardown tr /\
  match cleaning s with
  | None => tr = []
  | Some f =>
      fut_id f = 0 /\
      count is_teardown tr = 1 /\
      returned_futures tr = replicate (count is_cleanup_call tr) (fut_id f) /\
      1 <= count is_cleanup_call tr /\
      count is_outer_resolve tr = (if is_fulfilled (fut_state f) then 1 else 0)
  end.

Record Inv (s : State) : Prop := mkInv {
  inv_gate : GateInv s;
  inv_mod : ModInv s;
  inv_pc : PcInv s;
  inv_clean : CleanInv s
}.

(** The parts of the state each invariant reads. *)
Definition gate_view (s : State) : list Gate * option nat * option nat * bool :=
  (gates s, appPromise s, appPromiseResolve s, appPromiseIsResolved s).

Definition mod_view (s : State) :=
  (bundle_hot s, builds s, loads s, Tracker.promise (clientPromise s),
   Tracker.promise (serverPromise s), app s, hotStatus s, checking s).

Definition pc_view (s : State) :=
  (pc s, Tracker.promise (clientPromise s), Tracker.promise (serverPromise s),
   is_Some_bool (app s), is_Some_bool (cleaning s)).

Definition clean_view (s : State) :=
  (cleanups s, cleaning s, clean_trace (effects s)).

Ltac cases := repeat (case_match; simplify_eq/=).

(** ** Further observations *)

(** The notifications of the cleanup routine. *)
Definition is_cleanup_event (e : Event) : bool :=
  match e with KillSignal | TeardownSettled _ => true | _ => false end.

(** The executor has handed the middleware to browserSync. *)
Definition serving (s : State) : bool :=
  match pc s with AwaitBrowserSync | Launched => true | _ => false end.

(** The middleware of line 155 threw instead of queueing or dispatching. *)
Definition middleware_threw (out : list Effect) : bool :=
  existsb (fun e => match e with Uncaught (TypeError _) => true | _ => false end) out.
(** ** The webpack configuration (lines 104-122) *)

(** [String.prototype.includes]: [search] occurs somewhere in [s]. *)
Fixpoint includes (search s : string) : bool :=
  String.prefix search s ||
  match s with
  | EmptyString => false
  | String _ s' => includes search s'
  end.

Fixpoint skip (n : nat) (s : string) : string :=
  match n, s with
  | S n', String _ s' => skip n' s'
  | _, _ => s
  end.

(** [String.prototype.replace] with a string pattern: the first occurrence
    of [search] is replaced, the rest of the string is kept.  (The
    replacement 'hash' holds no [$] pattern.) *)
Fixpoint replace (search replacement s : string) : string :=
  if String.prefix search s then replacement +:+ skip (String.length search) s
  else
    match s with
    | EmptyString => EmptyString
    | String c s' => String c (replace search replacement s')
    end.

(** The comparator of line 108: the booleans are coerced to numbers. *)
Definition by_polyfill (a b : string) : Z :=
  (Z.b2z (includes "polyfill" b) - Z.b2z (includes "polyfill" a))%Z.

(** [Array.prototype.sort] with a comparator.  The language requires the
    sort to be stable, which fixes its result for a consistent comparator:
    an element goes before the first element it does not compare greater
    than. *)
Fixpoint sort_insert {A} (cmp : A -> A -> Z) (x : A) (l : list A) : list A :=
  match l with
  | [] => [x]
  | y :: l' => if (cmp x y <=? 0)%Z then x :: l else y :: sort_insert cmp x l'
  end.

Definition sort {A} (cmp : A -> A -> Z) (l : list A) : list A :=
  foldr (sort_insert cmp) [] l.

(** One entry of [module.rules]; [loader] is undefined for the rules that
    use [use] or [oneOf] instead. *)
Record Rule : Type := mkRule {
  rule_test : string;
  loader : option string
}.

Inductive Plugin : Type :=
| HotModuleReplacementPlugin
| OtherPlugin (id : string).

(** One element of the array exported by tools/webpack.config.js, reduced
    to the fields [start] reads or writes.  The fields are present, as that
    file builds them; [cfg_name] and the two hot-update names may be
    undefined. *)
Record Config : Type := mkConfig {
  cfg_name : option string;
  entry_client : list string;
  output_filename : string;
  output_chunkFilename : string;
  output_hotUpdateMainFilename : option string;
  output_hotUpdateChunkFilename : option string;
  module_rules : list Rule;
  plugins : list Plugin
}.

(** [x => x.loader !== 'null-loader'] *)
Definition not_null_loader (x : Rule) : bool :=
  bool_decide (loader x <> Some "null-loader").

(** Lines 106-115. *)
Definition configure_client (clientConfig : Config) : Config :=
  {| cfg_name := cfg_name clientConfig;
     entry_client :=
       sort by_polyfill ("./tools/lib/webpackHotDevClient" :: entry_client clientConfig);
     output_filename := replace "chunkhash" "hash" (output_filename clientConfig);
     output_chunkFilename := replace "chunkhash" "hash" (output_chunkFilename clientConfig);
     output_hotUpdateMainFilename := output_hotUpdateMainFilename clientConfig;
     output_hotUpdateChunkFilename := output_hotUpdateChunkFilename clientConfig;
     module_rules := List.filter not_null_loader (module_rules clientConfig);
     plugins := plugins clientConfig ++ [HotModuleReplacementPlugin] |}.

(** Lines 119-122. *)
Definition configure_server (serverConfig : Config) : Config :=
  {| cfg_name := cfg_name serverConfig;
     entry_client := entry_client serverConfig;
     output_filename := output_filename serverConfig;
     output_chunkFilename := output_chunkFilename serverConfig;
     output_hotUpdateMainFilename := Some "updates/[hash].hot-update.json";
     output_hotUpdateChunkFilename := Some "updates/[id].[hash].hot-update.js";
     module_rules := List.filter not_null_loader (module_rules serverConfig);
     plugins := plugins serverConfig ++ [HotModuleReplacementPlugin] |}.

(** [webpackConfig.find(cfg => cfg.name === name)]: the first element with
    that name, and where it sits in the array. *)
Definition find_config (name : string) (webpackConfig : list Config) : option (nat * Config) :=
  list_find (fun cfg => cfg_name cfg = Some name) webpackConfig.

(** Lines 105-122.  [find] gives a reference into the array, so the writes
    land in [webpackConfig]; when [find] gives undefined the first member
    access throws, and what was written before stays written. *)
Definition configure (webpackConfig : list Config) : list Config * option Err :=
  match find_config "client" webpackConfig with
  | None => (webpackConfig, Some (TypeError "clientConfig.entry"))
  | Some (i, clientConfig) =>
      let cfgs := <[i := configure_client clientConfig]> webpackConfig in
      match find_config "server" cfgs with
      | None => (cfgs, Some (TypeError "serverConfig.output"))
      | Some (j, serverConfig) => (<[j := configure_server serverConfig]> cfgs, None)
      end
  end.
(** ** The arguments of [start] (lines 57-62) *)

Record Args : Type := mkArgs {
  initialBuild : bool;
  runDatabase : bool;
  persistDbData : bool;
  noDocker : bool
}.

(** [process.argv.includes(flag)] *)
Definition argv_includes (flag : string) (argv : list string) : bool :=
  bool_decide (flag ∈ argv).

(** The default values, for a call without arguments. *)
Definition default_args (argv : list string) : Args :=
  {| initialBuild := negb (argv_includes "--tdd-no-initial-build" argv);
     runDatabase := negb (argv_includes "--tdd-no-db" argv) &&
                    negb (argv_includes "--tdd-no-docker" argv);
     persistDbData := negb (argv_includes "--tdd-no-db-persist" argv);
     noDocker := argv_includes "--tdd-no-docker" argv |}.

(** ** The body of [start] up to line 208 *)

Module Startup.

(** Where [start] is suspended. *)
Inductive Phase : Type :=
| AwaitInitialBuild    (* line 64 *)
| AwaitNetwork         (* line 91 *)
| AwaitEnsureDir       (* line 94 *)
| AwaitDbContainer     (* line 95 *)
| AwaitClean           (* line 125 *)
| Running              (* line 208 and later: the state of the executor takes over *)
| Caught               (* an exception of lines 90-125 reached the catch block *)
| StartRejected.       (* the promise of [start] is rejected, line 64 *)

(** The calls to the collaborators, and what the executor does once the
    compilers exist. *)
Inductive Call : Type :=
| RunBuild                                             (* run(build) *)
| HandleNodeProcessEvents
| OnKillSignal                                         (* onKillSignal(cleanupAndExit) *)
| DockerNetworkCreate (network : string)
| EnsureDir (dir : string)
| RunDbContainer (network : string) (persist : option string)
| RunClean                                             (* run(clean, false) *)
| Webpack (webpackConfig : list Config)
| StartReject (e : Err)                                (* the promise of start() is rejected *)
| Core (e : Effect).

(** [core] holds the variables of the promise executor ([cleaning] from
    line 74 on, the others from line 129 on) and the trace of what the
    cleanup routine and the orchestration do; [calls] is the trace of the
    whole run. *)
Record t : Type := mk {
  args : Args;
  phase : Phase;
  env : gmap string string;          (* process.env *)
  webpackConfig : list Config;       (* the array of tools/webpack.config.js *)
  core : State;
  calls : list Call
}.

Definition goto (p : Phase) (b : t) : t :=
  mk (args b) p (env b) (webpackConfig b) (core b) (calls b).

Definition call (out : list Call) (b : t) : t :=
  mk (args b) (phase b) (env b) (webpackConfig b) (core b) (calls b ++ out).

Definition set_env (e : gmap string string) (b : t) : t :=
  mk (args b) (phase b) e (webpackConfig b) (core b) (calls b).

Definition set_webpackConfig (cfgs : list Config) (b : t) : t :=
  mk (args b) (phase b) (env b) cfgs (core b) (calls b).

(** A transition of the executor's variables; what it adds to their trace
    is added to the trace of the run. *)
Definition lift (f : State -> State) (b : t) : t :=
  let s' := f (core b) in
  mk (args b) (phase b) (env b) (webpackConfig b) s'
     (calls b ++ map Core (new_effects (core b) s')).

Definition network : string := "ski-resorts-tdd".

(** The catch block (lines 238-242) entered from lines 90-125. *)
Definition catch (err : Err) (b : t) : t :=
  goto Caught (lift (enter_catch err) b).

(** Lines 100-125: the express server is set up, the two configurations
    are rewritten, and [run(clean, false)] is awaited. *)
Definition configure_and_clean (b : t) : t :=
  let r := configure (webpackConfig b) in
  let b1 := set_webpackConfig r.1 b in
  match r.2 with
  | Some e => catch e b1
  | None => call [RunClean] (goto AwaitClean b1)
  end.

(** Lines 93-94. *)
Definition database (b : t) : t :=
  if runDatabase (args b) then call [EnsureDir "./db/data-tdd"] (goto AwaitEnsureDir b)
  else configure_and_clean b.

(** Line 95: [persistDbData && './db/data-tdd']. *)
Definition db_container (b : t) : t :=
  call [RunDbContainer network
          (if persistDbData (args b) then Some "./db/data-tdd" else None)]
    (goto AwaitDbContainer b).

(** Lines 96-97; assigning to [process.env] stores the string 'true'. *)
Definition db_env (port : string) (e : gmap string string) : gmap string string :=
  <["DB_HOST" := "mongodb://localhost:" +:+ port]> (<["DB_ENABLED" := "true"]> e).

Definition db_started (port : string) (b : t) : t :=
  set_env (db_env port (env b)) b.

(** Lines 67-91: the promise executor runs up to its first await. *)
Definition executor (b : t) : t :=
  let b1 := call [HandleNodeProcessEvents; OnKillSignal] b in
  if noDocker (args b) then database b1
  else call [DockerNetworkCreate network] (goto AwaitNetwork b1).

(** Lines 129-130: the two compilation promises are created; the variables
    of lines 144-154 have the values [init] gives them. *)
Definition create_promises (now : Z) (s : State) : State :=
  set_launchStart now
    (set_serverPromise (Tracker.createCompilationPromise "server" now)
       (set_clientPromise (Tracker.createCompilationPromise "client" now) s)).

(** Lines 126-208: the compilers are created from the rewritten array and
    the executor suspends on [clientPromise]. *)
Definition compile (now : Z) (b : t) : t :=
  let b1 := call [Webpack (webpackConfig b)] b in
  goto Running
    (mk (args b1) (phase b1) (env b1) (webpackConfig b1)
        (create_promises now (core b1)) (calls b1)).

(** The call [start(...)]: [hot] tells whether the server bundle exports a
    hot interface, [env0] is the environment of the process. *)
Definition start (a : Args) (cfgs : list Config) (env0 : gmap string string)
    (hot : bool) : t :=
  let b := mk a AwaitInitialBuild env0 cfgs (init hot 0) [] in
  if initialBuild a then call [RunBuild] b else executor b.

(** What the host delivers: the settlement of the promise [start] awaits,
    or a notification for the executor ([Event]). *)
Inductive Input : Type :=
| InitialBuildSettled (res : option Err)
| NetworkSettled (res : option Err)
| EnsureDirSettled (res : option Err)
| DbContainerSettled (res : Err + string)     (* the port of the container *)
| CleanSettled (res : option Err) (now : Z)
| Host (e : Event).

Definition host (e : Event) (b : t) : t := lift (fun s => step s e) b.

(** Before line 87 no kill-signal handler is registered; before line 126
    there are no compilers, and after an exception there never are, so the
    only notifications are those of the cleanup routine. *)
Definition step (b : t) (i : Input) : t :=
  match phase b, i with
  | AwaitInitialBuild, InitialBuildSettled None => executor b
  | AwaitInitialBuild, InitialBuildSettled (Some e) =>
      call [StartReject e] (goto StartRejected b)
  | AwaitNetwork, NetworkSettled None => database b
  | AwaitNetwork, NetworkSettled (Some e) => catch e b
  | AwaitEnsureDir, EnsureDirSettled None => db_container b
  | AwaitEnsureDir, EnsureDirSettled (Some e) => catch e b
  | AwaitDbContainer, DbContainerSettled (inr port) =>
      configure_and_clean (db_started port b)
  | AwaitDbContainer, DbContainerSettled (inl e) => catch e b
  | AwaitClean, CleanSettled None now => compile now b
  | AwaitClean, CleanSettled (Some e) _ => catch e b
  | (AwaitNetwork | AwaitEnsureDir | AwaitDbContainer | AwaitClean | Caught), Host e =>
      if is_cleanup_event e then host e b else b
  | Running, Host e => host e b
  | _, _ => b
  end.

Definition run (b : t) (ins : list Input) : t := foldl step b ins.

(** The states a call of [start] can be in. *)
Definition reachable (b : t) : Prop :=
  exists a cfgs env0 hot ins, b = run (start a cfgs env0 hot) ins.

(** The calls to the collaborators alone. *)
Definition provisioning (out : list Call) : list Call :=
  List.filter (fun c => match c with Core _ => false | _ => true end) out.

(** What the executor's variables did, as the trace of the run has it. *)
Definition orchestration (out : list Call) : list Effect :=
  omap (fun c => match c with Core e => Some e | _ => None end) out.

Definition is_webpack (c : Call) : bool :=
  match c with Webpack _ => true | _ => false end.

Definition is_cleanup_input (i : Input) : bool :=
  match i with Host e => is_cleanup_event e | _ => false end.

(** How far the startup has come: where [start] is suspended, the
    environment, the configuration array and the calls to the
    collaborators. *)
Definition progress (b : t) :=
  (args b, phase b, env b, webpackConfig b, provisioning (calls b)).

(** The configuration arrays [webpack] was called with. *)
Definition webpack_calls (out : list Call) : list (list Config) :=
  omap (fun c => match c with Webpack cfgs => Some cfgs | _ => None end) out.

(** The calls of a startup that meets no failure, in program order, up to
    [run(clean, false)]. *)
Definition build_calls (a : Args) : list Call :=
  if initialBuild a then [RunBuild] else [].

Definition network_calls (a : Args) : list Call :=
  if noDocker a then [] else [DockerNetworkCreate network].

Definition database_calls (a : Args) : list Call :=
  if runDatabase a then
    [EnsureDir "./db/data-tdd";
     RunDbContainer network (if persistDbData a then Some "./db/data-tdd" else None)]
  else [].

Definition plan (a : Args) : list Call :=
  build_calls a ++ [HandleNodeProcessEvents; OnKillSignal] ++
  network_calls a ++ database_calls a ++ [RunClean].

(** The environment once the database step is behind. *)
Definition Provisioned (a : Args) (env0 e : gmap string string) : Prop :=
  if runDatabase a then exists port, e = db_env port env0 else e = env0.

(** What holds at each suspension point of a call with arguments [a],
    configuration array [cfgs] and environment [env0]. *)
Definition Planned (a : Args) (cfgs : list Config) (env0 : gmap string string)
    (b : t) : Prop :=
  args b = a /\
  match phase b with
  | AwaitInitialBuild =>
      initialBuild a = true /\ provisioning (calls b) = [RunBuild] /\
      env b = env0 /\ webpackConfig b = cfgs
  | AwaitNetwork =>
      noDocker a = false /\
      provisioning (calls b) =
        build_calls a ++ [HandleNodeProcessEvents; OnKillSignal] ++ network_calls a /\
      env b = env0 /\ webpackConfig b = cfgs
  | AwaitEnsureDir =>
      runDatabase a = true /\
      provisioning (calls b) =
        build_calls a ++ [HandleNodeProcessEvents; OnKillSignal] ++ network_calls a ++
        [EnsureDir "./db/data-tdd"] /\
      env b = env0 /\ webpackConfig b = cfgs
  | AwaitDbContainer =>
      runDatabase a = true /\
      provisioning (calls b) =
        build_calls a ++ [HandleNodeProcessEvents; OnKillSignal] ++ network_calls a ++
        database_calls a /\
      env b = env0 /\ webpackConfig b = cfgs
  | AwaitClean =>
      provisioning (calls b) = plan a /\
      Provisioned a env0 (env b) /\ configure cfgs = (webpackConfig b, None)
  | Running =>
      provisioning (calls b) = plan a ++ [Webpack (webpackConfig b)] /\
      Provisioned a env0 (env b) /\ configure cfgs = (webpackConfig b, None)
  | Caught =>
      (provisioning (calls b) `prefix_of` plan a) /\
      (env b = env0 \/ (runDatabase a = true /\ exists port, env b = db_env port env0))
  | StartRejected =>
      initialBuild a = true /\ env b = env0 /\ webpackConfig b = cfgs /\
      exists e, provisioning (calls b) = [RunBuild; StartReject e]
  end.

(** The inputs of a startup that meets no failure. *)
Definition smooth (a : Args) (port : string) (now : Z) : list Input :=
  (if initialBuild a then [InitialBuildSettled None] else []) ++
  (if noDocker a then [] else [NetworkSettled None]) ++
  (if runDatabase a then [EnsureDirSettled None; DbContainerSettled (inr port)] else []) ++
  [CleanSettled None now].

End Startup.

(** ** The executor's variables during the startup *)

(** While [start] provisions, only the cleanup routine has touched them. *)
Definition Provisioning (s : State) : Prop :=
  exists hot evs, forallb is_cleanup_event evs = true /\ s = run (init hot 0) evs.

(** The trace of the run holds the trace of the executor's variables; the
    cleanup future and its trace agree; and the variables are those of a
    state of the orchestration once the compilers exist. *)
Definition CoreInv (b : Startup.t) : Prop :=
  Startup.orchestration (Startup.calls b) = effects (Startup.core b) /\
  CleanInv (Startup.core b) /\
  match Startup.phase b with
  | Startup.Running => reachable (Startup.core b)
  | Startup.Caught =>
      is_Some_bool (cleaning (Startup.core b)) = true /\ app (Startup.core b) = None
  | Startup.AwaitInitialBuild | Startup.StartRejected =>
      exists hot, Startup.core b = init hot 0
  | _ => Provisioning (Startup.core b)
  end.

(** The part of it the suspension points before the compilers share. *)
Definition CorePre (b : Startup.t) : Prop :=
  Startup.orchestration (Startup.calls b) = effects (Startup.core b) /\
  CleanInv (Startup.core b) /\ Provisioning (Startup.core b).

(** * Properties *)

(** ** Effects and gate store: bookkeeping *)

Lemma emit_nil s : emit [] s = s.
Proof. destruct s; unfold emit; simpl. by rewrite app_nil_r. Qed.

Lemma emit_emit a b s : emit b (emit a s) = emit (a ++ b) s.
Proof. unfold emit; simpl. by rewrite <- app_assoc. Qed.

Lemma foldl_dispatch ws : forall s,
  foldl dispatch s ws = emit (map (dispatch_effect (app s)) ws) s.
Proof.
  induction ws as [|w ws IH]; intros s; simpl.
  - by rewrite emit_nil.
  - rewrite IH. unfold dispatch. by rewrite emit_emit.
Qed.

Lemma gate_last (g : nat) (x gt : Gate) :
  (replicate g x ++ [gt]) !! g = Some gt.
Proof.
  rewrite lookup_app_r; rewrite length_replicate; [|lia].
  by rewrite Nat.sub_diag.
Qed.

Lemma gate_set_last (g : nat) (x gt gt' : Gate) :
  <[g := gt']> (replicate g x ++ [gt]) = replicate g x ++ [gt'].
Proof.
  rewrite insert_app_r_alt; rewrite length_replicate; [|lia].
  by rewrite Nat.sub_diag.
Qed.

Lemma gate_length (g : nat) (x gt : Gate) :
  length (replicate g x ++ [gt]) = S g.
Proof. rewrite length_app, length_replicate. simpl. lia. Qed.

Lemma gate_grow (g : nat) (x : Gate) :
  replicate g x ++ [x] = replicate (S g) x.
Proof.
  induction g as [|g IH]; simpl; [done | by rewrite IH].
Qed.

(** ** The gate invariant *)

Lemma GateInv_view s s' : gate_view s' = gate_view s -> GateInv s -> GateInv s'.
Proof.
  unfold gate_view, GateInv. intros [= -> -> -> ->]. done.
Qed.

Lemma gate_view_cleanupAndExit s : gate_view (cleanupAndExit s) = gate_view s.
Proof. unfold cleanupAndExit. by cases. Qed.

Lemma gate_view_enter_catch e s : gate_view (enter_catch e s) = gate_view s.
Proof. unfold enter_catch, cleanupAndExit. by cases. Qed.

Lemma gate_view_teardown_settled res s :
  gate_view (teardown_settled res s) = gate_view s.
Proof. unfold teardown_settled. by cases. Qed.

Lemma gate_view_browserSync_settled res now s :
  gate_view (browserSync_settled res now s) = gate_view s.
Proof.
  unfold browserSync_settled. cases; try done; apply gate_view_enter_catch.
Qed.

Lemma gate_view_checkForUpdate b s :
  gate_view (checkForUpdate b s).1 = gate_view s.
Proof. unfold checkForUpdate. by cases. Qed.

Lemma gate_view_on_checked b u s : gate_view (on_checked b u s).1 = gate_view s.
Proof.
  unfold on_checked. destruct u as [[|moduleId ids]|]; simpl; [done| |by destruct b].
  match goal with
  | |- context [checkForUpdate true ?s1] =>
      pose proof (gate_view_checkForUpdate true s1) as Hv;
      destruct (checkForUpdate true s1) as [s2 []]
  end; done.
Qed.

Lemma gate_view_on_check_error e s :
  gate_view (on_check_error e s).1 = gate_view s.
Proof. unfold on_check_error. by cases. Qed.

Lemma GateInv_gate_on_compile s : GateInv s -> GateInv (gate_on_compile s).
Proof.
  unfold gate_on_compile, GateInv. intros [Hr Hg].
  destruct (appPromiseIsResolved s) eqn:Hf; simpl; [|by rewrite Hf].
  split; [done|].
  destruct (appPromise s) as [g|].
  - destruct Hg as (gt & -> & Hres & Hw).
    exists (mkGate false []). rewrite gate_length.
    destruct gt as [r ws]; simpl in *; subst r. rewrite Hw by done.
    by rewrite gate_grow.
  - destruct Hg as [-> _]. by exists (mkGate false []).
Qed.

Lemma GateInv_resolve s s' :
  GateInv s ->
  call_appPromiseResolve (set_appPromiseIsResolved true s) = Some s' ->
  GateInv s'.
Proof.
  unfold call_appPromiseResolve, GateInv. intros [Hr Hg] Hc. simpl in Hc.
  rewrite Hr in Hc. destruct (appPromise s) as [g|] eqn:Hp; [|done].
  destruct Hg as (gt & Hgs & Hres & Hw).
  rewrite Hgs, gate_last in Hc.
  destruct (resolved gt) eqn:Hrg; injection Hc as <-.
  - simpl. rewrite Hr, Hp. split; [done|]. exists gt. by rewrite Hrg.
  - rewrite foldl_dispatch; simpl. rewrite Hr, Hp. split; [done|].
    exists (mkGate true []). by rewrite gate_set_last.
Qed.

Lemma GateInv_resolve_undefined s :
  GateInv s ->
  call_appPromiseResolve (set_appPromiseIsResolved true s) = None ->
  GateInv (set_appPromiseIsResolved true s).
Proof.
  unfold call_appPromiseResolve, GateInv. intros [Hr Hg] Hc. simpl in *.
  rewrite Hr in *. destruct (appPromise s) as [g|] eqn:Hp.
  - destruct Hg as (gt & Hgs & _). rewrite Hgs, gate_last in Hc.
    by destruct (resolved gt).
  - by destruct Hg as [-> _].
Qed.

Lemma GateInv_release s : GateInv s -> GateInv (release s).
Proof.
  intros HI. unfold release.
  destruct (call_appPromiseResolve _) as [s'|] eqn:Hc.
  - by eapply GateInv_resolve.
  - eapply GateInv_view; [|by eapply GateInv_resolve_undefined]. done.
Qed.

Lemma GateInv_on_request req s : GateInv s -> GateInv (on_request req s).
Proof.
  unfold on_request, GateInv. intros [Hr Hg].
  destruct (appPromise s) as [g|] eqn:Hp; simpl; [|by rewrite Hp].
  destruct Hg as (gt & Hgs & Hres & Hw). rewrite Hgs, gate_last.
  destruct (resolved gt) eqn:Hrg; simpl; rewrite Hp.
  - split; [done|]. exists gt. rewrite Hrg. auto.
  - split; [done|]. exists (mkGate false (waiters gt ++ [req])).
    rewrite gate_set_last. simpl. by repeat split.
Qed.

Lemma GateInv_launch now s : GateInv s -> GateInv (launch now s).
Proof.
  intros HI. unfold launch.
  match goal with
  | |- context [call_appPromiseResolve (set_appPromiseIsResolved true ?s0)] =>
      assert (GateInv s0) as HI0 by (by eapply GateInv_view; [|exact HI]);
      destruct (call_appPromiseResolve (set_appPromiseIsResolved true s0))
        as [s3|] eqn:Hc
  end.
  - eapply GateInv_view; [|by eapply GateInv_resolve]. done.
  - eapply GateInv_view; [apply gate_view_enter_catch|].
    by eapply GateInv_resolve_undefined.
Qed.

Lemma GateInv_resume_main now s : GateInv s -> GateInv (resume_main now s).
Proof.
  intros HI. unfold resume_main.
  cases; auto using GateInv_launch;
    (eapply GateInv_view; [|exact HI]); auto using gate_view_enter_catch.
Qed.

Lemma GateInv_watch_callback err st s :
  GateInv s -> GateInv (watch_callback err st s).
Proof.
  intros HI. unfold watch_callback.
  destruct (app s), err, st; try done;
    try (by eapply GateInv_view; [|exact HI]).
  destruct (hasErrors _); [done|].
  pose proof (gate_view_checkForUpdate false s) as Hv.
  destruct (checkForUpdate false s) as [s1 [e| |]]; simpl in Hv.
  - eapply GateInv_view; [|exact HI]. by rewrite <- Hv.
  - apply GateInv_release. by eapply GateInv_view.
  - destruct (checking s1); eapply GateInv_view; try exact HI; by rewrite <- Hv.
Qed.

Lemma GateInv_check_settled res st s :
  GateInv s -> GateInv (check_settled res st s).
Proof.
  intros HI. unfold check_settled.
  destruct (checking s) as [c|]; [|done].
  assert (forall p : State * option Err,
            gate_view p.1 = gate_view s ->
            GateInv (match p.2 with
                     | Some e => emit [UnhandledRejection e] p.1
                     | None => if releases c then release p.1 else p.1
                     end)) as Hk.
  { intros [s2 [e|]] Hv; simpl in *.
    - by eapply GateInv_view; [|exact HI].
    - destruct (releases c); [apply GateInv_release|]; by eapply GateInv_view. }
  destruct res as [u|error].
  - pose proof (gate_view_on_checked (fromUpdate c) u (set_hot st None s)) as Hv.
    destruct (on_checked _ _ _) as [s' [e|]]; simpl in Hv.
    + pose proof (gate_view_on_check_error e s') as Hv'.
      destruct (on_check_error e s') as [s2 o] eqn:E.
      apply (Hk (s2, o)). simpl in *. by rewrite Hv', Hv.
    + apply (Hk (s', None)). done.
  - pose proof (gate_view_on_check_error error (set_hot st None s)) as Hv.
    destruct (on_check_error _ _) as [s2 o].
    apply (Hk (s2, o)). done.
Qed.

Lemma gate_view_report b s : gate_view (report_unobserved b s) = gate_view s.
Proof. by destruct b. Qed.

Lemma GateInv_step s e : GateInv s -> GateInv (step s e).
Proof.
  intros HI. destruct e; cbn [step].
  - by eapply GateInv_view; [|exact HI].
  - apply GateInv_resume_main. by eapply GateInv_view; [|exact HI].
  - apply GateInv_gate_on_compile. by eapply GateInv_view; [|exact HI].
  - eapply GateInv_view; [apply gate_view_report|].
    apply GateInv_resume_main, GateInv_watch_callback.
    eapply GateInv_view; [|exact HI]. by destruct (hasErrors stats).
  - by apply GateInv_watch_callback.
  - by apply GateInv_check_settled.
  - by apply GateInv_on_request.
  - eapply GateInv_view; [apply gate_view_browserSync_settled|done].
  - eapply GateInv_view; [apply gate_view_cleanupAndExit|done].
  - eapply GateInv_view; [apply gate_view_teardown_settled|done].
Qed.

(** ** The cleanup invariant *)

Lemma count_app p a b : count p (a ++ b) = count p a + count p b.
Proof. unfold count. by rewrite List.filter_app, length_app. Qed.

Lemma clean_trace_app a b : clean_trace (a ++ b) = clean_trace a ++ clean_trace b.
Proof. apply List.filter_app. Qed.

Lemma clean_trace_dispatch a ws : clean_trace (map (dispatch_effect a) ws) = [].
Proof. induction ws; destruct a; simpl in *; auto. Qed.

Lemma clean_trace_modules ids :
  clean_trace (map (fun moduleId => ConsoleInfo (MHmrModule moduleId)) ids) = [].
Proof. induction ids; simpl in *; auto. Qed.

Lemma count_clean_trace p out :
  (forall e, p e = true -> is_clean e = true) ->
  count p (clean_trace out) = count p out.
Proof.
  intros Hp. unfold count, clean_trace.
  induction out as [|e out IH]; simpl; [done|].
  destruct (p e) eqn:He.
  - rewrite (Hp e He). simpl. rewrite He. simpl. by rewrite IH.
  - destruct (is_clean e); simpl; rewrite ?He; exact IH.
Qed.

Lemma returned_futures_clean_trace out :
  returned_futures (clean_trace out) = returned_futures out.
Proof.
  unfold returned_futures, clean_trace.
  induction out as [|e out IH]; simpl; [done|].
  destruct e; simpl; first [exact IH | f_equal; exact IH].
Qed.

Lemma CleanInv_view s s' : clean_view s' = clean_view s -> CleanInv s -> CleanInv s'.
Proof. unfold clean_view, CleanInv. intros [= -> -> ->]. done. Qed.

(** Normalises the cleanup view of a state built by the setters. *)
Ltac quiet :=
  unfold clean_view; simpl; rewrite ?clean_trace_app; simpl;
  rewrite ?clean_trace_dispatch, ?clean_trace_modules;
  simpl; rewrite ?app_nil_r; reflexivity.

Lemma clean_view_gate_on_compile s : clean_view (gate_on_compile s) = clean_view s.
Proof. unfold gate_on_compile. by cases. Qed.

Lemma clean_view_resolve s s' :
  call_appPromiseResolve s = Some s' -> clean_view s' = clean_view s.
Proof.
  unfold call_appPromiseResolve. intros H. cases; rewrite ?foldl_dispatch; quiet.
Qed.

Lemma clean_view_release s : clean_view (release s) = clean_view s.
Proof.
  unfold release. destruct (call_appPromiseResolve _) as [s'|] eqn:Hc.
  - by rewrite (clean_view_resolve _ _ Hc).
  - quiet.
Qed.

Lemma clean_view_on_request req s : clean_view (on_request req s) = clean_view s.
Proof. unfold on_request, dispatch, dispatch_effect. cases; quiet.
Qed.

Lemma clean_view_checkForUpdate b s :
  clean_view (checkForUpdate b s).1 = clean_view s.
Proof. unfold checkForUpdate. cases; quiet. Qed.

Lemma clean_view_on_checked b u s : clean_view (on_checked b u s).1 = clean_view s.
Proof.
  unfold on_checked. destruct u as [[|moduleId ids]|]; simpl;
    [quiet| |destruct b; quiet].
  match goal with
  | |- context [checkForUpdate true ?s1] =>
      pose proof (clean_view_checkForUpdate true s1) as Hv;
      destruct (checkForUpdate true s1) as [s2 []]
  end; simpl in *; rewrite Hv; quiet.
Qed.

Lemma clean_view_on_check_error e s :
  clean_view (on_check_error e s).1 = clean_view s.
Proof. unfold on_check_error. cases; quiet. Qed.

Lemma clean_view_check_settled res st s :
  clean_view (check_settled res st s) = clean_view s.
Proof.
  unfold check_settled. destruct (checking s) as [c|]; [|done].
  assert (forall p : State * option Err,
            clean_view p.1 = clean_view s ->
            clean_view (match p.2 with
                        | Some e => emit [UnhandledRejection e] p.1
                        | None => if releases c then release p.1 else p.1
                        end) = clean_view s) as Hk.
  { intros [s2 [e|]] Hv; simpl in *.
    - rewrite <- Hv. quiet.
    - destruct (releases c); rewrite ?clean_view_release; done. }
  destruct res as [u|error].
  - pose proof (clean_view_on_checked (fromUpdate c) u (set_hot st None s)) as Hv.
    destruct (on_checked _ _ _) as [s' [e|]]; simpl in Hv.
    + pose proof (clean_view_on_check_error e s') as Hv'.
      destruct (on_check_error e s') as [s2 o].
      apply (Hk (s2, o)). simpl in *. by rewrite Hv', Hv.
    + apply (Hk (s', None)). done.
  - pose proof (clean_view_on_check_error error (set_hot st None s)) as Hv.
    destruct (on_check_error _ _) as [s2 o].
    apply (Hk (s2, o)). done.
Qed.

Lemma clean_view_watch_callback err st s :
  clean_view (watch_callback err st s) = clean_view s.
Proof.
  unfold watch_callback.
  destruct (app s), err, st; try done; try quiet.
  destruct (hasErrors _); [done|].
  pose proof (clean_view_checkForUpdate false s) as Hv.
  destruct (checkForUpdate false s) as [s1 [e| |]]; simpl in Hv.
  - rewrite <- Hv. quiet.
  - by rewrite clean_view_release.
  - by destruct (checking s1).
Qed.

Lemma CleanInv_cleanupAndExit s : CleanInv s -> CleanInv (cleanupAndExit s).
Proof.
  unfold cleanupAndExit, CleanInv. intros [Hn Hc].
  destruct (cleaning s) as [f|] eqn:Hcl; simpl in *;
    rewrite ?Hcl, ?clean_trace_app; simpl.
  - destruct Hc as (Hid & Ht & Hr & Hcalls & Ho).
    unfold returned_futures in *. rewrite omap_app, Hr.
    unfold count in *. rewrite !List.filter_app, !length_app. simpl.
    rewrite !Nat.add_0_r, replicate_add. repeat split; try done. lia.
  - rewrite Hc in *. simpl in *. rewrite Hn. done.
Qed.

Lemma CleanInv_teardown_settled res s :
  CleanInv s -> CleanInv (teardown_settled res s).
Proof.
  unfold teardown_settled, CleanInv. intros [Hn Hc].
  destruct (cleaning s) as [f|] eqn:Hcl; [|by rewrite Hcl].
  destruct (is_pending (fut_state f)) eqn:Hp; [|by rewrite Hcl].
  destruct Hc as (Hid & Ht & Hr & Hcalls & Ho).
  assert (is_fulfilled (fut_state f) = false) as Hnf
    by (by destruct (fut_state f)).
  rewrite Hnf in Ho.
  destruct res as [e|].
  - simpl. destruct (pc s); simpl; rewrite ?clean_trace_app; simpl;
      rewrite ?app_nil_r; done.
  - unfold returned_futures in *. simpl.
    destruct (pc s); simpl; rewrite ?clean_trace_app; simpl;
      rewrite omap_app, Hr; unfold count in *;
      rewrite !List.filter_app, !length_app; simpl;
      rewrite ?Nat.add_0_r, ?app_nil_r; repeat split; try done; lia.
Qed.

Lemma CleanInv_enter_catch e s : CleanInv s -> CleanInv (enter_catch e s).
Proof.
  intros HI. unfold enter_catch.
  match goal with
  | |- context [cleanupAndExit ?s0] =>
      assert (CleanInv (cleanupAndExit s0)) as H1
        by (apply CleanInv_cleanupAndExit; eapply CleanInv_view; [|exact HI]; quiet);
      generalize dependent (cleanupAndExit s0); intros s1 H1
  end.
  destruct (cleaning s1) as [f|]; [destruct (fut_state f)|];
    (eapply CleanInv_view; [|exact H1]); quiet.
Qed.

Lemma CleanInv_launch now s : CleanInv s -> CleanInv (launch now s).
Proof.
  intros HI. unfold launch.
  match goal with
  | |- context [call_appPromiseResolve ?s0] =>
      assert (CleanInv s0) as HI0 by (eapply CleanInv_view; [|exact HI]; quiet);
      destruct (call_appPromiseResolve s0) as [s3|] eqn:Hc
  end.
  - eapply CleanInv_view; [|exact HI0]. rewrite <- (clean_view_resolve _ _ Hc). quiet.
  - by apply CleanInv_enter_catch.
Qed.

Lemma CleanInv_resume_main now s : CleanInv s -> CleanInv (resume_main now s).
Proof.
  intros HI. unfold resume_main.
  cases; auto using CleanInv_launch, CleanInv_enter_catch.
Qed.

Lemma CleanInv_browserSync_settled res now s :
  CleanInv s -> CleanInv (browserSync_settled res now s).
Proof.
  intros HI. unfold browserSync_settled.
  cases; auto using CleanInv_enter_catch.
  eapply CleanInv_view; [|exact HI]. quiet.
Qed.

Lemma clean_view_report b s : clean_view (report_unobserved b s) = clean_view s.
Proof. destruct b; [|done]. unfold report_unobserved. quiet. Qed.

Lemma CleanInv_step s e : CleanInv s -> CleanInv (step s e).
Proof.
  intros HI. destruct e; cbn [step].
  - eapply CleanInv_view; [|exact HI]. quiet.
  - apply CleanInv_resume_main. eapply CleanInv_view; [|exact HI].
    unfold Tracker.on_done. destruct (hasErrors stats); quiet.
  - eapply CleanInv_view; [|exact HI]. unfold server_compile.
    rewrite clean_view_gate_on_compile. quiet.
  - eapply CleanInv_view; [apply clean_view_report|].
    apply CleanInv_resume_main. eapply CleanInv_view; [|exact HI].
    rewrite clean_view_watch_callback.
    unfold Tracker.on_done. destruct (hasErrors stats); quiet.
  - eapply CleanInv_view; [apply clean_view_watch_callback|done].
  - eapply CleanInv_view; [apply clean_view_check_settled|done].
  - eapply CleanInv_view; [apply clean_view_on_request|done].
  - by apply CleanInv_browserSync_settled.
  - by apply CleanInv_cleanupAndExit.
  - by apply CleanInv_teardown_settled.
Qed.

(** ** The module and executor invariants *)

Lemma ModInv_view s s' : mod_view s' = mod_view s -> ModInv s -> ModInv s'.
Proof. unfold mod_view, ModInv. intros [= -> -> -> -> -> -> -> ->]. done. Qed.

Lemma PcInv_view s s' : pc_view s' = pc_view s -> PcInv s -> PcInv s'.
Proof.
  unfold pc_view, PcInv. intros [= H1 H2 H3 H4 H5].
  by rewrite ?H1, ?H2, ?H3, ?H4, ?H5.
Qed.

Lemma PcWeak_view s s' : pc_view s' = pc_view s -> PcWeak s -> PcWeak s'.
Proof.
  unfold pc_view, PcWeak. intros [= H1 H2 H3 H4 H5].
  by rewrite ?H1, ?H2, ?H3, ?H4, ?H5.
Qed.

Lemma PcInv_weak s : PcInv s -> PcWeak s.
Proof. unfold PcInv, PcWeak. destruct (pc s); tauto. Qed.

Lemma is_fulfilled_not_pending {A} (p : Promise A) :
  is_fulfilled p = true -> is_pending p = false.
Proof. by destruct p. Qed.

Lemma is_fulfilled_resolve {A} (v : A) p :
  is_fulfilled p = true -> is_fulfilled (resolve v p) = true.
Proof. by destruct p. Qed.

Lemma is_fulfilled_reject {A} e (p : Promise A) :
  is_fulfilled p = true -> is_fulfilled (reject e p) = true.
Proof. by destruct p. Qed.

Lemma is_pending_resolve {A} (v : A) p :
  is_pending p = false -> is_pending (resolve v p) = false.
Proof. by destruct p. Qed.

Lemma is_pending_reject {A} e (p : Promise A) :
  is_pending p = false -> is_pending (reject e p) = false.
Proof. by destruct p. Qed.

(** *** Handlers that leave the module alone *)

Lemma mod_view_cleanupAndExit s : mod_view (cleanupAndExit s) = mod_view s.
Proof. unfold cleanupAndExit. by cases. Qed.

Lemma mod_view_enter_catch e s : mod_view (enter_catch e s) = mod_view s.
Proof. unfold enter_catch, cleanupAndExit. by cases. Qed.

Lemma mod_view_teardown_settled res s :
  mod_view (teardown_settled res s) = mod_view s.
Proof. unfold teardown_settled. by cases. Qed.

Lemma mod_view_browserSync_settled res now s :
  mod_view (browserSync_settled res now s) = mod_view s.
Proof.
  unfold browserSync_settled. cases; try done; apply mod_view_enter_catch.
Qed.

Lemma mod_view_gate_on_compile s : mod_view (gate_on_compile s) = mod_view s.
Proof. unfold gate_on_compile. by cases. Qed.

Lemma mod_view_resolve s s' :
  call_appPromiseResolve s = Some s' -> mod_view s' = mod_view s.
Proof.
  unfold call_appPromiseResolve. intros H. cases; rewrite ?foldl_dispatch; done.
Qed.

Lemma mod_view_release s : mod_view (release s) = mod_view s.
Proof.
  unfold release. destruct (call_appPromiseResolve _) as [s'|] eqn:Hc; [|done].
  by rewrite (mod_view_resolve _ _ Hc).
Qed.

Lemma mod_view_on_request req s : mod_view (on_request req s) = mod_view s.
Proof. unfold on_request, dispatch. by cases. Qed.

(** *** Handlers that leave the executor alone *)

Lemma pc_view_gate_on_compile s : pc_view (gate_on_compile s) = pc_view s.
Proof. unfold gate_on_compile. by cases. Qed.

Lemma pc_view_resolve s s' :
  call_appPromiseResolve s = Some s' -> pc_view s' = pc_view s.
Proof.
  unfold call_appPromiseResolve. intros H. cases; rewrite ?foldl_dispatch; done.
Qed.

Lemma pc_view_release s : pc_view (release s) = pc_view s.
Proof.
  unfold release. destruct (call_appPromiseResolve _) as [s'|] eqn:Hc; [|done].
  by rewrite (pc_view_resolve _ _ Hc).
Qed.

Lemma pc_view_on_request req s : pc_view (on_request req s) = pc_view s.
Proof. unfold on_request, dispatch. by cases. Qed.

Lemma pc_view_checkForUpdate b s : pc_view (checkForUpdate b s).1 = pc_view s.
Proof. unfold checkForUpdate. by cases. Qed.

Lemma pc_view_on_checked b u s : pc_view (on_checked b u s).1 = pc_view s.
Proof.
  unfold on_checked. destruct u as [[|moduleId ids]|]; simpl; [done| |by destruct b].
  match goal with
  | |- context [checkForUpdate true ?s1] =>
      pose proof (pc_view_checkForUpdate true s1) as Hv;
      destruct (checkForUpdate true s1) as [s2 []]
  end; done.
Qed.

Lemma pc_view_on_check_error e s : pc_view (on_check_error e s).1 = pc_view s.
Proof.
  unfold on_check_error, pc_view. destruct (app s) eqn:Ha; simpl; [|by rewrite Ha].
  cases; simpl; by rewrite ?Ha.
Qed.

Lemma pc_view_check_settled res st s :
  pc_view (check_settled res st s) = pc_view s.
Proof.
  unfold check_settled. destruct (checking s) as [c|]; [|done].
  assert (forall p : State * option Err,
            pc_view p.1 = pc_view s ->
            pc_view (match p.2 with
                     | Some e => emit [UnhandledRejection e] p.1
                     | None => if releases c then release p.1 else p.1
                     end) = pc_view s) as Hk.
  { intros [s2 [e|]] Hv; simpl in *; [done|].
    destruct (releases c); rewrite ?pc_view_release; done. }
  destruct res as [u|error].
  - pose proof (pc_view_on_checked (fromUpdate c) u (set_hot st None s)) as Hv.
    destruct (on_checked _ _ _) as [s' [e|]]; simpl in Hv.
    + pose proof (pc_view_on_check_error e s') as Hv'.
      destruct (on_check_error e s') as [s2 o].
      apply (Hk (s2, o)). simpl in *. by rewrite Hv', Hv.
    + apply (Hk (s', None)). done.
  - pose proof (pc_view_on_check_error error (set_hot st None s)) as Hv.
    destruct (on_check_error _ _) as [s2 o].
    apply (Hk (s2, o)). done.
Qed.

Lemma pc_view_watch_callback err st s :
  pc_view (watch_callback err st s) = pc_view s.
Proof.
  unfold watch_callback.
  destruct (app s), err, st; try done.
  destruct (hasErrors _); [done|].
  pose proof (pc_view_checkForUpdate false s) as Hv.
  destruct (checkForUpdate false s) as [s1 [e| |]]; simpl in Hv.
  - by rewrite <- Hv.
  - by rewrite pc_view_release.
  - by destruct (checking s1).
Qed.

Lemma mod_view_report b s : mod_view (report_unobserved b s) = mod_view s.
Proof. by destruct b. Qed.

Lemma pc_view_report b s : pc_view (report_unobserved b s) = pc_view s.
Proof. by destruct b. Qed.

(** *** The cleanup routine and the executor *)

Lemma cleaning_cleanupAndExit s : is_Some_bool (cleaning (cleanupAndExit s)) = true.
Proof. unfold cleanupAndExit. destruct (cleaning s) eqn:H; simpl; by rewrite ?H. Qed.

Lemma PcInv_cleanupAndExit s : PcInv s -> PcInv (cleanupAndExit s).
Proof.
  unfold PcInv, cleanupAndExit.
  destruct (cleaning s) eqn:Hc; simpl; rewrite ?Hc; [done|].
  destruct (pc s); tauto.
Qed.

Lemma PcInv_teardown_settled res s : PcInv s -> PcInv (teardown_settled res s).
Proof.
  intros HP. unfold teardown_settled.
  destruct (cleaning s) eqn:Hc; [|exact HP].
  destruct (is_pending _); [|exact HP].
  unfold PcInv in *.
  destruct res; simpl; destruct (pc s) eqn:Hpc; simpl; rewrite ?Hpc; tauto.
Qed.

Lemma PcInv_enter_catch e s :
  is_pending (Tracker.promise (clientPromise s)) = false -> PcInv (enter_catch e s).
Proof.
  intros Hp. unfold enter_catch.
  match goal with
  | |- context [cleanupAndExit ?s0] =>
      pose proof (cleaning_cleanupAndExit s0) as Hc;
      assert (Tracker.promise (clientPromise (cleanupAndExit s0)) =
              Tracker.promise (clientPromise s)) as Ht
        by (unfold cleanupAndExit; by cases);
      generalize dependent (cleanupAndExit s0); intros s1 Hc Ht
  end.
  unfold PcInv. destruct (cleaning s1) as [f|] eqn:Hcl; [|done].
  destruct (fut_state f); simpl; rewrite Hcl, Ht; done.
Qed.

Lemma PcInv_launch now s :
  is_fulfilled (Tracker.promise (clientPromise s)) = true -> PcInv (launch now s).
Proof.
  intros Hf. unfold launch.
  destruct (call_appPromiseResolve _) as [s3|] eqn:Hc.
  - apply pc_view_resolve in Hc. unfold pc_view in Hc. simpl in Hc.
    injection Hc as H1 H2 H3 H4 H5. unfold PcInv. simpl. done.
  - apply PcInv_enter_catch. simpl. by apply is_fulfilled_not_pending.
Qed.

Lemma PcInv_resume_main now s : PcWeak s -> PcInv (resume_main now s).
Proof.
  unfold resume_main, PcWeak. intros Hw.
  destruct (pc s) eqn:Hpc; try (unfold PcInv; by rewrite Hpc).
  - destruct (Tracker.promise (clientPromise s)) eqn:Hcp.
    + unfold PcInv. by rewrite Hpc, Hcp.
    + destruct (Tracker.promise (serverPromise s)) eqn:Hsp.
      * unfold PcInv. simpl. by rewrite Hcp, Hsp.
      * apply PcInv_launch. by rewrite Hcp.
      * apply PcInv_enter_catch. by rewrite Hcp.
    + apply PcInv_enter_catch. by rewrite Hcp.
  - destruct Hw as [Hcf Ha].
    destruct (Tracker.promise (serverPromise s)) eqn:Hsp.
    + unfold PcInv. by rewrite Hpc, Hsp.
    + by apply PcInv_launch.
    + apply PcInv_enter_catch. by apply is_fulfilled_not_pending.
Qed.

Lemma ModInv_client_fulfilled s :
  ModInv s -> is_Some_bool (app s) = true ->
  is_fulfilled (Tracker.promise (clientPromise s)) = true.
Proof.
  intros (Ha & _) Hs. destruct (app s) as [m|]; [|done].
  by destruct (Ha m) as (_ & _ & _ & ? & _).
Qed.

Lemma PcInv_browserSync_settled res now s :
  ModInv s -> PcInv s -> PcInv (browserSync_settled res now s).
Proof.
  intros HM HP. unfold browserSync_settled.
  destruct (pc s) eqn:Hpc; try done.
  unfold PcInv in HP. rewrite Hpc in HP.
  destruct res as [e|].
  - apply PcInv_enter_catch, is_fulfilled_not_pending.
    by apply ModInv_client_fulfilled.
  - unfold PcInv. simpl. done.
Qed.

(** *** The patch loop and the module *)

Lemma ModInv_checkForUpdate b s : ModInv s -> ModInv (checkForUpdate b s).1.
Proof.
  intros HI. unfold checkForUpdate.
  destruct (app s) as [m|] eqn:Happ; [|exact HI].
  destruct (mod_hot m) eqn:Hh; [|exact HI].
  destruct (is_idle (hotStatus s)); [|exact HI].
  destruct HI as (Ha & Hc & Hl). split; [|split]; simpl; rewrite Happ.
  - intros m' [= <-]. by apply Ha.
  - intros c _. destruct (Ha m) as (Hb & _); [done|]. by rewrite <- Hb.
  - done.
Qed.

Lemma checking_checkForUpdate b s e s' :
  checkForUpdate b s = (s', Threw e) -> s' = s.
Proof. unfold checkForUpdate. intros H. by cases. Qed.

Lemma ModInv_on_checked b u s : ModInv s -> ModInv (on_checked b u s).1.
Proof.
  intros HI. unfold on_checked.
  destruct u as [[|moduleId ids]|]; simpl.
  - by eapply ModInv_view; [|exact HI].
  - match goal with
    | |- context [checkForUpdate true ?s1] =>
        assert (ModInv s1) as H1 by (by eapply ModInv_view; [|exact HI]);
        pose proof (ModInv_checkForUpdate true s1 H1) as H2;
        destruct (checkForUpdate true s1) as [s2 []]
    end; done.
  - destruct b; [|done]. by eapply ModInv_view; [|exact HI].
Qed.

Lemma on_checked_threw b u s s' e :
  on_checked b u s = (s', Some e) -> checking s' = checking s.
Proof.
  unfold on_checked. destruct u as [[|moduleId ids]|]; simpl; try done;
    try (by destruct b).
  destruct (checkForUpdate _ _) as [s2 [e'| |]] eqn:Hc; try done.
    intros [= <- <-]. by rewrite (checking_checkForUpdate _ _ _ _ Hc).
Qed.

Lemma ModInv_on_check_error e s :
  ModInv s -> checking s = None -> ModInv (on_check_error e s).1.
Proof.
  intros HI Hn. unfold on_check_error.
  destruct (app s) as [m|] eqn:Happ; [|exact HI].
  destruct (mod_hot m) eqn:Hh; [|exact HI].
  destruct HI as (Ha & Hc & Hl).
  destruct (abort_or_fail (hotStatus s)); simpl.
  - split; [|split]; simpl.
    + intros m' [= <-]. simpl. destruct (Ha m) as (_ & _ & _ & ? & ?); [done|].
      repeat split; try done; lia.
    + by rewrite Hn.
    + done.
  - by split.
Qed.

Lemma ModInv_set_hot st s : ModInv s -> ModInv (set_hot st None s).
Proof. intros (Ha & Hc & Hl). split; [|split]; simpl; done. Qed.

Lemma ModInv_check_settled res st s :
  ModInv s -> ModInv (check_settled res st s).
Proof.
  intros HI. unfold check_settled.
  destruct (checking s) as [c|]; [|done].
  assert (forall p : State * option Err,
            ModInv p.1 ->
            ModInv (match p.2 with
                    | Some e => emit [UnhandledRejection e] p.1
                    | None => if releases c then release p.1 else p.1
                    end)) as Hk.
  { intros [s2 [e|]] Hv; simpl in *.
    - by eapply ModInv_view; [|exact Hv].
    - destruct (releases c); [|done].
      eapply ModInv_view; [apply mod_view_release|done]. }
  pose proof (ModInv_set_hot st s HI) as H1.
  destruct res as [u|error].
  - pose proof (ModInv_on_checked (fromUpdate c) u _ H1) as H2.
    destruct (on_checked _ _ _) as [s' [e|]] eqn:E; simpl in H2.
    + pose proof (ModInv_on_check_error e s' H2) as H3.
      rewrite (on_checked_threw _ _ _ _ _ E) in H3. specialize (H3 eq_refl).
      destruct (on_check_error e s') as [s2 o]. by apply (Hk (s2, o)).
    + by apply (Hk (s', None)).
  - pose proof (ModInv_on_check_error error _ H1 eq_refl) as H3.
    destruct (on_check_error _ _) as [s2 o]. by apply (Hk (s2, o)).
Qed.

Lemma ModInv_watch_callback err st s :
  ModInv s -> ModInv (watch_callback err st s).
Proof.
  intros HI. unfold watch_callback.
  destruct (app s) eqn:Happ, err, st; try done;
    try (by eapply ModInv_view; [|exact HI]).
  destruct (hasErrors _); [done|].
  pose proof (ModInv_checkForUpdate false s HI) as H1.
  destruct (checkForUpdate false s) as [s1 [e| |]]; simpl in H1.
  - by eapply ModInv_view; [|exact H1].
  - eapply ModInv_view; [apply mod_view_release|done].
  - destruct (checking s1) as [c|] eqn:Hc; [|done].
    destruct H1 as (Ha & Hk & Hl). split; [|split]; simpl; [done| |done].
    intros c' _. by apply (Hk c).
Qed.

Lemma ModInv_launch now s :
  ModInv s -> is_Some_bool (app s) = false ->
  is_fulfilled (Tracker.promise (clientPromise s)) = true ->
  is_fulfilled (Tracker.promise (serverPromise s)) = true ->
  ModInv (launch now s).
Proof.
  intros (Ha & Hk & Hl) Hn Hc Hs. unfold launch.
  match goal with
  | |- context [call_appPromiseResolve ?s0] =>
      assert (ModInv s0) as H0;
      [|destruct (call_appPromiseResolve s0) as [s3|] eqn:Hr]
  end.
  - split; [|split]; simpl.
    + intros m [= <-]. simpl. repeat split; try done; lia.
    + intros c Hc'. destruct (Hk c Hc') as (_ & Hs' & _). congruence.
    + done.
  - eapply ModInv_view; [|exact H0]. by rewrite <- (mod_view_resolve _ _ Hr).
  - eapply ModInv_view; [apply mod_view_enter_catch|done].
Qed.

Lemma ModInv_resume_main now s :
  ModInv s -> PcWeak s -> ModInv (resume_main now s).
Proof.
  intros HI Hw. unfold resume_main, PcWeak in *.
  destruct (pc s) eqn:Hpc; try done.
  - destruct (Tracker.promise (clientPromise s)) eqn:Hcp; [done| |].
    + destruct (Tracker.promise (serverPromise s)) eqn:Hsp.
      * by eapply ModInv_view; [|exact HI].
      * apply ModInv_launch; try done; by rewrite ?Hcp, ?Hsp.
      * eapply ModInv_view; [apply mod_view_enter_catch|done].
    + eapply ModInv_view; [apply mod_view_enter_catch|done].
  - destruct Hw as [Hcf Ha].
    destruct (Tracker.promise (serverPromise s)) eqn:Hsp; [done| |].
    + apply ModInv_launch; try done; by rewrite ?Hsp.
    + eapply ModInv_view; [apply mod_view_enter_catch|done].
Qed.

(** The done hook of a tracker and the build counter only move forward. *)
Lemma ModInv_mono s s' :
  bundle_hot s' = bundle_hot s -> loads s' = loads s -> builds s <= builds s' ->
  app s' = app s -> hotStatus s' = hotStatus s -> checking s' = checking s ->
  (is_fulfilled (Tracker.promise (clientPromise s)) = true ->
   is_fulfilled (Tracker.promise (clientPromise s')) = true) ->
  (is_fulfilled (Tracker.promise (serverPromise s)) = true ->
   is_fulfilled (Tracker.promise (serverPromise s')) = true) ->
  ModInv s -> ModInv s'.
Proof.
  intros Hb Hl Hn Ha Hh Hc Hfc Hfs (H1 & H2 & H3). split; [|split].
  - rewrite Ha, Hb, Hl. intros m Hm.
    destruct (H1 m Hm) as (? & ? & ? & ? & ?). repeat split; auto. lia.
  - by rewrite Hc, Hb, Ha, Hh.
  - by rewrite Ha, Hl.
Qed.

Lemma promise_on_done stats now tr :
  Tracker.promise (Tracker.on_done stats now tr).1 =
  if hasErrors stats then reject CompilationFailed (Tracker.promise tr)
  else resolve stats (Tracker.promise tr).
Proof. unfold Tracker.on_done. by destruct (hasErrors stats). Qed.

Lemma is_fulfilled_on_done stats now tr :
  is_fulfilled (Tracker.promise tr) = true ->
  is_fulfilled (Tracker.promise (Tracker.on_done stats now tr).1) = true.
Proof.
  rewrite promise_on_done.
  destruct (hasErrors stats); auto using is_fulfilled_resolve, is_fulfilled_reject.
Qed.

Lemma is_pending_on_done stats now tr :
  is_pending (Tracker.promise tr) = false ->
  is_pending (Tracker.promise (Tracker.on_done stats now tr).1) = false.
Proof.
  rewrite promise_on_done.
  destruct (hasErrors stats); auto using is_pending_resolve, is_pending_reject.
Qed.

Lemma ModInv_step s e : ModInv s -> PcInv s -> ModInv (step s e).
Proof.
  intros HI HP. destruct e; cbn [step].
  - by eapply ModInv_view; [|exact HI].
  - unfold client_done. apply ModInv_resume_main.
    + eapply ModInv_mono; [..|exact HI]; simpl; try done.
      apply is_fulfilled_on_done.
    + apply PcInv_weak in HP. unfold PcWeak in *. simpl.
      destruct (pc s); try done; destruct HP; split; try done;
        auto using is_fulfilled_on_done, is_pending_on_done.
  - unfold server_compile. eapply ModInv_view; [|exact HI].
    by rewrite mod_view_gate_on_compile.
  - eapply ModInv_view; [apply mod_view_report|].
    unfold server_finished. apply ModInv_resume_main.
    + apply ModInv_watch_callback.
      eapply ModInv_mono; [..|exact HI]; simpl;
        try (by destruct (hasErrors stats)).
      * destruct (hasErrors stats); simpl; lia.
      * destruct (hasErrors stats); simpl; apply is_fulfilled_on_done.
    + eapply PcWeak_view; [apply pc_view_watch_callback|].
      apply PcInv_weak in HP. unfold PcWeak in *. simpl.
      destruct (hasErrors stats); simpl; exact HP.
  - by apply ModInv_watch_callback.
  - by apply ModInv_check_settled.
  - eapply ModInv_view; [apply mod_view_on_request|done].
  - eapply ModInv_view; [apply mod_view_browserSync_settled|done].
  - eapply ModInv_view; [apply mod_view_cleanupAndExit|done].
  - eapply ModInv_view; [apply mod_view_teardown_settled|done].
Qed.

Lemma PcInv_step s e : ModInv s -> PcInv s -> PcInv (step s e).
Proof.
  intros HI HP. destruct e; cbn [step].
  - by eapply PcInv_view; [|exact HP].
  - unfold client_done. apply PcInv_resume_main.
    apply PcInv_weak in HP. unfold PcWeak in *. simpl.
    destruct (pc s); try done; destruct HP; split; try done;
      auto using is_fulfilled_on_done, is_pending_on_done.
  - unfold server_compile. eapply PcInv_view; [|exact HP].
    by rewrite pc_view_gate_on_compile.
  - eapply PcInv_view; [apply pc_view_report|].
    unfold server_finished. apply PcInv_resume_main.
    eapply PcWeak_view; [apply pc_view_watch_callback|].
    apply PcInv_weak in HP. unfold PcWeak in *. simpl.
    destruct (hasErrors stats); simpl; exact HP.
  - eapply PcInv_view; [apply pc_view_watch_callback|done].
  - eapply PcInv_view; [apply pc_view_check_settled|done].
  - eapply PcInv_view; [apply pc_view_on_request|done].
  - by apply PcInv_browserSync_settled.
  - by apply PcInv_cleanupAndExit.
  - by apply PcInv_teardown_settled.
Qed.

(** ** Every reachable state satisfies the invariants *)

Lemma Inv_init hot now : Inv (init hot now).
Proof.
  split.
  - split; simpl; done.
  - split; [|split]; simpl; done.
  - unfold PcInv. simpl. done.
  - unfold CleanInv. simpl. done.
Qed.

Lemma Inv_step s e : Inv s -> Inv (step s e).
Proof.
  intros [HG HM HP HC]. split.
  - by apply GateInv_step.
  - by apply ModInv_step.
  - by apply PcInv_step.
  - by apply CleanInv_step.
Qed.

Lemma Inv_run evs : forall s, Inv s -> Inv (run s evs).
Proof.
  induction evs as [|e evs IH]; intros s HI; simpl; [done|].
  apply IH. by apply Inv_step.
Qed.

Lemma Inv_reachable s : reachable s -> Inv s.
Proof. intros (hot & now & evs & ->). apply Inv_run, Inv_init. Qed.

Lemma reachable_init hot now : reachable (init hot now).
Proof. by exists hot, now, []. Qed.

Lemma reachable_step s e : reachable s -> reachable (step s e).
Proof.
  intros (hot & now & evs & ->). exists hot, now, (evs ++ [e]).
  unfold run. by rewrite foldl_app.
Qed.

Lemma reachable_run evs : forall s, reachable s -> reachable (run s evs).
Proof.
  induction evs as [|e evs IH]; intros s Hr; simpl; [done|].
  apply IH. by apply reachable_step.
Qed.

(** ** createCompilationPromise *)

Lemma tracker_foldl ns : forall tr out,
  foldl Tracker.notify (tr, out) ns =
  ((Tracker.run tr ns).1, out ++ (Tracker.run tr ns).2).
Proof.
  unfold Tracker.run.
  induction ns as [|n ns IH]; intros tr out; simpl.
  - by rewrite app_nil_r.
  - set (r := match n with
              | Tracker.CompileStart now => Tracker.on_compile now tr
              | Tracker.CompileDone stats now => Tracker.on_done stats now tr
              end).
    change (Tracker.notify (tr, out) n) with (r.1, out ++ r.2).
    change (Tracker.notify (tr, []) n) with (r.1, [] ++ r.2).
    rewrite (IH r.1 (out ++ r.2)), (IH r.1 ([] ++ r.2)).
    simpl. by rewrite app_assoc.
Qed.

Lemma tracker_run_app tr ns ms :
  Tracker.run tr (ns ++ ms) =
  ((Tracker.run (Tracker.run tr ns).1 ms).1,
   (Tracker.run tr ns).2 ++ (Tracker.run (Tracker.run tr ns).1 ms).2).
Proof.
  unfold Tracker.run at 1. rewrite foldl_app.
  fold (Tracker.run tr ns).
  destruct (Tracker.run tr ns) as [tr' out] eqn:E. simpl.
  by rewrite tracker_foldl.
Qed.

Lemma tracker_run_cons tr n ns :
  Tracker.run tr (n :: ns) =
  let r := match n with
           | Tracker.CompileStart now => Tracker.on_compile now tr
           | Tracker.CompileDone stats now => Tracker.on_done stats now tr
           end in
  ((Tracker.run r.1 ns).1, r.2 ++ (Tracker.run r.1 ns).2).
Proof.
  cbv zeta.
  set (r := match n with
            | Tracker.CompileStart now => Tracker.on_compile now tr
            | Tracker.CompileDone stats now => Tracker.on_done stats now tr
            end).
  unfold Tracker.run at 1. cbn [foldl].
  change (Tracker.notify (tr, []) n) with (r.1, [] ++ r.2).
  by rewrite tracker_foldl.
Qed.

Lemma tracker_promise ns : forall tr,
  Tracker.promise (Tracker.run tr ns).1 =
  match Tracker.promise tr with
  | Pending =>
      match Tracker.first_done ns with
      | Some stats => Tracker.outcome_of stats
      | None => Pending
      end
  | settled => settled
  end.
Proof.
  induction ns as [|[now|stats now] ns IH]; intros tr.
  - simpl. by destruct (Tracker.promise tr).
  - rewrite tracker_run_cons. simpl. by rewrite IH.
  - rewrite tracker_run_cons. cbn [fst snd Tracker.first_done]. rewrite IH.
    rewrite promise_on_done. unfold Tracker.outcome_of.
    destruct (Tracker.promise tr), (hasErrors stats); done.
Qed.

Lemma tracker_timer ns : forall tr,
  Tracker.name (Tracker.run tr ns).1 = Tracker.name tr /\
  Tracker.timeStart (Tracker.run tr ns).1 =
    default (Tracker.timeStart tr) (Tracker.last_start ns).
Proof.
  induction ns as [|[now|stats now] ns IH]; intros tr.
  - done.
  - rewrite tracker_run_cons. simpl.
    destruct (IH (Tracker.mk (Tracker.name tr) now (Tracker.promise tr))) as [-> ->].
    simpl. by destruct (Tracker.last_start ns).
  - rewrite tracker_run_cons. cbn [fst snd Tracker.last_start].
    destruct (IH (Tracker.on_done stats now tr).1) as [-> ->].
    unfold Tracker.on_done. by destruct (hasErrors stats).
Qed.

(** C3. For every sequence [ns] of compile-start and compile-done
    notifications of one compiler, the promise made by
    [createCompilationPromise] is pending until the first compile-done,
    then fulfilled with its stats when [hasErrors()] is false and rejected
    with the compilation-failed error when it is true; once settled, no
    later notification changes it; and a compile-done logs the time since
    the most recent compile-start (since the creation of the promise when
    there was none). *)
Theorem compilation_promise_first_outcome
    (name : string) (t0 : Z) (ns more : list Tracker.Notification)
    (stats : Stats) (now : Z) :
  let tr := Tracker.createCompilationPromise name t0 in
  Tracker.promise (Tracker.run tr ns).1 =
    match Tracker.first_done ns with
    | Some first => Tracker.outcome_of first
    | None => Pending
    end /\
  (is_pending (Tracker.promise (Tracker.run tr ns).1) = false ->
   Tracker.promise (Tracker.run tr (ns ++ more)).1 =
   Tracker.promise (Tracker.run tr ns).1) /\
  (Tracker.run tr (ns ++ [Tracker.CompileDone stats now])).2 =
    (Tracker.run tr ns).2 ++
    [ConsoleInfo (MStats (toString stats));
     ConsoleInfo
       ((if hasErrors stats then MFailed else MFinished) name now
          (now - default t0 (Tracker.last_start ns))%Z)].
Proof.
  intros tr. split; [|split].
  - by rewrite tracker_promise.
  - intros Hs. rewrite tracker_run_app. cbn [fst]. rewrite (tracker_promise more).
    by destruct (Tracker.promise (Tracker.run tr ns).1).
  - rewrite tracker_run_app. cbn [snd]. f_equal.
    rewrite tracker_run_cons. cbn [fst snd Tracker.run foldl]. rewrite app_nil_r.
    destruct (tracker_timer ns tr) as [Hn Ht].
    unfold Tracker.on_done. rewrite Hn, Ht.
    by destruct (hasErrors stats).
Qed.

(** The first build of "server" succeeds at time 5, four time units after
    its compile-start; a failing rebuild at time 9 leaves the promise
    fulfilled. *)
Lemma compilation_promise_first_outcome_witness :
  Tracker.promise
    (Tracker.run (Tracker.createCompilationPromise "server" 0)
       ([Tracker.CompileStart 1; Tracker.CompileDone (mkStats false "ok") 5] ++
        [Tracker.CompileStart 8; Tracker.CompileDone (mkStats true "bad") 9])).1 =
  Fulfilled (mkStats false "ok").
Proof.
  destruct (compilation_promise_first_outcome "server" 0
              [Tracker.CompileStart 1; Tracker.CompileDone (mkStats false "ok") 5]
              [Tracker.CompileStart 8; Tracker.CompileDone (mkStats true "bad") 9]
              (mkStats false "ok") 0) as (_ & H & _).
  rewrite H; reflexivity.
Defined.

(** ** The gate *)

Lemma gate_armed_flag s : GateInv s -> gate_armed s = negb (appPromiseIsResolved s).
Proof.
  unfold GateInv, gate_armed. intros [_ Hg].
  destruct (appPromise s) as [g|].
  - destruct Hg as (gt & -> & <- & _). by rewrite gate_last.
  - by destruct Hg as [_ ->].
Qed.

Lemma pending_resolved (g : nat) :
  List.filter (fun gt => negb (resolved gt)) (replicate g (mkGate true [])) = [].
Proof. induction g as [|g IH]; simpl; done. Qed.

Lemma pending_gates_flag s :
  GateInv s ->
  length (pending_gates s) = if appPromiseIsResolved s then 0 else 1.
Proof.
  unfold GateInv, pending_gates. intros [_ Hg].
  destruct (appPromise s) as [g|].
  - destruct Hg as (gt & -> & <- & _).
    rewrite List.filter_app, pending_resolved. simpl. by destruct (resolved gt).
  - by destruct Hg as [-> ->].
Qed.

(** C8. In every reachable state at most one gate promise is unresolved;
    a server compile-start that arrives while the gate is armed creates no
    promise and leaves [appPromise] on the armed one, so the gate stays one
    armed period; a compile-start on a resolved gate creates exactly one. *)
Theorem gate_rearm_coalesces (s : State) (now : Z) :
  reachable s ->
  length (pending_gates s) <= 1 /\
  (gate_armed s = true ->
   gates (step s (ServerCompile now)) = gates s /\
   appPromise (step s (ServerCompile now)) = appPromise s /\
   gate_armed (step s (ServerCompile now)) = true) /\
  (gate_armed s = false ->
   length (gates (step s (ServerCompile now))) = S (length (gates s)) /\
   length (pending_gates (step s (ServerCompile now))) = 1).
Proof.
  intros Hr. pose proof (Inv_reachable s Hr) as [HG _ _ _].
  pose proof (gate_armed_flag s HG) as Ha.
  pose proof (pending_gates_flag s HG) as Hp.
  assert (GateInv (step s (ServerCompile now))) as HG' by by apply GateInv_step.
  pose proof (pending_gates_flag _ HG') as Hp'.
  split; [destruct (appPromiseIsResolved s); lia|].
  cbn [step] in *. unfold server_compile, gate_on_compile in *. simpl in *.
  rewrite Ha. destruct (appPromiseIsResolved s) eqn:Hf; simpl in *.
  - split; [done|]. intros _. rewrite length_app. simpl. split; [lia|done].
  - split; [|done]. intros _. rewrite Hf in *. simpl. repeat split.
    unfold gate_armed; simpl. fold (gate_armed s). by rewrite Ha.
Qed.

(** After startup a rebuild starts: the gate is armed, and a second
    compile-start before the rebuild finishes leaves the one gate armed. *)
Lemma gate_rearm_coalesces_witness :
  let s := run (init true 0)
             [ServerCompile 1; ClientCompile 2; ClientDone (mkStats false "ok") 10;
              ServerDone (mkStats false "ok") 12; ServerCompile 20]%Z in
  gates (step s (ServerCompile 21)) = gates s /\
  appPromise (step s (ServerCompile 21)) = appPromise s /\
  gate_armed (step s (ServerCompile 21)) = true.
Proof.
  intros s.
  assert (reachable s) as Hr by (do 3 eexists; reflexivity).
  destruct (gate_rearm_coalesces s 21 Hr) as (_ & H & _).
  apply H. reflexivity.
Defined.

(** ** checkForUpdate while an update is in flight *)

(** C7. When the live module has a hot interface whose status is not
    'idle', [checkForUpdate] changes nothing (no status change, no call of
    [hot.check], nothing logged) and returns an already resolved promise. *)
Theorem check_is_noop_unless_idle (fromUpd : bool) (s : State) (m : ModuleRef) :
  app s = Some m -> mod_hot m = true -> hotStatus s <> StIdle ->
  checkForUpdate fromUpd s = (s, ResolvedNow).
Proof.
  intros Ha Hh Hs. unfold checkForUpdate. rewrite Ha, Hh. simpl.
  by destruct (hotStatus s).
Qed.

(** A second rebuild finishes while the check of the first is in flight
    (status 'check'). *)
Lemma check_is_noop_unless_idle_witness :
  let s := run (init true 0)
             [ServerCompile 1; ClientCompile 2; ClientDone (mkStats false "ok") 10;
              ServerDone (mkStats false "ok") 12; ServerCompile 20;
              ServerDone (mkStats false "ok") 25]%Z in
  hotStatus s = StCheck /\ checkForUpdate false s = (s, ResolvedNow).
Proof.
  intros s. split; [reflexivity|].
  apply (check_is_noop_unless_idle false s (mkModule 0 1 true));
    [reflexivity | reflexivity | discriminate].
Defined.

(** ** The cleanup routine *)

Lemma cleaning_of_view s s' : clean_view s' = clean_view s -> cleaning s' = cleaning s.
Proof. unfold clean_view. by intros [= _ -> _]. Qed.

Lemma cleaning_kept_cleanupAndExit s f :
  cleaning s = Some f -> cleaning (cleanupAndExit s) = Some f.
Proof. intros H. unfold cleanupAndExit. rewrite H. simpl. done. Qed.

Lemma cleaning_kept_enter_catch e s f :
  cleaning s = Some f -> cleaning (enter_catch e s) = Some f.
Proof.
  intros H. unfold enter_catch.
  match goal with
  | |- context [cleanupAndExit ?s0] =>
      pose proof (cleaning_kept_cleanupAndExit s0 f H) as H1;
      generalize dependent (cleanupAndExit s0); intros s1 H1
  end.
  rewrite H1. by destruct (fut_state f).
Qed.

Lemma cleaning_kept_launch now s f :
  cleaning s = Some f -> cleaning (launch now s) = Some f.
Proof.
  intros H. unfold launch.
  destruct (call_appPromiseResolve _) as [s3|] eqn:Hc.
  - simpl. by rewrite (cleaning_of_view _ _ (clean_view_resolve _ _ Hc)).
  - by apply cleaning_kept_enter_catch.
Qed.

Lemma cleaning_kept_resume_main now s f :
  cleaning s = Some f -> cleaning (resume_main now s) = Some f.
Proof.
  intros H. unfold resume_main.
  cases; auto using cleaning_kept_launch, cleaning_kept_enter_catch.
Qed.

Lemma cleaning_settled_step s e f :
  cleaning s = Some f -> is_pending (fut_state f) = false ->
  cleaning (step s e) = Some f.
Proof.
  intros H Hp. destruct e; cbn [step].
  - done.
  - by apply cleaning_kept_resume_main.
  - unfold server_compile.
    by rewrite (cleaning_of_view _ _ (clean_view_gate_on_compile _)).
  - unfold server_done. rewrite (cleaning_of_view _ _ (clean_view_report _ _)).
    apply cleaning_kept_resume_main.
    rewrite (cleaning_of_view _ _ (clean_view_watch_callback _ _ _)).
    by destruct (hasErrors stats).
  - by rewrite (cleaning_of_view _ _ (clean_view_watch_callback _ _ _)).
  - by rewrite (cleaning_of_view _ _ (clean_view_check_settled _ _ _)).
  - by rewrite (cleaning_of_view _ _ (clean_view_on_request _ _)).
  - unfold browserSync_settled. cases; auto using cleaning_kept_enter_catch.
  - by apply cleaning_kept_cleanupAndExit.
  - unfold teardown_settled. by rewrite H, Hp.
Qed.

Lemma cleaning_settled_run evs : forall s f,
  cleaning s = Some f -> is_pending (fut_state f) = false ->
  cleaning (run s evs) = Some f.
Proof.
  induction evs as [|e evs IH]; intros s f H Hp; simpl; [done|].
  apply IH; [|done]. by apply cleaning_settled_step.
Qed.

(** C2, as stated, fails: [outerResolve] follows [await dockerTeardown()]
    inside the cleanup future (lines 79-81), so it is skipped when the
    teardown rejects.  Three kill signals around a teardown that fails:
    three calls, one teardown, and [outerResolve] is not called, then or
    under any later notification. *)
Lemma outer_resolve_skipped_when_teardown_rejects :
  let s := run (init true 0)
             [KillSignal; KillSignal; TeardownSettled (Some (External "docker"));
              KillSignal] in
  count is_cleanup_call (effects s) = 3 /\
  count is_teardown (effects s) = 1 /\
  returned_futures (effects s) = [0; 0; 0] /\
  cleaning s = Some (mkFuture 0 (Rejected (External "docker"))) /\
  forall evs, count is_outer_resolve (effects (run s evs)) = 0.
Proof.
  intros s. repeat split; try reflexivity. intros evs.
  assert (cleaning s = Some (mkFuture 0 (Rejected (External "docker")))) as Hcl
    by reflexivity.
  pose proof (cleaning_settled_run evs s _ Hcl eq_refl) as H2.
  assert (reachable (run s evs)) as Hr
    by (apply reachable_run; do 3 eexists; reflexivity).
  pose proof (Inv_reachable _ Hr) as [_ _ _ HC].
  unfold CleanInv in HC. cbv zeta in HC.
  rewrite !count_clean_trace in HC by (by intros []).
  rewrite H2 in HC. by destruct HC as (_ & _ & _ & _ & _ & ->).
Qed.

(** C2, amended. Once [cleanupAndExit] has been called, however many times
    (kill signals, the catch block) and whatever else happened in between:
    [dockerTeardown] has been called exactly once; every call returned the
    one future stored in [cleaning]; [outerResolve] has been called at most
    once: exactly once from the moment the teardown has completed, and
    never when the teardown has failed, which stays so under every later
    notification [evs]. *)
Theorem cleanup_runs_once (s : State) (evs : list Event) :
  reachable s ->
  1 <= count is_cleanup_call (effects s) ->
  count is_teardown (effects s) = 1 /\
  (exists f,
     cleaning s = Some f /\
     returned_futures (effects s) =
       replicate (count is_cleanup_call (effects s)) (fut_id f) /\
     count is_outer_resolve (effects s) =
       (if is_fulfilled (fut_state f) then 1 else 0) /\
     (is_pending (fut_state f) = true ->
      (count is_outer_resolve
         (effects (run (step s (TeardownSettled None)) evs)) = 1 /\
       count is_teardown
         (effects (run (step s (TeardownSettled None)) evs)) = 1) /\
      forall e,
        count is_outer_resolve
          (effects (run (step s (TeardownSettled (Some e))) evs)) = 0 /\
        count is_teardown
          (effects (run (step s (TeardownSettled (Some e))) evs)) = 1)) /\
  count is_outer_resolve (effects s) <= 1.
Proof.
  intros Hr Hn. pose proof (Inv_reachable s Hr) as [_ _ _ HC].
  unfold CleanInv in HC. cbv zeta in HC.
  rewrite !count_clean_trace, returned_futures_clean_trace in HC
    by (by intros []).
  destruct HC as [_ HC].
  destruct (cleaning s) as [f|] eqn:Hcl.
  - destruct HC as (Hid & Ht & Hret & _ & Ho).
    split; [done|]. split; [|rewrite Ho; destruct (is_fulfilled _); lia].
    exists f. split; [done|]. split; [done|]. split; [done|]. intros Hp.
    assert (forall res st,
              cleaning (step s (TeardownSettled res)) = Some (mkFuture (fut_id f) st) ->
              is_pending st = false ->
              count is_outer_resolve
                (effects (run (step s (TeardownSettled res)) evs)) =
                (if is_fulfilled st then 1 else 0) /\
              count is_teardown
                (effects (run (step s (TeardownSettled res)) evs)) = 1) as Hlater.
    { intros res st H1 Hst.
      pose proof (cleaning_settled_run evs _ _ H1 Hst) as H2.
      assert (reachable (run (step s (TeardownSettled res)) evs)) as Hr2
        by (by apply reachable_run, reachable_step).
      pose proof (Inv_reachable _ Hr2) as [_ _ _ HC2].
      unfold CleanInv in HC2. cbv zeta in HC2.
      rewrite !count_clean_trace in HC2 by (by intros []).
      rewrite H2 in HC2. by destruct HC2 as (_ & _ & -> & _ & _ & ->). }
    split.
    + apply (Hlater None (Fulfilled tt)); [|done].
      cbn [step]. unfold teardown_settled. rewrite Hcl, Hp.
      simpl. by destruct (pc s).
    + intros e. apply (Hlater (Some e) (Rejected e)); [|done].
      cbn [step]. unfold teardown_settled. rewrite Hcl, Hp.
      simpl. by destruct (pc s).
  - rewrite <- (count_clean_trace is_cleanup_call) in Hn by (by intros []).
    rewrite HC in Hn. simpl in Hn. unfold count in Hn. simpl in Hn. lia.
Qed.

(** Two kill signals in the same instant after a failed server build, then
    the catch block once the client build is done: three calls, one
    teardown; the teardown completes, one more signal arrives. *)
Lemma cleanup_runs_once_witness :
  let s := run (init true 0)
             [ServerCompile 1; ClientCompile 2; ServerDone (mkStats true "bad") 5;
              KillSignal; KillSignal; ClientDone (mkStats false "ok") 10]%Z in
  count is_cleanup_call (effects s) = 3 /\
  count is_teardown (effects s) = 1 /\
  returned_futures (effects s) = [0; 0; 0] /\
  count is_outer_resolve
    (effects (run (step s (TeardownSettled None)) [KillSignal])) = 1 /\
  count is_outer_resolve
    (effects (run (step s (TeardownSettled (Some (External "docker")))) [KillSignal])) = 0.
Proof.
  intros s.
  assert (reachable s) as Hr by (do 3 eexists; reflexivity).
  assert (1 <= count is_cleanup_call (effects s)) as Hn by (vm_compute; lia).
  destruct (cleanup_runs_once s [KillSignal] Hr Hn) as (Ht & (f & Hf & Hret & _ & Hlate) & _).
  assert (is_pending (fut_state f) = true) as Hp by (injection Hf as <-; reflexivity).
  destruct (Hlate Hp) as ((Hok & _) & Hfail).
  split; [reflexivity|]. split; [exact Ht|]. split; [|split].
  - rewrite Hret. injection Hf as <-. reflexivity.
  - exact Hok.
  - exact (proj1 (Hfail (External "docker"))).
Defined.

(** ** The patch loop *)

Lemma mod_view_fields s s' :
  mod_view s' = mod_view s ->
  app s' = app s /\ hotStatus s' = hotStatus s /\ checking s' = checking s /\
  loads s' = loads s /\ builds s' = builds s.
Proof. unfold mod_view. by intros [= _ -> -> _ _ -> -> ->]. Qed.

Lemma checking_has_hot s c :
  reachable s -> checking s = Some c ->
  exists m, app s = Some m /\ mod_hot m = true /\ mod_gen m < loads s /\
            bundle_hot s = true.
Proof.
  intros Hr Hc. pose proof (Inv_reachable s Hr) as [_ (Ha & Hk & _) _ _].
  destruct (Hk c Hc) as (Hb & Hs & _).
  destruct (app s) as [m|] eqn:Hm; [|done].
  destruct (Ha m eq_refl) as (Hh & Hg & _).
  exists m. rewrite Hh. done.
Qed.




(** C9. A patch check that yields a non-empty list of module ids logs the
    "Updated modules" header and one line per id, and calls
    [checkForUpdate(true)] again, which starts a new check when the hot
    runtime is back to 'idle'; when that nested check yields an empty list,
    "Nothing hot updated" is logged and no check is left in flight.  On the
    run where a rebuild yields ['moduleA'] and the nested check yields [],
    the trace holds one "Updated modules" entry listing moduleA and one
    "Nothing hot updated" entry, and the loop ends idle. *)
Theorem updated_modules_drain (s : State) (c : PendingCheck) (ids : list string) :
  reachable s -> checking s = Some c -> ids <> [] ->
  let sA := (on_checked (fromUpdate c) (Some ids) (set_hot StIdle None s)).1 in
  let s1 := step s (CheckSettled (Updated (Some ids)) StIdle) in
  let s2 := step s1 (CheckSettled (Updated (Some [])) StIdle) in
  (effects sA = effects s ++
     ConsoleInfo MHmrUpdated ::
     map (fun moduleId => ConsoleInfo (MHmrModule moduleId)) ids ++ [HotCheck] /\
   s1 = (if releases c then release sA else sA) /\
   checking s1 = Some (mkCheck true false) /\ hotStatus s1 = StCheck) /\
  (effects s2 = effects s1 ++ [ConsoleInfo MHmrNothing] /\
   checking s2 = None /\ hotStatus s2 = StIdle) /\
  let final :=
    run (init true 0)
      [ServerCompile 1; ClientCompile 2; ClientDone (mkStats false "ok") 10;
       ServerDone (mkStats false "ok") 12; ServerCompile 20;
       ServerDone (mkStats false "ok") 25;
       CheckSettled (Updated (Some ["moduleA"])) StIdle;
       CheckSettled (Updated (Some [])) StIdle]%Z in
  count is_updated_entry (effects final) = 1 /\
  updated_modules (effects final) = ["moduleA"] /\
  count is_nothing_entry (effects final) = 1 /\
  checking final = None /\ hotStatus final = StIdle.
Proof.
  intros Hr Hc Hids sA s1 s2.
  destruct (checking_has_hot s c Hr Hc) as (m & Hm & Hh & Hg & Hb).
  destruct ids as [|moduleId ids]; [done|].
  assert (on_checked (fromUpdate c) (Some (moduleId :: ids)) (set_hot StIdle None s) =
          (set_hot StCheck (Some (mkCheck true false))
             (emit [HotCheck]
                (emit (ConsoleInfo MHmrUpdated ::
                       map (fun moduleId => ConsoleInfo (MHmrModule moduleId))
                         (moduleId :: ids))
                   (set_hot StIdle None s))), None)) as He.
  { unfold on_checked, checkForUpdate. simpl. by rewrite Hm, Hh. }
  assert (s1 = if releases c then release sA else sA) as Hs1.
  { unfold s1, sA. cbn [step]. unfold check_settled. rewrite Hc, He. done. }
  assert (mod_view s1 = mod_view sA) as Hv.
  { rewrite Hs1. destruct (releases c); [apply mod_view_release|done]. }
  destruct (mod_view_fields _ _ Hv) as (Ha1 & Hh1 & Hc1 & _).
  assert (checking s1 = Some (mkCheck true false) /\ hotStatus s1 = StCheck) as [Hk1 Hst1].
  { rewrite Hc1, Hh1. unfold sA. by rewrite He. }
  split; [|split].
  - split; [|done]. unfold sA. rewrite He. simpl.
    by rewrite <- app_assoc.
  - unfold s2. cbn [step]. unfold check_settled. rewrite Hk1. done.
  - by vm_compute.
Qed.

(** The scenario itself: the first check of the rebuild yields moduleA. *)
Lemma updated_modules_drain_witness :
  let s := run (init true 0)
             [ServerCompile 1; ClientCompile 2; ClientDone (mkStats false "ok") 10;
              ServerDone (mkStats false "ok") 12; ServerCompile 20;
              ServerDone (mkStats false "ok") 25]%Z in
  let s1 := step s (CheckSettled (Updated (Some ["moduleA"])) StIdle) in
  let s2 := step s1 (CheckSettled (Updated (Some [])) StIdle) in
  checking s1 = Some (mkCheck true false) /\
  effects s2 = effects s1 ++ [ConsoleInfo MHmrNothing] /\
  checking s2 = None /\ hotStatus s2 = StIdle.
Proof.
  intros s s1 s2.
  assert (reachable s) as Hr by (do 3 eexists; reflexivity).
  assert (["moduleA"] <> @nil string) as Hne by discriminate.
  destruct (updated_modules_drain s (mkCheck false true) ["moduleA"] Hr eq_refl Hne)
    as ((_ & _ & Hk & _) & Hnested & _).
  split; [exact Hk | exact Hnested].
Defined.

(** ** A module without the hot interface *)

Lemma resume_main_loaded now s :
  PcWeak s -> is_Some_bool (app s) = true -> resume_main now s = s.
Proof.
  unfold PcWeak, resume_main. intros HP Ha.
  destruct (pc s); try done; rewrite Ha in HP; [done|by destruct HP].
Qed.

(** C6, as stated, fails: the server bundle has no hot interface, startup
    reaches the browserSync launch, and a rebuild finishes.  The error of
    line 163 leaves the watch callback, the cleanup routine is not called
    and nothing is torn down; startup then completes. *)
Lemma missing_hot_not_routed_to_cleanup :
  let s := run (init false 0)
             [ServerCompile 1; ClientCompile 2; ClientDone (mkStats false "ok") 10;
              ServerDone (mkStats false "ok") 12; ServerCompile 20;
              ServerDone (mkStats false "ok") 25]%Z in
  In (Uncaught HmrDisabled) (effects s) /\
  cleaning s = None /\
  count is_cleanup_call (effects s) = 0 /\
  count is_teardown (effects s) = 0 /\
  pc s = AwaitBrowserSync /\
  pc (step s (BrowserSyncSettled None 30)) = Launched /\
  gate_armed (step s (BrowserSyncSettled None 30)) = true.
Proof. vm_compute. repeat split; try reflexivity. tauto. Qed.

(** C6, amended. When the loaded module has no hot interface, a server
    rebuild that finishes without errors makes [checkForUpdate] throw
    'Hot Module Replacement is disabled' synchronously; the error leaves
    the watch callback uncaught.  It is not a failed patch attempt (no
    check was started, the catch handler of the check never sees it), the
    cleanup routine is not called, the executor stays where it is, and the
    module and the gate are left as they were. *)
Theorem missing_hot_throws_uncaught
    (s : State) (m : ModuleRef) (stats : Stats) (now : Z) (fromUpd : bool) :
  reachable s -> app s = Some m -> mod_hot m = false -> hasErrors stats = false ->
  let s' := step s (ServerDone stats now) in
  checkForUpdate fromUpd s = (s, Threw HmrDisabled) /\
  checking s = None /\
  effects s' = effects s ++
    [ConsoleInfo (MStats (toString stats));
     ConsoleInfo (MFinished (Tracker.name (serverPromise s)) now
                    (now - Tracker.timeStart (serverPromise s))%Z);
     Uncaught HmrDisabled] /\
  cleaning s' = cleaning s /\ pc s' = pc s /\ app s' = app s /\
  checking s' = None /\ hotStatus s' = hotStatus s /\
  gate_view s' = gate_view s.
Proof.
  intros Hr Hm Hh He s'.
  pose proof (Inv_reachable s Hr) as [_ (Ha & Hk & _) HP _].
  assert (checking s = None) as Hc.
  { destruct (checking s) as [c|] eqn:Hc; [|done].
    destruct (Hk c eq_refl) as (Hb & _). destruct (Ha m Hm) as (Hb' & _).
    congruence. }
  split; [unfold checkForUpdate; by rewrite Hm, Hh|]. split; [done|].
  unfold s'. cbn [step]. unfold server_done, server_unobserved. rewrite He.
  cbn [andb report_unobserved]. unfold server_finished, Tracker.on_done. rewrite He. simpl.
  unfold watch_callback, checkForUpdate. simpl. rewrite Hm, He, Hh. simpl.
  rewrite resume_main_loaded.
  - simpl. by rewrite <- app_assoc.
  - apply PcInv_weak in HP. unfold PcWeak in *. simpl. exact HP.
  - simpl. by rewrite Hm.
Qed.

(** The rebuild of the counterexample, seen through the theorem. *)
Lemma missing_hot_throws_uncaught_witness :
  let s := run (init false 0)
             [ServerCompile 1; ClientCompile 2; ClientDone (mkStats false "ok") 10;
              ServerDone (mkStats false "ok") 12; ServerCompile 20]%Z in
  let s' := step s (ServerDone (mkStats false "ok") 25) in
  cleaning s' = None /\ pc s' = AwaitBrowserSync /\
  app s' = Some (mkModule 0 1 false) /\ gate_armed s' = true.
Proof.
  intros s s'.
  assert (reachable s) as Hr by (do 3 eexists; reflexivity).
  destruct (missing_hot_throws_uncaught s (mkModule 0 1 false)
              (mkStats false "ok") 25 false Hr eq_refl eq_refl eq_refl)
    as (_ & _ & _ & Hcl & Hpc & Happ & _).
  split; [exact Hcl|]. split; [exact Hpc|]. split; [exact Happ|reflexivity].
Defined.

(** ** What a step adds to the trace *)

Lemma handled_app a b : handled (a ++ b) = handled a ++ handled b.
Proof. unfold handled. apply omap_app. Qed.

Lemma handled_modules ids :
  handled (map (fun moduleId => ConsoleInfo (MHmrModule moduleId)) ids) = [].
Proof. induction ids; simpl in *; auto. Qed.

Lemma handled_dispatch a ws :
  handled (map (dispatch_effect a) ws) =
  match a with Some m => map (fun r => (r, m)) ws | None => [] end.
Proof.
  unfold handled.
  destruct a as [m|]; induction ws as [|w ws IH]; simpl;
    [done | f_equal; exact IH | done | exact IH].
Qed.

Lemma quiet_refl s : quiet_step s s.
Proof. exists []. by rewrite app_nil_r. Qed.

Lemma quiet_trans s1 s2 s3 : quiet_step s1 s2 -> quiet_step s2 s3 -> quiet_step s1 s3.
Proof.
  intros (o1 & H1 & Q1) (o2 & H2 & Q2). exists (o1 ++ o2).
  rewrite H2, H1, <- app_assoc, handled_app, Q1, Q2. done.
Qed.

Lemma quiet_served s s' : quiet_step s s' -> served_step s s'.
Proof. intros (o & H & Q). exists o. rewrite Q. split; [done|]. by intros r m []. Qed.

Lemma quiet_then_served s1 s2 s3 :
  quiet_step s1 s2 -> served_step s2 s3 -> served_step s1 s3.
Proof.
  intros (o1 & H1 & Q1) (o2 & H2 & Q2). exists (o1 ++ o2).
  rewrite H2, H1, <- app_assoc, handled_app, Q1. done.
Qed.

Lemma served_then_quiet s1 s2 s3 :
  served_step s1 s2 -> quiet_step s2 s3 ->
  app s3 = app s2 -> appPromiseIsResolved s3 = appPromiseIsResolved s2 ->
  served_step s1 s3.
Proof.
  intros (o1 & H1 & Q1) (o2 & H2 & Q2) Ha Hf. exists (o1 ++ o2).
  rewrite H2, H1, <- app_assoc, handled_app, Q2, app_nil_r, Ha, Hf. done.
Qed.

(** Closes [quiet_step] goals on states built by the setters. *)
Ltac quiet_tac :=
  first
    [ apply quiet_refl
    | exists []; split; [simpl; by rewrite app_nil_r | done]
    | eexists; split;
      [simpl; rewrite <- ?app_assoc; reflexivity
      | unfold handled; simpl; rewrite ?omap_app; simpl;
        fold handled; rewrite ?handled_modules; reflexivity] ].

Lemma quiet_cleanupAndExit s : quiet_step s (cleanupAndExit s).
Proof. unfold cleanupAndExit. cases; quiet_tac. Qed.

Lemma quiet_enter_catch e s : quiet_step s (enter_catch e s).
Proof. unfold enter_catch, cleanupAndExit. cases; quiet_tac. Qed.

Lemma quiet_teardown_settled res s : quiet_step s (teardown_settled res s).
Proof. unfold teardown_settled. cases; quiet_tac. Qed.

Lemma quiet_browserSync_settled res now s :
  quiet_step s (browserSync_settled res now s).
Proof.
  unfold browserSync_settled. cases; try quiet_tac; apply quiet_enter_catch.
Qed.

Lemma quiet_gate_on_compile s : quiet_step s (gate_on_compile s).
Proof. unfold gate_on_compile. cases; quiet_tac. Qed.

Lemma quiet_checkForUpdate b s : quiet_step s (checkForUpdate b s).1.
Proof. unfold checkForUpdate. cases; quiet_tac. Qed.

Lemma quiet_on_checked b u s : quiet_step s (on_checked b u s).1.
Proof.
  unfold on_checked. destruct u as [[|moduleId ids]|]; simpl;
    [quiet_tac| |destruct b; quiet_tac].
  match goal with
  | |- context [checkForUpdate true ?s1] =>
      pose proof (quiet_checkForUpdate true s1) as Hq;
      assert (quiet_step s s1) as H1;
      [|destruct (checkForUpdate true s1) as [s2 []]; simpl in *;
        by eapply quiet_trans]
  end.
  eexists; split; [simpl; reflexivity|].
  unfold handled. simpl. fold handled. apply handled_modules.
Qed.

Lemma quiet_on_check_error e s : quiet_step s (on_check_error e s).1.
Proof. unfold on_check_error. cases; quiet_tac. Qed.

(** *** Releasing the gate *)

Lemma flag_resolve s s' :
  call_appPromiseResolve s = Some s' ->
  appPromiseIsResolved s' = appPromiseIsResolved s.
Proof.
  unfold call_appPromiseResolve. intros H. cases; rewrite ?foldl_dispatch; done.
Qed.

Lemma app_resolve s s' : call_appPromiseResolve s = Some s' -> app s' = app s.
Proof.
  unfold call_appPromiseResolve. intros H. cases; rewrite ?foldl_dispatch; done.
Qed.


Lemma served_resolve s s' :
  appPromiseIsResolved s = true ->
  call_appPromiseResolve s = Some s' -> served_step s s'.
Proof.
  intros Hf H.
  pose proof (flag_resolve _ _ H) as Hf'. pose proof (app_resolve _ _ H) as Ha'.
  unfold call_appPromiseResolve in H.
  destruct (appPromiseResolve s) as [g|]; [|done]. simpl in H.
  destruct (gates s !! g) as [gt|];
    [destruct (resolved gt)|]; injection H as <-;
    try (apply quiet_served; quiet_tac).
  rewrite foldl_dispatch in *. simpl in *.
  exists (GateResolve g :: map (dispatch_effect (app s)) (waiters gt)).
  split; [simpl; by rewrite <- app_assoc|].
  intros r m. unfold handled. simpl. fold handled. rewrite handled_dispatch.
  destruct (app s) as [m0|]; [|done].
  rewrite in_map_iff. intros (r0 & [= <- <-] & _). done.
Qed.

Lemma served_release s : served_step s (release s).
Proof.
  unfold release. destruct (call_appPromiseResolve _) as [s'|] eqn:Hc.
  - apply (quiet_then_served s (set_appPromiseIsResolved true s)); [quiet_tac|].
    by apply served_resolve.
  - apply quiet_served. quiet_tac.
Qed.

Lemma served_launch now s : served_step s (launch now s).
Proof.
  unfold launch.
  match goal with
  | |- context [call_appPromiseResolve ?s2] =>
      assert (quiet_step s s2) as Hq by quiet_tac;
      destruct (call_appPromiseResolve s2) as [s3|] eqn:Hc
  end.
  - apply (served_then_quiet s s3 (set_pc AwaitBrowserSync s3));
      [|quiet_tac|done|done].
    eapply quiet_then_served; [exact Hq|]. by apply served_resolve.
  - apply quiet_served. eapply quiet_trans; [exact Hq|apply quiet_enter_catch].
Qed.

Lemma served_resume_main now s : served_step s (resume_main now s).
Proof.
  unfold resume_main.
  cases; auto using served_launch, quiet_served, quiet_enter_catch, quiet_refl.
  apply quiet_served. quiet_tac.
Qed.

Lemma served_on_request req s : GateInv s -> served_step s (on_request req s).
Proof.
  intros [Hr Hg]. unfold on_request.
  destruct (appPromise s) as [g|]; [|apply quiet_served; quiet_tac].
  destruct Hg as (gt & Hgs & Hf & _). rewrite Hgs, gate_last.
  destruct (resolved gt); [|apply quiet_served; quiet_tac].
  unfold dispatch. exists [dispatch_effect (app s) req]. split; [done|].
  intros r m. unfold dispatch_effect. simpl.
  destruct (app s) eqn:Ha; simpl; [|done].
  intros [[= <- <-]|[]]. done.
Qed.

Lemma served_watch_callback err st s : served_step s (watch_callback err st s).
Proof.
  unfold watch_callback.
  destruct (app s), err, st; try (apply quiet_served; quiet_tac).
  destruct (hasErrors _); [apply quiet_served; quiet_tac|].
  pose proof (quiet_checkForUpdate false s) as Hq.
  destruct (checkForUpdate false s) as [s1 [e| |]]; simpl in Hq.
  - apply quiet_served. eapply quiet_trans; [exact Hq|quiet_tac].
  - eapply quiet_then_served; [exact Hq|apply served_release].
  - apply quiet_served. eapply quiet_trans; [exact Hq|].
    destruct (checking s1); quiet_tac.
Qed.

Lemma served_check_settled res st s : served_step s (check_settled res st s).
Proof.
  unfold check_settled. destruct (checking s) as [c|]; [|apply quiet_served, quiet_refl].
  assert (forall p : State * option Err,
            quiet_step s p.1 ->
            served_step s (match p.2 with
                           | Some e => emit [UnhandledRejection e] p.1
                           | None => if releases c then release p.1 else p.1
                           end)) as Hk.
  { intros [s2 [e|]] Hq; simpl in *.
    - apply quiet_served. eapply quiet_trans; [exact Hq|quiet_tac].
    - destruct (releases c); [|by apply quiet_served].
      eapply quiet_then_served; [exact Hq|apply served_release]. }
  assert (quiet_step s (set_hot st None s)) as H0 by quiet_tac.
  destruct res as [u|error].
  - pose proof (quiet_on_checked (fromUpdate c) u (set_hot st None s)) as H1.
    destruct (on_checked _ _ _) as [s' [e|]]; simpl in H1.
    + pose proof (quiet_on_check_error e s') as H2.
      destruct (on_check_error e s') as [s2 o].
      apply (Hk (s2, o)). simpl in *. eauto using quiet_trans.
    + apply (Hk (s', None)). simpl. eauto using quiet_trans.
  - pose proof (quiet_on_check_error error (set_hot st None s)) as H2.
    destruct (on_check_error _ _) as [s2 o].
    apply (Hk (s2, o)). simpl in *. eauto using quiet_trans.
Qed.

Lemma served_report b s1 s2 :
  served_step s1 s2 -> served_step s1 (report_unobserved b s2).
Proof.
  intros H. destruct b; [|done].
  eapply served_then_quiet; [exact H| |done|done].
  unfold report_unobserved. quiet_tac.
Qed.

Lemma served_step_inv s e : Inv s -> served_step s (step s e).
Proof.
  intros [HG HM HP HC]. destruct e; cbn [step].
  - apply quiet_served. quiet_tac.
  - unfold client_done. eapply quiet_then_served; [|apply served_resume_main].
    unfold Tracker.on_done. destruct (hasErrors stats); quiet_tac.
  - unfold server_compile. apply quiet_served.
    eapply quiet_trans; [|apply quiet_gate_on_compile].
    quiet_tac.
  - apply served_report. unfold server_finished.
    match goal with
    | |- context [watch_callback None (Some stats) ?s0] =>
        assert (quiet_step s s0) as Hq
          by (unfold Tracker.on_done; destruct (hasErrors stats); quiet_tac);
        assert (PcWeak s0 /\ app s0 = app s) as [Hv Ha]
          by (split; [|by destruct (hasErrors stats)];
              apply PcInv_weak in HP; unfold PcWeak in *; simpl;
              destruct (hasErrors stats); simpl; exact HP);
        generalize dependent s0
    end.
    intros s0 Hq Hv Ha.
    destruct (app s) as [m|] eqn:Hm.
    + rewrite resume_main_loaded.
      * eapply quiet_then_served; [exact Hq|apply served_watch_callback].
      * eapply PcWeak_view; [|exact Hv].
        by rewrite pc_view_watch_callback.
      * pose proof (pc_view_watch_callback None (Some stats) s0) as Hw.
        unfold pc_view in Hw. injection Hw as _ _ _ -> _. by rewrite Ha.
    + assert (watch_callback None (Some stats) s0 = s0) as ->
        by (unfold watch_callback; by rewrite Ha).
      eapply quiet_then_served; [exact Hq|apply served_resume_main].
  - apply served_watch_callback.
  - apply served_check_settled.
  - by apply served_on_request.
  - apply quiet_served, quiet_browserSync_settled.
  - apply quiet_served, quiet_cleanupAndExit.
  - apply quiet_served, quiet_teardown_settled.
Qed.

(** ** Arming and releasing the gate *)

Lemma new_effects_app s s' out :
  effects s' = effects s ++ out -> new_effects s s' = out.
Proof. unfold new_effects. intros ->. by rewrite drop_app_length. Qed.


Lemma gate_view_fields s s' :
  gate_view s' = gate_view s ->
  gates s' = gates s /\ appPromise s' = appPromise s /\
  appPromiseResolve s' = appPromiseResolve s /\
  appPromiseIsResolved s' = appPromiseIsResolved s.
Proof. unfold gate_view. by intros [= -> -> -> ->]. Qed.





Lemma PcWeak_done_hook s stats now :
  PcInv s ->
  PcWeak (emit (Tracker.on_done stats now (serverPromise s)).2
            (set_serverPromise (Tracker.on_done stats now (serverPromise s)).1 s)).
Proof. intros HP. apply PcInv_weak in HP. unfold PcWeak in *. exact HP. Qed.

Lemma loaded_watch_callback err st s :
  is_Some_bool (app (watch_callback err st s)) = is_Some_bool (app s).
Proof.
  pose proof (pc_view_watch_callback err st s) as Hp.
  unfold pc_view in Hp. by injection Hp as _ _ _ -> _.
Qed.






(** *** Which notifications can release the gate *)

Lemma watch_callback_gate err st s :
  gate_view (watch_callback err st s) = gate_view s \/
  exists stats, err = None /\ st = Some stats /\ hasErrors stats = false /\
                is_Some_bool (app s) = true /\ is_idle (hotStatus s) = false.
Proof.
  unfold watch_callback.
  destruct (app s) as [m|] eqn:Hm, err, st as [stats|]; auto.
  destruct (hasErrors stats) eqn:He; [auto|].
  unfold checkForUpdate. rewrite Hm.
  destruct (mod_hot m); simpl; [|auto].
  destruct (is_idle (hotStatus s)) eqn:Hidle; simpl; [auto|].
  right. by exists stats.
Qed.

Lemma check_settled_gate res st s :
  gate_view (check_settled res st s) = gate_view s \/
  exists c, checking s = Some c /\ releases c = true.
Proof.
  unfold check_settled. destruct (checking s) as [c|]; [|auto].
  destruct (releases c) eqn:Hrel; [right; by exists c|]. left.
  assert (forall p : State * option Err,
            gate_view p.1 = gate_view s ->
            gate_view (match p.2 with
                       | Some e => emit [UnhandledRejection e] p.1
                       | None => p.1
                       end) = gate_view s) as Hk
    by (by intros [s2 [e|]] Hv).
  destruct res as [u|error].
  - pose proof (gate_view_on_checked (fromUpdate c) u (set_hot st None s)) as Hv.
    destruct (on_checked _ _ _) as [s' [e|]]; simpl in Hv.
    + pose proof (gate_view_on_check_error e s') as Hv'.
      destruct (on_check_error e s') as [s2 o].
      apply (Hk (s2, o)). simpl in *. by rewrite Hv', Hv.
    + apply (Hk (s', None)). done.
  - pose proof (gate_view_on_check_error error (set_hot st None s)) as Hv.
    destruct (on_check_error _ _) as [s2 o].
    apply (Hk (s2, o)). done.
Qed.

Lemma resume_main_gate now s :
  gate_view (resume_main now s) = gate_view s \/
  (is_fulfilled (Tracker.promise (serverPromise s)) = true /\
   ((pc s = AwaitClient /\ is_fulfilled (Tracker.promise (clientPromise s)) = true) \/
    pc s = AwaitServer)).
Proof.
  unfold resume_main.
  destruct (pc s) eqn:Hpc; auto;
    destruct (Tracker.promise (clientPromise s)) eqn:Hc;
    destruct (Tracker.promise (serverPromise s)) eqn:Hs;
    auto using gate_view_enter_catch.
Qed.

Lemma flag_on_request req s :
  appPromiseIsResolved (on_request req s) = appPromiseIsResolved s.
Proof. unfold on_request, dispatch. by cases. Qed.

Lemma flag_of_view s s' :
  gate_view s' = gate_view s -> appPromiseIsResolved s' = appPromiseIsResolved s.
Proof. intros Hv. by destruct (gate_view_fields _ _ Hv) as (_ & _ & _ & ->). Qed.

Lemma fulfilled_on_done stats now tr :
  Tracker.promise tr = Pending ->
  is_fulfilled (Tracker.promise (Tracker.on_done stats now tr).1) = true ->
  hasErrors stats = false.
Proof.
  intros Hp. rewrite promise_on_done, Hp. by destruct (hasErrors stats).
Qed.

(** A release of the armed gate happens at the startup load, at a server
    build without errors whose patch check is skipped, or when a patch
    check chained by the watch callback settles. *)
Lemma gate_release_cause s e :
  Inv s ->
  appPromiseIsResolved s = false -> appPromiseIsResolved (step s e) = true ->
  match e with
  | ClientDone stats _ => hasErrors stats = false /\ app s = None
  | ServerDone stats _ =>
      hasErrors stats = false /\ (app s = None \/ is_idle (hotStatus s) = false)
  | CheckSettled _ _ => exists c, checking s = Some c /\ releases c = true
  | _ => False
  end.
Proof.
  intros [HG HM HP _] Hf Hf'. destruct e; cbn [step] in Hf'.
  - simpl in Hf'. congruence.
  - unfold client_done in Hf'.
    destruct (resume_main_gate now
                (emit (Tracker.on_done stats now (clientPromise s)).2
                   (set_clientPromise (Tracker.on_done stats now (clientPromise s)).1 s)))
      as [Hv|(Hs & Hpc)].
    + rewrite (flag_of_view _ _ Hv) in Hf'. simpl in Hf'. congruence.
    + simpl in Hs, Hpc. unfold PcInv in HP.
      destruct Hpc as [[Hpc Hc]|Hpc]; rewrite Hpc in HP.
      * destruct HP as [Hp Ha]. split; [by eapply fulfilled_on_done|].
        by destruct (app s).
      * destruct HP as (_ & Hp & _). by rewrite Hp in Hs.
  - unfold server_compile, gate_on_compile in Hf'. simpl in Hf'.
    rewrite Hf in Hf'. simpl in Hf'. congruence.
  - unfold server_done in Hf'.
    rewrite (flag_of_view _ _ (gate_view_report _ _)) in Hf'.
    unfold server_finished in Hf'.
    set (s0 := if hasErrors stats then s else set_builds (S (builds s)) s) in *.
    assert (gate_view s0 = gate_view s /\ pc_view s0 = pc_view s /\
            hotStatus s0 = hotStatus s /\ PcInv s0) as (Hv0 & Hp0 & Hh0 & HP0)
      by (unfold s0; by destruct (hasErrors stats)).
    pose proof (PcWeak_done_hook s0 stats now HP0) as Hw.
    set (sd := emit _ _) in *.
    assert (gate_view sd = gate_view s /\ app sd = app s /\
            hotStatus sd = hotStatus s /\ pc sd = pc s /\
            Tracker.promise (clientPromise sd) = Tracker.promise (clientPromise s))
      as (Hvd & Had & Hhd & Hpd & Hcd)
      by (unfold sd, s0; by destruct (hasErrors stats)).
    destruct (app s) as [m|] eqn:Hm.
    + rewrite resume_main_loaded in Hf';
        [|eapply PcWeak_view; [apply pc_view_watch_callback|done]
         |by rewrite loaded_watch_callback, Had].
      destruct (watch_callback_gate None (Some stats) sd)
        as [Hv|(stats' & _ & [= <-] & He & _ & Hidle)].
      * rewrite (flag_of_view _ _ Hv), (flag_of_view _ _ Hvd) in Hf'. congruence.
      * split; [done|]. right. by rewrite <- Hhd.
    + assert (watch_callback None (Some stats) sd = sd) as Hwc
        by (unfold watch_callback; by rewrite Had).
      rewrite Hwc in Hf'.
      destruct (resume_main_gate now sd) as [Hv|(Hs & Hpc)].
      * rewrite (flag_of_view _ _ Hv), (flag_of_view _ _ Hvd) in Hf'. congruence.
      * rewrite Hpd, Hcd in *. unfold PcInv in HP.
        destruct Hpc as [[Hpc Hc]|Hpc]; rewrite Hpc in HP.
        -- destruct HP as [Hp _]. by rewrite Hp in Hc.
        -- destruct HP as (_ & Hp & _). split; [|by left].
           unfold sd, s0 in Hs. simpl in Hs.
           destruct (hasErrors stats) eqn:He; [|done].
           simpl in Hs. rewrite promise_on_done, He, Hp in Hs. done.
  - unfold watch_callback in Hf'. destruct (app s); simpl in Hf'; congruence.
  - destruct (check_settled_gate res st s) as [Hv|Hc]; [|done].
    rewrite (flag_of_view _ _ Hv) in Hf'. congruence.
  - rewrite flag_on_request in Hf'. congruence.
  - rewrite (flag_of_view _ _ (gate_view_browserSync_settled _ _ _)) in Hf'.
    congruence.
  - rewrite (flag_of_view _ _ (gate_view_cleanupAndExit _)) in Hf'. congruence.
  - rewrite (flag_of_view _ _ (gate_view_teardown_settled _ _)) in Hf'. congruence.
Qed.

(** C1, as stated, fails in three ways.  A compile-start that arrives
    while the patch check of the previous rebuild is in flight coalesces
    into the armed gate, which that check then releases while the new
    rebuild is running.  A rebuild that finishes with errors leaves the
    gate armed although no build is running.  And a request is handed to
    the module read from build 1 after build 2 has completed, when the
    patch check of build 2 fails softly. *)
Lemma gate_armed_differs_from_rebuild_outstanding :
  let startup :=
    [ServerCompile 1; ClientCompile 2; ClientDone (mkStats false "ok") 10;
     ServerDone (mkStats false "ok") 12]%Z in
  let overlap :=
    startup ++ [ServerCompile 20; ServerDone (mkStats false "ok") 25;
                ServerCompile 26; CheckSettled (Updated None) StIdle]%Z in
  let failed := startup ++ [ServerCompile 20; ServerDone (mkStats true "bad") 25]%Z in
  let stale :=
    startup ++ [ServerCompile 20; Request 7; ServerDone (mkStats false "ok") 25;
                CheckSettled (CheckFailed (External "manifest")) StCheck]%Z in
  (gate_armed (run (init true 0) overlap) = false /\
   rebuild_outstanding overlap = true /\ awaiting_ready overlap = true) /\
  (gate_armed (run (init true 0) failed) = true /\
   rebuild_outstanding failed = false) /\
  (handled (effects (run (init true 0) stale)) = [(7, mkModule 0 1 true)] /\
   builds (run (init true 0) stale) = 2 /\
   count is_require (effects (run (init true 0) stale)) = 1).
Proof. vm_compute. repeat split; reflexivity. Qed.

(** C1, amended. After every server compile-start the gate is armed.  An
    armed gate is released only by the notification that completes the
    startup load (a compile-done without errors while no module is
    loaded), by a server compile-done without errors whose patch check is
    skipped, or by the settlement of a patch check the watch callback
    chained the release on.  A request is handed to [app.handle] only in a
    step that leaves the gate resolved, and it is handed to the module
    [app] refers to after that step. *)
Theorem gate_armed_from_compile_to_release (s : State) (e : Event) :
  reachable s ->
  let s' := step s e in
  (forall now, e = ServerCompile now -> gate_armed s' = true) /\
  (gate_armed s = true -> gate_armed s' = false ->
   match e with
   | ClientDone stats _ => hasErrors stats = false /\ app s = None
   | ServerDone stats _ =>
       hasErrors stats = false /\ (app s = None \/ is_idle (hotStatus s) = false)
   | CheckSettled _ _ => exists c, checking s = Some c /\ releases c = true
   | _ => False
   end) /\
  (forall r m, In (r, m) (handled (new_effects s s')) ->
               app s' = Some m /\ gate_armed s' = false).
Proof.
  intros Hr s'. pose proof (Inv_reachable s Hr) as HI.
  assert (Inv s') as HI' by (by apply Inv_step).
  pose proof (gate_armed_flag s (inv_gate s HI)) as Ha.
  pose proof (gate_armed_flag s' (inv_gate s' HI')) as Ha'.
  split; [|split].
  - intros now ->. rewrite Ha'. unfold s'. cbn [step].
    unfold server_compile, gate_on_compile. simpl.
    by destruct (appPromiseIsResolved s) eqn:Hf; simpl; rewrite ?Hf.
  - rewrite Ha, Ha'. intros Hf Hf'.
    apply gate_release_cause; [done| |].
    + by destruct (appPromiseIsResolved s).
    + fold s'. by destruct (appPromiseIsResolved s').
  - destruct (served_step_inv s e HI) as (out & Hout & Hserved).
    fold s' in Hout, Hserved. rewrite (new_effects_app _ _ _ Hout).
    intros r m Hin. destruct (Hserved r m Hin) as [Hm Hf].
    by rewrite Ha', Hf.
Qed.

(** A request arrives while a rebuild runs and waits; the rebuild finishes
    and its patch check settles: the step that hands the request over
    leaves the gate resolved. *)
Lemma gate_armed_from_compile_to_release_witness :
  let s := run (init true 0)
             [ServerCompile 1; ClientCompile 2; ClientDone (mkStats false "ok") 10;
              ServerDone (mkStats false "ok") 12; ServerCompile 20; Request 7;
              ServerDone (mkStats false "ok") 25]%Z in
  let s' := step s (CheckSettled (Updated None) StIdle) in
  gate_armed s = true /\
  app s' = Some (mkModule 0 1 true) /\ gate_armed s' = false.
Proof.
  intros s s'. split; [reflexivity|].
  assert (reachable s) as Hr by (do 3 eexists; reflexivity).
  destruct (gate_armed_from_compile_to_release s (CheckSettled (Updated None) StIdle) Hr)
    as (_ & _ & Hserved).
  apply (Hserved 7). vm_compute. auto.
Defined.

(** ** Startup *)

Lemma cleaning_enter_catch e s : is_Some_bool (cleaning (enter_catch e s)) = true.
Proof.
  unfold enter_catch.
  match goal with
  | |- context [cleanupAndExit ?s0] =>
      pose proof (cleaning_cleanupAndExit s0) as H;
      destruct (cleaning (cleanupAndExit s0)) as [f|] eqn:Hc; [|done]
  end.
  destruct (fut_state f); cbn; by rewrite Hc.
Qed.

Lemma in_catch_of_view s s' : pc_view s' = pc_view s -> in_catch s' = in_catch s.
Proof. unfold pc_view, in_catch. by intros [= -> _ _ _ _]. Qed.

Lemma in_catch_enter_catch e s : in_catch (enter_catch e s) = true.
Proof.
  unfold enter_catch.
  match goal with
  | |- context [cleanupAndExit ?s0] => generalize (cleanupAndExit s0); intros s1
  end.
  destruct (cleaning s1) as [f|]; [|done]. by destruct (fut_state f).
Qed.

Lemma catch_logged_app out1 out2 : catch_logged out1 -> catch_logged (out1 ++ out2).
Proof.
  intros (err & H1 & H2). exists err. split; apply in_or_app; by left.
Qed.

Lemma enter_catch_logged e s : catch_logged (effects (enter_catch e s)).
Proof.
  destruct (quiet_cleanupAndExit (emit [BuildLog (MException e); ConsoleError e] s))
    as (out & Hout & _).
  assert (catch_logged (effects (cleanupAndExit
            (emit [BuildLog (MException e); ConsoleError e] s)))) as H.
  { rewrite Hout. apply catch_logged_app. exists e. cbn [emit effects].
    split; apply in_or_app; right; [by left|right; by left]. }
  unfold enter_catch.
  destruct (cleaning (cleanupAndExit _)) as [f|]; [|exact H].
  destruct (fut_state f); try exact H.
  cbn [emit effects set_pc]. by apply catch_logged_app.
Qed.

Lemma launch_catch now s :
  in_catch (launch now s) = true -> catch_logged (effects (launch now s)).
Proof.
  unfold launch. destruct (call_appPromiseResolve _) as [s3|]; [done|].
  intros _. apply enter_catch_logged.
Qed.

Lemma resume_main_catch now s :
  in_catch s = false -> in_catch (resume_main now s) = true ->
  catch_logged (effects (resume_main now s)).
Proof.
  unfold resume_main. intros Hs.
  destruct (pc s) eqn:Hpc; try (intros H; congruence).
  - destruct (Tracker.promise (clientPromise s)); [intros; congruence| |].
    + destruct (Tracker.promise (serverPromise s)).
      * unfold in_catch. by cbn.
      * apply launch_catch.
      * intros _. apply enter_catch_logged.
    + intros _. apply enter_catch_logged.
  - destruct (Tracker.promise (serverPromise s)); [intros; congruence| |].
    + apply launch_catch.
    + intros _. apply enter_catch_logged.
Qed.

(** The executor enters the catch block only through its two log entries. *)
Lemma in_catch_step s e :
  in_catch s = false -> in_catch (step s e) = true ->
  catch_logged (effects (step s e)).
Proof.
  intros Hs. destruct e; cbn [step].
  - unfold client_compile, in_catch in *. cbn. congruence.
  - unfold client_done. by apply resume_main_catch.
  - unfold server_compile. rewrite (in_catch_of_view _ _ (pc_view_gate_on_compile _)).
    unfold in_catch in *. cbn. congruence.
  - unfold server_done. rewrite (in_catch_of_view _ _ (pc_view_report _ _)).
    intros H.
    assert (catch_logged (effects (server_finished stats now s))) as Hl.
    { revert H. unfold server_finished. apply resume_main_catch.
      rewrite (in_catch_of_view _ _ (pc_view_watch_callback _ _ _)).
      unfold in_catch in *. by destruct (hasErrors stats). }
    destruct (server_unobserved stats s); [|exact Hl].
    cbn [report_unobserved emit effects]. by apply catch_logged_app.
  - rewrite (in_catch_of_view _ _ (pc_view_watch_callback _ _ _)). congruence.
  - rewrite (in_catch_of_view _ _ (pc_view_check_settled _ _ _)). congruence.
  - rewrite (in_catch_of_view _ _ (pc_view_on_request _ _)). congruence.
  - unfold browserSync_settled.
    destruct (pc s) eqn:Hpc; try (intros H; congruence).
    destruct res as [err|].
    + intros _. apply enter_catch_logged.
    + unfold in_catch. by cbn.
  - unfold cleanupAndExit, in_catch in *.
    destruct (cleaning s); cbn; congruence.
  - unfold teardown_settled, in_catch in *.
    destruct (cleaning s) as [f|]; [|congruence].
    destruct (is_pending (fut_state f)); [|congruence].
    destruct res; cbn; destruct (pc s) eqn:Hpc; cbn; rewrite ?Hpc; congruence.
Qed.

Lemma catch_logged_reachable s :
  reachable s -> in_catch s = true -> catch_logged (effects s).
Proof.
  intros (hot & now & evs & ->).
  induction evs as [|e evs IH] using rev_ind; [done|].
  unfold run in *. rewrite foldl_app. cbn [foldl].
  fold (run (init hot now) evs) in *.
  set (s := run (init hot now) evs) in *.
  destruct (in_catch s) eqn:Hs.
  - intros _. assert (Inv s) as HI by (apply Inv_reachable; by exists hot, now, evs).
    destruct (served_step_inv s e HI) as (out & -> & _).
    by apply catch_logged_app, IH.
  - by apply in_catch_step.
Qed.

(** After a failed initial compile the executor is in the catch block as
    soon as it resumes, and the cleanup has run. *)
Lemma caught_after_failure s :
  reachable s ->
  is_rejected (Tracker.promise (clientPromise s)) = true \/
  (is_rejected (Tracker.promise (serverPromise s)) = true /\
   is_pending (Tracker.promise (clientPromise s)) = false) ->
  (pc s = AwaitCleanup \/ pc s = Exited) /\
  is_Some_bool (cleaning s) = true /\
  count is_teardown (effects s) = 1 /\
  1 <= count is_cleanup_call (effects s) /\
  catch_logged (effects s).
Proof.
  intros Hr Hrej. pose proof (Inv_reachable s Hr) as [_ (Ha & _ & _) HP HC].
  assert (in_catch s = true /\ is_Some_bool (cleaning s) = true) as [Hin Hcl].
  { unfold PcInv in HP. unfold in_catch.
    destruct (pc s) eqn:Hpc.
    - destruct HP as [Hp _]. rewrite Hp in Hrej. by destruct Hrej as [|[]].
    - destruct HP as (Hc & Hs & _). rewrite Hs in Hrej.
      destruct (Tracker.promise (clientPromise s)); by destruct Hrej as [|[]].
    - destruct (app s) as [m|] eqn:Hm; [|done].
      destruct (Ha m eq_refl) as (_ & _ & _ & Hc & Hs).
      destruct (Tracker.promise (clientPromise s)), (Tracker.promise (serverPromise s));
        try done; by destruct Hrej as [|[]].
    - destruct (app s) as [m|] eqn:Hm; [|done].
      destruct (Ha m eq_refl) as (_ & _ & _ & Hc & Hs).
      destruct (Tracker.promise (clientPromise s)), (Tracker.promise (serverPromise s));
        try done; by destruct Hrej as [|[]].
    - by destruct HP as [Hc _].
    - by destruct HP as [Hc _]. }
  split; [unfold in_catch in Hin; destruct (pc s); auto; done|].
  split; [done|].
  unfold CleanInv in HC. cbv zeta in HC.
  rewrite !count_clean_trace in HC by (by intros []).
  destruct HC as [_ HC]. destruct (cleaning s) as [f|]; [|done].
  destruct HC as (_ & Ht & _ & Hn & _).
  split; [done|]. split; [done|]. by apply catch_logged_reachable.
Qed.

(** C4. The server module is loaded only once both compilation promises
    are fulfilled; when either initial compile fails the bundle is never
    evaluated, and the executor is in the catch block, with its two log
    entries written and [dockerTeardown] called once, from the moment the
    client promise rejects, or the server promise has rejected and the
    client one has settled.  A server build that fails while the client
    build still runs is reported as an unhandled rejection and the executor
    goes on waiting (line 208 awaits the client first); it enters the catch
    block when the client build is done, whatever its result.  In each
    interleaving of compile-start, compile-done(no errors) for "client" and
    for "server", the module is loaded once and the gate is released once:
    the gate promise is resolved, and a request that arrives next is handed
    to the loaded module. *)
Theorem module_load_follows_both_builds
    (s : State) (hot : bool) (t0 a b c d : Z) (r1 r2 : string)
    (stats : Stats) (now : Z) (req : nat) :
  reachable s ->
  (forall m, app s = Some m ->
     is_fulfilled (Tracker.promise (clientPromise s)) = true /\
     is_fulfilled (Tracker.promise (serverPromise s)) = true) /\
  (is_rejected (Tracker.promise (clientPromise s)) = true \/
   is_rejected (Tracker.promise (serverPromise s)) = true ->
   app s = None /\ loads s = 0) /\
  (is_rejected (Tracker.promise (clientPromise s)) = true \/
   (is_rejected (Tracker.promise (serverPromise s)) = true /\
    is_pending (Tracker.promise (clientPromise s)) = false) ->
   (pc s = AwaitCleanup \/ pc s = Exited) /\
   is_Some_bool (cleaning s) = true /\
   count is_teardown (effects s) = 1 /\
   1 <= count is_cleanup_call (effects s) /\
   catch_logged (effects s)) /\
  (is_rejected (Tracker.promise (serverPromise s)) = true ->
   is_pending (Tracker.promise (clientPromise s)) = true ->
   let s' := step s (ClientDone stats now) in
   pc s = AwaitClient /\ cleaning s' <> None /\
   (pc s' = AwaitCleanup \/ pc s' = Exited) /\
   count is_teardown (effects s') = 1 /\
   catch_logged (effects s') /\ app s' = None) /\
  (pc s = AwaitClient -> is_pending (Tracker.promise (serverPromise s)) = true ->
   hasErrors stats = true ->
   let s' := step s (ServerDone stats now) in
   is_rejected (Tracker.promise (serverPromise s')) = true /\
   In (UnhandledRejection CompilationFailed) (new_effects s s') /\
   pc s' = AwaitClient /\ cleaning s' = cleaning s /\ app s' = None) /\
  Forall
    (fun evs =>
       let s' := run (init hot t0) evs in
       app s' = Some (mkModule 0 1 hot) /\
       pc s' = AwaitBrowserSync /\
       count is_require (effects s') = 1 /\
       count is_gate_resolve (effects s') = 1 /\
       gates s' = [mkGate true []] /\ gate_armed s' = false /\
       appPromiseIsResolved s' = true /\ cleaning s' = None /\
       handled (effects s') = [] /\
       handled (effects (step s' (Request req))) = [(req, mkModule 0 1 hot)])
    (interleave
       [ClientCompile a; ClientDone (mkStats false r1) b]
       [ServerCompile c; ServerDone (mkStats false r2) d]).
Proof.
  intros Hr. pose proof (Inv_reachable s Hr) as [_ (Ha & _ & Hl) HP _].
  assert (forall m, app s = Some m ->
            is_fulfilled (Tracker.promise (clientPromise s)) = true /\
            is_fulfilled (Tracker.promise (serverPromise s)) = true) as Hboth.
  { intros m Hm. by destruct (Ha m Hm) as (_ & _ & _ & ? & ?). }
  assert (is_rejected (Tracker.promise (clientPromise s)) = true \/
          is_rejected (Tracker.promise (serverPromise s)) = true -> app s = None) as Hnone.
  { intros Hrej. destruct (app s) as [m|] eqn:Hm; [|done].
    destruct (Hboth m eq_refl) as [Hc Hs].
    destruct Hrej as [Hrej|Hrej];
      [destruct (Tracker.promise (clientPromise s)) | destruct (Tracker.promise (serverPromise s))];
      done. }
  assert (is_pending (Tracker.promise (clientPromise s)) = true -> pc s = AwaitClient)
    as Hwait.
  { intros Hp. unfold PcInv in HP. destruct (pc s) eqn:Hpc; try done.
    - destruct HP as (Hc & _). by destruct (Tracker.promise (clientPromise s)).
    - destruct (app s) as [m|] eqn:Hm; [|done]. destruct (Hboth m eq_refl) as [Hc _].
      by destruct (Tracker.promise (clientPromise s)).
    - destruct (app s) as [m|] eqn:Hm; [|done]. destruct (Hboth m eq_refl) as [Hc _].
      by destruct (Tracker.promise (clientPromise s)).
    - destruct HP as [_ Hc]. congruence.
    - destruct HP as [_ Hc]. congruence. }
  split; [exact Hboth|]. split; [|split; [|split; [|split]]].
  - intros Hrej. split; [by apply Hnone|]. apply Hl. by rewrite (Hnone Hrej).
  - by apply caught_after_failure.
  - (* the client build settles after the server build has failed *)
    intros Hsrv Hcl s'. pose proof (Hwait Hcl) as Hpc.
    assert (reachable s') as Hr' by (by apply reachable_step).
    assert (exists err s1, s' = enter_catch err s1 /\ mod_view s1 = mod_view
              (emit (Tracker.on_done stats now (clientPromise s)).2
                 (set_clientPromise (Tracker.on_done stats now (clientPromise s)).1 s)))
      as (err & s1 & Hs' & Hv).
    { unfold s'. cbn [step]. unfold client_done, resume_main. cbn [pc emit set_clientPromise].
      rewrite Hpc. cbn [clientPromise serverPromise emit set_clientPromise].
      rewrite promise_on_done.
      destruct (Tracker.promise (clientPromise s)); try done.
      destruct (Tracker.promise (serverPromise s)) as [| |e0]; try done.
      destruct (hasErrors stats); cbn; eauto. }
    assert (app s' = None) as Happ.
    { rewrite Hs'.
      destruct (mod_view_fields _ _ (mod_view_enter_catch err s1)) as (-> & _).
      destruct (mod_view_fields _ _ Hv) as (-> & _). cbn.
      apply Hnone. by right. }
    assert (is_Some_bool (cleaning s') = true) as Hsome
      by (rewrite Hs'; apply cleaning_enter_catch).
    assert (in_catch s' = true) as Hin by (rewrite Hs'; apply in_catch_enter_catch).
    pose proof (Inv_reachable s' Hr') as [_ _ _ HC].
    unfold CleanInv in HC. cbv zeta in HC.
    rewrite !count_clean_trace in HC by (by intros []).
    destruct HC as [_ HC]. destruct (cleaning s') as [f|]; [|done].
    destruct HC as (_ & Ht & _).
    split; [done|]. split; [done|].
    split; [unfold in_catch in Hin; destruct (pc s'); auto; done|].
    split; [done|]. split; [|done].
    rewrite Hs'. apply enter_catch_logged.
  - (* the server build fails while the client build runs *)
    intros Hpc Hsrv He s'. unfold PcInv in HP. rewrite Hpc in HP.
    destruct HP as [Hcp Happ].
    assert (app s = None) as Hnoapp by (by destruct (app s)).
    assert (s' = emit [UnhandledRejection CompilationFailed]
                   (emit (Tracker.on_done stats now (serverPromise s)).2
                      (set_serverPromise (Tracker.on_done stats now (serverPromise s)).1 s)))
      as Hs'.
    { unfold s'. cbn [step]. unfold server_done, server_unobserved.
      rewrite He, Hsrv, Hpc. cbn [andb negb report_unobserved].
      unfold server_finished. rewrite He.
      unfold watch_callback. cbn [app emit set_serverPromise]. rewrite Hnoapp.
      unfold resume_main. cbn [pc emit set_serverPromise clientPromise]. by rewrite Hpc, Hcp. }
    rewrite Hs'. cbn [emit set_serverPromise serverPromise pc cleaning app].
    rewrite promise_on_done, He.
    destruct (Tracker.promise (serverPromise s)); try done.
    repeat split; try done.
    rewrite (new_effects_app _ _
               ((Tracker.on_done stats now (serverPromise s)).2 ++
                [UnhandledRejection CompilationFailed])).
    + apply in_or_app. right. by left.
    + cbn [emit effects set_serverPromise]. by rewrite <- app_assoc.
  - cbn [interleave map List.app].
    repeat (apply Forall_cons; split; [by vm_compute|]).
    by apply Forall_nil.
Qed.

(** The server build fails while the client build is still running: the
    rejection is reported, the module is not loaded, and the catch block
    runs as soon as the client build is done. *)
Lemma module_load_follows_both_builds_witness :
  let s0 := run (init true 0) [ServerCompile 1; ClientCompile 2]%Z in
  let s1 := step s0 (ServerDone (mkStats true "bad") 5) in
  let s := step s1 (ClientDone (mkStats false "ok") 10) in
  In (UnhandledRejection CompilationFailed) (new_effects s0 s1) /\
  (app s = None /\ loads s = 0) /\
  (pc s = AwaitCleanup \/ pc s = Exited) /\
  count is_teardown (effects s) = 1 /\
  catch_logged (effects s).
Proof.
  intros s0 s1 s.
  assert (reachable s0) as Hr0 by (do 3 eexists; reflexivity).
  assert (reachable s) as Hr by (by apply reachable_step, reachable_step).
  destruct (module_load_follows_both_builds s0 true 0 0 0 0 0 "" ""
              (mkStats true "bad") 5 0 Hr0)
    as (_ & _ & _ & _ & Hunobserved & _).
  destruct (module_load_follows_both_builds s true 0 0 0 0 0 "" ""
              (mkStats true "bad") 5 0 Hr)
    as (_ & Hnone & Hcatch & _).
  destruct (Hunobserved eq_refl eq_refl eq_refl) as (_ & Hin & _).
  destruct Hcatch as (Hpc & _ & Ht & _ & Hlog); [right; by split|].
  split; [exact Hin|]. split; [apply Hnone; by right|]. by repeat split.
Defined.

(** * Further properties of the orchestration core *)

(** ** Requests waiting on the gate *)





(** ** What the cleanup routine leaves alone *)

(** X2. Kill signals and the completion of the teardown, in any number and
    order, leave the gate (its promises, the requests waiting on it, the
    flag), the loaded module and the patch check in flight as they are,
    and hand no request to the module: cleanup stops neither the watcher
    nor the service of requests. *)
Theorem cleanup_leaves_service_untouched (s : State) (evs : list Event) :
  forallb is_cleanup_event evs = true ->
  gate_view (run s evs) = gate_view s /\
  mod_view (run s evs) = mod_view s /\
  handled (effects (run s evs)) = handled (effects s).
Proof.
  revert s. induction evs as [|e evs IH]; intros s Hevs; [done|].
  simpl in Hevs. apply andb_prop in Hevs as [He Hevs].
  cbn [run foldl]. fold (run (step s e) evs).
  destruct (IH (step s e) Hevs) as (-> & -> & ->).
  destruct e; try done; cbn [step].
  - rewrite gate_view_cleanupAndExit, mod_view_cleanupAndExit.
    destruct (quiet_cleanupAndExit s) as (out & -> & Hq).
    by rewrite handled_app, Hq, app_nil_r.
  - rewrite gate_view_teardown_settled, mod_view_teardown_settled.
    destruct (quiet_teardown_settled res s) as (out & -> & Hq).
    by rewrite handled_app, Hq, app_nil_r.
Qed.

(** A request waits during a rebuild when two kill signals arrive and the
    teardown completes: it is still waiting, on the same module. *)
Lemma cleanup_leaves_service_untouched_witness :
  let s := run (init true 0)
             [ServerCompile 1; ClientCompile 2; ClientDone (mkStats false "ok") 10;
              ServerDone (mkStats false "ok") 12; ServerCompile 20; Request 7]%Z in
  let s' := run s [KillSignal; KillSignal; TeardownSettled None] in
  gates s' = [mkGate true []; mkGate false [7]] /\
  app s' = Some (mkModule 0 1 true).
Proof.
  intros s s'.
  destruct (cleanup_leaves_service_untouched s
              [KillSignal; KillSignal; TeardownSettled None] eq_refl)
    as (Hg & Hm & _).
  destruct (gate_view_fields _ _ Hg) as (Hgates & _).
  destruct (mod_view_fields _ _ Hm) as (Happ & _).
  unfold s'. split; [rewrite Hgates | rewrite Happ]; reflexivity.
Defined.

(** ** No request reaches a module that is not loaded *)

Lemma loaded_of_view s s' :
  pc_view s' = pc_view s -> is_Some_bool (app s') = is_Some_bool (app s).
Proof. unfold pc_view. by intros [= _ _ _ -> _]. Qed.

Lemma app_of_view s s' : mod_view s' = mod_view s -> app s' = app s.
Proof. intros Hv. by destruct (mod_view_fields _ _ Hv) as (-> & _). Qed.

Lemma loaded_launch now s : is_Some_bool (app (launch now s)) = true.
Proof.
  unfold launch. destruct (call_appPromiseResolve _) as [s3|] eqn:Hc.
  - simpl. by rewrite (app_resolve _ _ Hc).
  - by rewrite (app_of_view _ _ (mod_view_enter_catch _ _)).
Qed.

Lemma loaded_resume_main now s :
  is_Some_bool (app s) = true -> is_Some_bool (app (resume_main now s)) = true.
Proof.
  intros Ha. unfold resume_main.
  cases; rewrite ?loaded_launch, ?(app_of_view _ _ (mod_view_enter_catch _ _));
    done.
Qed.

Lemma loaded_step s e :
  is_Some_bool (app s) = true -> is_Some_bool (app (step s e)) = true.
Proof.
  intros Ha. destruct e; cbn [step].
  - done.
  - by apply loaded_resume_main.
  - unfold server_compile. by rewrite (loaded_of_view _ _ (pc_view_gate_on_compile _)).
  - unfold server_done. rewrite (loaded_of_view _ _ (pc_view_report _ _)).
    unfold server_finished. apply loaded_resume_main.
    rewrite loaded_watch_callback. by destruct (hasErrors stats).
  - by rewrite loaded_watch_callback.
  - by rewrite (loaded_of_view _ _ (pc_view_check_settled _ _ _)).
  - by rewrite (loaded_of_view _ _ (pc_view_on_request _ _)).
  - by rewrite (app_of_view _ _ (mod_view_browserSync_settled _ _ _)).
  - by rewrite (app_of_view _ _ (mod_view_cleanupAndExit _)).
  - by rewrite (app_of_view _ _ (mod_view_teardown_settled _ _)).
Qed.

Lemma served_only_when_loaded evs : forall s,
  Inv s ->
  handled (effects s) = [] \/ is_Some_bool (app s) = true ->
  handled (effects (run s evs)) = [] \/ is_Some_bool (app (run s evs)) = true.
Proof.
  induction evs as [|e evs IH]; intros s HI HP; [done|].
  cbn [run foldl]. fold (run (step s e) evs).
  apply IH; [by apply Inv_step|].
  destruct HP as [Hh|Ha]; [|right; by apply loaded_step].
  destruct (served_step_inv s e HI) as (out & Hout & Hserved).
  rewrite Hout, handled_app, Hh. simpl.
  destruct (handled out) as [|[r m] rest] eqn:Hout'; [by left|right].
  destruct (Hserved r m) as [-> _]; [by left|done].
Qed.

(** X4. No request is handed to [app.handle] before the server module is
    loaded; when either initial compile fails, none ever is. *)
Theorem no_request_served_before_load (s : State) :
  reachable s ->
  (app s = None -> handled (effects s) = []) /\
  (is_rejected (Tracker.promise (clientPromise s)) = true \/
   is_rejected (Tracker.promise (serverPromise s)) = true ->
   handled (effects s) = []).
Proof.
  intros Hr. pose proof (Inv_reachable s Hr) as [_ (Ha & _) _ _].
  destruct Hr as (hot & now & evs & ->).
  assert (app (run (init hot now) evs) = None ->
          handled (effects (run (init hot now) evs)) = []) as Hnone.
  { intros Hn.
    destruct (served_only_when_loaded evs (init hot now) (Inv_init hot now))
      as [Hh|Hl]; [by left|done|by rewrite Hn in Hl]. }
  split; [done|]. intros Hrej. apply Hnone.
  destruct (app (run (init hot now) evs)) as [m|] eqn:Hm; [|done].
  destruct (Ha m eq_refl) as (_ & _ & _ & Hc & Hs).
  destruct Hrej as [Hrej|Hrej];
    [destruct (Tracker.promise (clientPromise _))
    |destruct (Tracker.promise (serverPromise _))]; done.
Qed.

(** The server build fails; the watcher rebuilds successfully afterwards
    and requests arrive: none is served. *)
Lemma no_request_served_before_load_witness :
  let s := run (init true 0)
             [ServerCompile 1; ClientCompile 2; ServerDone (mkStats true "bad") 5;
              ClientDone (mkStats false "ok") 10; Request 7; ServerCompile 20;
              ServerDone (mkStats false "ok") 25; Request 8]%Z in
  handled (effects s) = [].
Proof.
  intros s.
  assert (reachable s) as Hr by (do 3 eexists; reflexivity).
  apply (proj2 (no_request_served_before_load s Hr)). right. reflexivity.
Defined.

(** ** The gate exists once requests can arrive *)

Lemma appPromise_of_view s s' : gate_view s' = gate_view s -> appPromise s' = appPromise s.
Proof. intros Hv. by destruct (gate_view_fields _ _ Hv) as (_ & -> & _). Qed.

Lemma pc_of_view s s' : pc_view s' = pc_view s -> pc s' = pc s.
Proof. unfold pc_view. by intros [= -> _ _ _ _]. Qed.

Lemma appPromise_resolve s s' :
  call_appPromiseResolve s = Some s' -> appPromise s' = appPromise s.
Proof.
  unfold call_appPromiseResolve. intros H. cases; rewrite ?foldl_dispatch; done.
Qed.

Lemma appPromise_release s : appPromise (release s) = appPromise s.
Proof.
  unfold release. destruct (call_appPromiseResolve _) as [s'|] eqn:Hc; [|done].
  by rewrite (appPromise_resolve _ _ Hc).
Qed.

Lemma appPromise_watch_callback err st s :
  appPromise (watch_callback err st s) = appPromise s.
Proof.
  unfold watch_callback.
  destruct (app s), err, st; try done.
  destruct (hasErrors _); [done|].
  pose proof (appPromise_of_view _ _ (gate_view_checkForUpdate false s)) as Hv.
  destruct (checkForUpdate false s) as [s1 [e| |]]; simpl in Hv.
  - done.
  - by rewrite appPromise_release.
  - by destruct (checking s1).
Qed.

Lemma appPromise_check_settled res st s :
  appPromise (check_settled res st s) = appPromise s.
Proof.
  unfold check_settled. destruct (checking s) as [c|]; [|done].
  assert (forall p : State * option Err,
            gate_view p.1 = gate_view s ->
            appPromise (match p.2 with
                        | Some e => emit [UnhandledRejection e] p.1
                        | None => if releases c then release p.1 else p.1
                        end) = appPromise s) as Hk.
  { intros [s2 [e|]] Hv; simpl in *.
    - by rewrite (appPromise_of_view _ _ Hv).
    - destruct (releases c); rewrite ?appPromise_release;
        by rewrite (appPromise_of_view _ _ Hv). }
  destruct res as [u|error].
  - pose proof (gate_view_on_checked (fromUpdate c) u (set_hot st None s)) as Hv.
    destruct (on_checked _ _ _) as [s' [e|]]; simpl in Hv.
    + pose proof (gate_view_on_check_error e s') as Hv'.
      destruct (on_check_error e s') as [s2 o].
      apply (Hk (s2, o)). simpl in *. by rewrite Hv', Hv.
    + apply (Hk (s', None)). done.
  - pose proof (gate_view_on_check_error error (set_hot st None s)) as Hv.
    destruct (on_check_error _ _) as [s2 o].
    apply (Hk (s2, o)). done.
Qed.

Lemma appPromise_on_request req s : appPromise (on_request req s) = appPromise s.
Proof. unfold on_request, dispatch. by cases. Qed.

Lemma serving_enter_catch e s : serving (enter_catch e s) = false.
Proof. unfold enter_catch, serving. by cases. Qed.

(** The launch hands the middleware over only when the gate exists. *)
Lemma gate_defined_launch now s :
  GateInv s ->
  serving (launch now s) = true -> is_Some_bool (appPromise (launch now s)) = true.
Proof.
  intros [Hres _]. unfold launch.
  destruct (call_appPromiseResolve _) as [s3|] eqn:Hc;
    [|by rewrite serving_enter_catch].
  intros _. simpl. rewrite (appPromise_resolve _ _ Hc). simpl.
  unfold call_appPromiseResolve in Hc. simpl in Hc. rewrite Hres in Hc.
  by destruct (appPromise s).
Qed.

Lemma gate_defined_resume_main now s :
  GateInv s ->
  (serving s = true -> is_Some_bool (appPromise s) = true) ->
  serving (resume_main now s) = true ->
  is_Some_bool (appPromise (resume_main now s)) = true.
Proof.
  intros HG HJ. unfold resume_main.
  cases; auto using gate_defined_launch;
    try (by rewrite serving_enter_catch);
    try (unfold serving; simpl; by rewrite ?H).
Qed.

Lemma gate_defined_step s e :
  Inv s ->
  (serving s = true -> is_Some_bool (appPromise s) = true) ->
  serving (step s e) = true -> is_Some_bool (appPromise (step s e)) = true.
Proof.
  intros [HG _ _ _] HJ. destruct e; cbn [step].
  - exact HJ.
  - unfold client_done. apply gate_defined_resume_main; [|exact HJ].
    by eapply GateInv_view; [|exact HG].
  - unfold server_compile, gate_on_compile, serving. simpl.
    destruct (appPromiseIsResolved s); simpl; [done|exact HJ].
  - unfold server_done, serving.
    rewrite (pc_of_view _ _ (pc_view_report _ _)),
      (appPromise_of_view _ _ (gate_view_report _ _)).
    fold (serving (server_finished stats now s)).
    unfold server_finished. apply gate_defined_resume_main.
    + apply GateInv_watch_callback. eapply GateInv_view; [|exact HG].
      by destruct (hasErrors stats).
    + unfold serving. rewrite (pc_of_view _ _ (pc_view_watch_callback _ _ _)).
      rewrite appPromise_watch_callback.
      destruct (hasErrors stats); exact HJ.
  - unfold serving. rewrite (pc_of_view _ _ (pc_view_watch_callback _ _ _)).
    rewrite appPromise_watch_callback. exact HJ.
  - unfold serving. rewrite (pc_of_view _ _ (pc_view_check_settled _ _ _)).
    rewrite appPromise_check_settled. exact HJ.
  - unfold serving. rewrite (pc_of_view _ _ (pc_view_on_request _ _)).
    rewrite appPromise_on_request. exact HJ.
  - rewrite (appPromise_of_view _ _ (gate_view_browserSync_settled _ _ _)).
    unfold browserSync_settled, serving in *.
    destruct (pc s) eqn:Hpc; try (rewrite Hpc; exact HJ).
    intros _. by apply HJ.
  - rewrite (appPromise_of_view _ _ (gate_view_cleanupAndExit _)).
    assert (serving (cleanupAndExit s) = serving s) as ->; [|exact HJ].
    unfold cleanupAndExit, serving. by destruct (cleaning s).
  - rewrite (appPromise_of_view _ _ (gate_view_teardown_settled _ _)).
    assert (serving (teardown_settled res s) = true -> serving s = true) as Hs;
      [|auto].
    unfold teardown_settled, serving.
    destruct (cleaning s) as [f|]; [|done].
    destruct (is_pending (fut_state f)); [|done].
    destruct res; simpl; destruct (pc s) eqn:Hpc; simpl; by rewrite ?Hpc.
Qed.

Lemma gate_defined_run evs : forall s,
  Inv s ->
  (serving s = true -> is_Some_bool (appPromise s) = true) ->
  serving (run s evs) = true -> is_Some_bool (appPromise (run s evs)) = true.
Proof.
  induction evs as [|e evs IH]; intros s HI HJ; [exact HJ|].
  cbn [run foldl]. fold (run (step s e) evs).
  apply IH; [by apply Inv_step|by apply gate_defined_step].
Qed.

(** X5. Once the executor has handed the middleware to browserSync (it
    is past line 218), [appPromise] and [app] are both defined: a request
    is either queued on the unresolved gate or handed at once to the loaded
    module, and the middleware never throws on an undefined gate. *)
Theorem middleware_finds_gate (s : State) (req : nat) :
  reachable s -> serving s = true ->
  exists g gt m,
    appPromise s = Some g /\ gates s !! g = Some gt /\ app s = Some m /\
    step s (Request req) =
      (if resolved gt then emit [AppHandle req m] s
       else set_gates (<[g := mkGate false (waiters gt ++ [req])]> (gates s)) s) /\
    middleware_threw (new_effects s (step s (Request req))) = false.
Proof.
  intros Hr Hs. pose proof (Inv_reachable s Hr) as [HG _ HP _].
  assert (is_Some_bool (appPromise s) = true) as Hp.
  { destruct Hr as (hot & now & evs & ->).
    by apply (gate_defined_run evs (init hot now) (Inv_init hot now)). }
  destruct (appPromise s) as [g|] eqn:Hg; [|done].
  destruct HG as [_ HG]. rewrite Hg in HG. destruct HG as (gt & Hgs & _).
  assert (gates s !! g = Some gt) as Hgt by (by rewrite Hgs, gate_last).
  assert (is_Some_bool (app s) = true) as Ha.
  { unfold serving in Hs. unfold PcInv in HP. by destruct (pc s). }
  destruct (app s) as [m|] eqn:Hm; [|done].
  exists g, gt, m. repeat split; try done.
  - cbn [step]. unfold on_request, dispatch, dispatch_effect.
    by rewrite Hg, Hgt, Hm.
  - cbn [step]. unfold on_request, dispatch, dispatch_effect.
    rewrite Hg, Hgt, Hm. destruct (resolved gt).
    + by rewrite (new_effects_app _ _ [AppHandle req m]).
    + rewrite (new_effects_app _ _ []); [done|]. simpl. by rewrite app_nil_r.
Qed.

(** A request right after the launch is handed to the module at once. *)
Lemma middleware_finds_gate_witness :
  let s := run (init true 0)
             [ServerCompile 1; ClientCompile 2; ClientDone (mkStats false "ok") 10;
              ServerDone (mkStats false "ok") 12]%Z in
  handled (new_effects s (step s (Request 3))) = [(3, mkModule 0 1 true)].
Proof.
  intros s.
  assert (reachable s) as Hr by (do 3 eexists; reflexivity).
  destruct (middleware_finds_gate s 3 Hr eq_refl)
    as (g & gt & m & Hg & Hgt & Hm & Hstep & _).
  rewrite Hstep. injection Hg as <-. injection Hgt as <-. injection Hm as <-.
  reflexivity.
Defined.
(** ** The webpack configuration *)

Section stable_sort.
Context {A : Type} (P : A -> bool).

Let cmp (a b : A) : Z := (Z.b2z (P b) - Z.b2z (P a))%Z.

Lemma sort_insert_first x l : P x = true -> sort_insert cmp x l = x :: l.
Proof.
  intros Hx. destruct l as [|y l]; [done|]. cbn [sort_insert]. unfold cmp.
  rewrite Hx. by destruct (P y).
Qed.

Lemma sort_insert_middle x a b :
  P x = false -> Forall (fun y => P y = true) a -> Forall (fun y => P y = false) b ->
  sort_insert cmp x (a ++ b) = a ++ x :: b.
Proof.
  intros Hx Ha Hb. induction Ha as [|y a Hy Ha IH]; simpl.
  - destruct Hb as [|y b Hy Hb]; [done|]. simpl. unfold cmp.
    by rewrite Hx, Hy.
  - unfold cmp at 1. rewrite Hx, Hy. simpl. by rewrite IH.
Qed.

Lemma sort_partitions l :
  sort cmp l = List.filter P l ++ List.filter (fun y => negb (P y)) l.
Proof.
  induction l as [|x l IH]; [done|]. unfold sort in *. cbn [foldr]. rewrite IH.
  cbn [List.filter]. destruct (P x) eqn:Hx; cbn [negb].
  - by apply sort_insert_first.
  - apply sort_insert_middle; [done| |].
    + apply List.Forall_forall. intros y Hy. by apply List.filter_In in Hy as [_ ?].
    + apply List.Forall_forall. intros y Hy. apply List.filter_In in Hy as [_ Hy].
      by destruct (P y).
Qed.

End stable_sort.

(** X6. The client entry after line 108: the polyfill entries first, in
    their order, then the hot dev client, then the other entries in their
    order. *)
Theorem hot_client_follows_polyfills (clientConfig : Config) :
  entry_client (configure_client clientConfig) =
    List.filter (includes "polyfill") (entry_client clientConfig) ++
    "./tools/lib/webpackHotDevClient" ::
    List.filter (fun e => negb (includes "polyfill" e)) (entry_client clientConfig).
Proof.
  cbn [configure_client entry_client]. unfold by_polyfill.
  by rewrite sort_partitions.
Qed.

Lemma prefix_skip p s :
  String.prefix p s = true -> s = p +:+ skip (String.length p) s.
Proof.
  revert s. induction p as [|c p IH]; intros s; [done|].
  destruct s as [|d s]; [done|]. cbn [String.prefix String.length skip]. destruct (Ascii.ascii_dec c d) as [->|]; [|done].
  intros Hp. change (String d s = String d (p +:+ skip (String.length p) s)).
  f_equal. by apply IH.
Qed.

Lemma prefix_app p b : String.prefix p (p +:+ b) = true.
Proof.
  induction p as [|c p IH]; [by destruct b|].
  change (String.prefix (String c p) (String c (p +:+ b)) = true).
  cbn [String.prefix]. by destruct (Ascii.ascii_dec c c).
Qed.

(** X7. [replace] rewrites the first occurrence of the pattern and nothing
    else; a string without the pattern is returned as it is. *)
Theorem replace_first_occurrence (search replacement s : string) :
  if includes search s then
    exists a b,
      s = a +:+ search +:+ b /\
      replace search replacement s = a +:+ replacement +:+ b /\
      forall a' b', s = a' +:+ search +:+ b' -> String.length a <= String.length a'
  else replace search replacement s = s.
Proof.
  induction s as [|c s IH].
  - cbn [includes replace]. destruct (String.prefix search "") eqn:Hp; cbn [orb]; [|done].
    exists "", (skip (String.length search) ""). cbn [String.append].
    split; [by apply prefix_skip|]. split; [done|]. intros; cbn; lia.
  - cbn [includes replace]. destruct (String.prefix search (String c s)) eqn:Hp; cbn [orb].
    + exists "", (skip (String.length search) (String c s)). cbn [String.append].
      split; [by apply prefix_skip|]. split; [done|]. intros; cbn; lia.
    + destruct (includes search s).
      * destruct IH as (a & b & Hs & Hr & Hmin).
        exists (String c a), b. rewrite Hr.
        split; [by rewrite Hs at 1|]. split; [done|]. intros a' b' Ha'.
        destruct a' as [|c' a'].
        -- change (String c s = search +:+ b') in Ha'.
           by rewrite Ha', prefix_app in Hp.
        -- change (String c s = String c' (a' +:+ search +:+ b')) in Ha'.
           injection Ha' as _ Ha'. specialize (Hmin _ _ Ha'). cbn. lia.
      * by rewrite IH.
Qed.

Lemma find_config_Some name cfgs i c :
  find_config name cfgs = Some (i, c) <->
  cfgs !! i = Some c /\ cfg_name c = Some name /\
  forall k y, cfgs !! k = Some y -> k < i -> cfg_name y <> Some name.
Proof.
  unfold find_config.
  apply (list_find_Some (fun cfg => cfg_name cfg = Some name)).
Qed.

(** X8. When [configure] goes through, it has rewritten the first
    configuration named 'client' and the first named 'server', and nothing
    else: every other element of the array, and its length, are as before. *)
Theorem configure_touches_two (webpackConfig cfgs' : list Config) :
  configure webpackConfig = (cfgs', None) ->
  exists i j clientConfig serverConfig,
    find_config "client" webpackConfig = Some (i, clientConfig) /\
    find_config "server" webpackConfig = Some (j, serverConfig) /\
    i <> j /\
    cfgs' !! i = Some (configure_client clientConfig) /\
    cfgs' !! j = Some (configure_server serverConfig) /\
    (forall k, k <> i -> k <> j -> cfgs' !! k = webpackConfig !! k) /\
    length cfgs' = length webpackConfig.
Proof.
  unfold configure.
  destruct (find_config "client" webpackConfig) as [[i c]|] eqn:Hc; [|done].
  destruct (find_config "server" _) as [[j d]|] eqn:Hd; [|done].
  intros [= <-].
  apply find_config_Some in Hc as Hc'. destruct Hc' as (Hi & Hn & Hfirst).
  apply find_config_Some in Hd as (Hj & Hm & Hfirst').
  assert (i < length webpackConfig) as Hlt by (by eapply lookup_lt_Some).
  assert (i <> j) as Hij.
  { intros <-. rewrite list_lookup_insert_eq in Hj by done.
    injection Hj as <-. cbn in Hm. congruence. }
  rewrite list_lookup_insert_ne in Hj by done.
  assert (j < length webpackConfig) as Hlt' by (by eapply lookup_lt_Some).
  exists i, j, c, d. repeat split.
  - apply find_config_Some. repeat split; [done|done|].
    intros k y Hk Hkj. destruct (decide (k = i)) as [->|Hki]; [congruence|].
    apply (Hfirst' k y); [|done]. by rewrite list_lookup_insert_ne.
  - done.
  - rewrite list_lookup_insert_ne by done. by rewrite list_lookup_insert_eq.
  - rewrite list_lookup_insert_eq; [done|]. by rewrite length_insert.
  - intros k Hki Hkj. by rewrite !list_lookup_insert_ne.
  - by rewrite !length_insert.
Qed.

(** Two configurations named 'client': the second one is left alone. *)
Lemma configure_touches_two_witness :
  let a := mkConfig (Some "client") ["./src/client.js"] "[name].[chunkhash:8].js"
             "[name].[chunkhash:8].chunk.js" None None
             [mkRule "css" (Some "null-loader"); mkRule "js" None] [] in
  let b := mkConfig (Some "server") [] "server.js" "chunks/[name].js" None None [] [] in
  (configure [a; a; b]).1 !! 1 = Some a.
Proof.
  intros a b.
  destruct (configure_touches_two [a; a; b] (configure [a; a; b]).1 eq_refl)
    as (i & j & c & d & Hc & Hd & _ & _ & _ & Hk & _).
  injection Hc as <- <-. injection Hd as <- <-.
  by rewrite (Hk 1).
Defined.
(** ** The startup sequence up to the compilers *)

Lemma startup_run_app b ins1 ins2 :
  Startup.run b (ins1 ++ ins2) = Startup.run (Startup.run b ins1) ins2.
Proof. apply foldl_app. Qed.

Lemma startup_run_snoc b ins i :
  Startup.run b (ins ++ [i]) = Startup.step (Startup.run b ins) i.
Proof. by rewrite startup_run_app. Qed.

(** Induction over the states of a call. *)
Lemma startup_reachable_ind (a : Args) cfgs env0 hot (P : Startup.t -> Prop) :
  P (Startup.start a cfgs env0 hot) ->
  (forall b i, P b -> P (Startup.step b i)) ->
  forall ins, P (Startup.run (Startup.start a cfgs env0 hot) ins).
Proof.
  intros H0 Hstep ins. induction ins as [|i ins IH] using rev_ind; [done|].
  rewrite startup_run_snoc. by apply Hstep.
Qed.

(** *** A failed initial build *)

(** X9. While the initial build runs nothing else happens, not even the
    registration of the kill-signal handler; when it fails, the promise of
    [start] is rejected with its error and the call is over: no network,
    no container, no compiler, no teardown. *)
Theorem initial_build_failure_rejects_start
    (a : Args) (cfgs : list Config) (env0 : gmap string string) (hot : bool) :
  initialBuild a = true ->
  let b0 := Startup.start a cfgs env0 hot in
  Startup.calls b0 = [Startup.RunBuild] /\
  (forall ins,
     Forall (fun i => forall res, i <> Startup.InitialBuildSettled res) ins ->
     Startup.run b0 ins = b0) /\
  (forall e ins,
     Startup.run b0 (Startup.InitialBuildSettled (Some e) :: ins) =
     Startup.mk a Startup.StartRejected env0 cfgs (init hot 0)
       [Startup.RunBuild; Startup.StartReject e]).
Proof.
  intros Ha b0. unfold b0, Startup.start. rewrite Ha. split; [done|]. split.
  - intros ins Hins. induction Hins as [|i ins Hi _ IH]; [done|].
    cbn [Startup.run foldl]. fold (Startup.run).
    replace (Startup.step _ i) with
      (Startup.call [Startup.RunBuild]
         (Startup.mk a Startup.AwaitInitialBuild env0 cfgs (init hot 0) [])); [exact IH|].
    destruct i; try done. by destruct (Hi res).
  - intros e ins. cbn [Startup.run foldl]. fold (Startup.run).
    unfold Startup.step at 2. cbn.
    induction ins as [|i ins IH]; [done|].
    cbn [Startup.run foldl]. fold (Startup.run). exact IH.
Qed.

(** A kill signal after the rejection finds no handler. *)
Lemma initial_build_failure_rejects_start_witness :
  Startup.calls
    (Startup.run (Startup.start (default_args []) [] ∅ true)
       [Startup.InitialBuildSettled (Some (External "build failed"));
        Startup.Host KillSignal; Startup.NetworkSettled None]) =
  [Startup.RunBuild; Startup.StartReject (External "build failed")].
Proof.
  destruct (initial_build_failure_rejects_start (default_args []) [] ∅ true eq_refl)
    as (_ & _ & Hfail).
  by rewrite Hfail.
Defined.

(** *** Kill signals during the startup *)

Lemma provisioning_app out1 out2 :
  Startup.provisioning (out1 ++ out2) =
  Startup.provisioning out1 ++ Startup.provisioning out2.
Proof. apply List.filter_app. Qed.

Lemma provisioning_core out : Startup.provisioning (map Startup.Core out) = [].
Proof. by induction out. Qed.

Lemma progress_lift f b : Startup.progress (Startup.lift f b) = Startup.progress b.
Proof.
  unfold Startup.progress, Startup.lift. cbn.
  by rewrite provisioning_app, provisioning_core, app_nil_r.
Qed.

Lemma progress_fields b b' :
  Startup.progress b = Startup.progress b' ->
  Startup.args b = Startup.args b' /\ Startup.phase b = Startup.phase b' /\
  Startup.env b = Startup.env b' /\
  Startup.webpackConfig b = Startup.webpackConfig b' /\
  Startup.provisioning (Startup.calls b) = Startup.provisioning (Startup.calls b').
Proof. by intros [= -> -> -> -> ->]. Qed.

Ltac progress_tac :=
  let Ha := fresh in let Hp := fresh in let He := fresh in
  let Hw := fresh in let Hc := fresh in
  intros (Ha & Hp & He & Hw & Hc)%progress_fields;
  unfold Startup.progress, Startup.catch, Startup.goto, Startup.call, Startup.lift,
    Startup.set_env, Startup.set_webpackConfig;
  cbn [Startup.args Startup.phase Startup.env Startup.webpackConfig Startup.calls
       Startup.core];
  rewrite ?provisioning_app, ?provisioning_core, ?app_nil_r, ?Ha, ?Hp, ?He, ?Hw, ?Hc;
  try done.

Lemma progress_catch e b b' :
  Startup.progress b = Startup.progress b' ->
  Startup.progress (Startup.catch e b) = Startup.progress (Startup.catch e b').
Proof. progress_tac. Qed.

Lemma progress_configure_and_clean b b' :
  Startup.progress b = Startup.progress b' ->
  Startup.progress (Startup.configure_and_clean b) =
  Startup.progress (Startup.configure_and_clean b').
Proof.
  intros H. pose proof H as (Ha & Hp & He & Hw & Hc)%progress_fields.
  unfold Startup.configure_and_clean. rewrite Hw.
  destruct (configure (Startup.webpackConfig b')).2.
  - apply progress_catch. revert H. progress_tac.
  - revert H. progress_tac.
Qed.

Lemma progress_database b b' :
  Startup.progress b = Startup.progress b' ->
  Startup.progress (Startup.database b) = Startup.progress (Startup.database b').
Proof.
  intros H. pose proof H as (Ha & Hp & He & Hw & Hc)%progress_fields.
  unfold Startup.database. rewrite Ha. destruct (runDatabase _).
  - revert H. progress_tac.
  - by apply progress_configure_and_clean.
Qed.

Lemma progress_executor b b' :
  Startup.progress b = Startup.progress b' ->
  Startup.progress (Startup.executor b) = Startup.progress (Startup.executor b').
Proof.
  intros H. pose proof H as (Ha & Hp & He & Hw & Hc)%progress_fields.
  unfold Startup.executor. rewrite Ha. destruct (noDocker _).
  - apply progress_database. revert H. progress_tac.
  - revert H. progress_tac.
Qed.

Lemma progress_step b b' i :
  Startup.progress b = Startup.progress b' ->
  Startup.progress (Startup.step b i) = Startup.progress (Startup.step b' i).
Proof.
  intros H. pose proof H as (Ha & Hp & He & Hw & Hc)%progress_fields.
  unfold Startup.step. rewrite <- Hp.
  destruct (Startup.phase b) eqn:Hph, i as [[e|]|[e|]|[e|]|[e|port]|[e|] now|e];
    try exact H;
    try (by apply progress_catch);
    try (by apply progress_executor);
    try (by apply progress_database);
    try (destruct (is_cleanup_event e); [|exact H]);
    try (unfold Startup.host; by rewrite !progress_lift).
  - revert H. progress_tac.
  - unfold Startup.db_container. rewrite Ha. revert H. progress_tac.
  - apply progress_configure_and_clean. unfold Startup.db_started. revert H. progress_tac.
  - unfold Startup.compile. revert H. progress_tac.
Qed.

Lemma progress_cleanup b i :
  Startup.is_cleanup_input i = true ->
  Startup.progress (Startup.step b i) = Startup.progress b.
Proof.
  destruct i as [| | | | |e]; try done. cbn. intros He.
  unfold Startup.step. rewrite He.
  destruct (Startup.phase b); try done; unfold Startup.host; by rewrite progress_lift.
Qed.

(** X10. Kill signals and teardown completions change nothing in the
    startup: with or without them [start] passes through the same
    suspension points, makes the same calls to its collaborators, in the
    same order, and leaves the same environment and configuration.  A kill
    signal while the network or the database is set up does not stop the
    compilers from being created. *)
Theorem kill_signal_does_not_stop_startup (b : Startup.t) (ins : list Startup.Input) :
  Startup.progress (Startup.run b ins) =
  Startup.progress
    (Startup.run b (List.filter (fun i => negb (Startup.is_cleanup_input i)) ins)).
Proof.
  assert (forall b b', Startup.progress b = Startup.progress b' ->
            Startup.progress (Startup.run b ins) =
            Startup.progress
              (Startup.run b'
                 (List.filter (fun i => negb (Startup.is_cleanup_input i)) ins))) as H;
    [|by apply H].
  induction ins as [|i ins IH]; intros b1 b2 Hb; [done|].
  cbn [Startup.run foldl List.filter]. fold Startup.run.
  destruct (Startup.is_cleanup_input i) eqn:Hi; cbn [negb].
  - apply IH. by rewrite progress_cleanup.
  - cbn [Startup.run foldl]. fold Startup.run. apply IH. by apply progress_step.
Qed.

(** *** The calls of the startup, in order *)

Lemma provisioning_call out b :
  Startup.provisioning (Startup.calls (Startup.call out b)) =
  Startup.provisioning (Startup.calls b) ++ Startup.provisioning out.
Proof. apply provisioning_app. Qed.

Lemma provisioning_lift f b :
  Startup.provisioning (Startup.calls (Startup.lift f b)) =
  Startup.provisioning (Startup.calls b).
Proof.
  unfold Startup.lift. cbn [Startup.calls].
  by rewrite provisioning_app, provisioning_core, app_nil_r.
Qed.

Section planned.
Context (a : Args) (cfgs : list Config) (env0 : gmap string string).

Lemma Planned_lift f b :
  Startup.Planned a cfgs env0 b -> Startup.Planned a cfgs env0 (Startup.lift f b).
Proof.
  unfold Startup.Planned. rewrite provisioning_lift. by cbn.
Qed.

Lemma Planned_catch e b :
  Startup.args b = a ->
  Startup.provisioning (Startup.calls b) `prefix_of` Startup.plan a ->
  (Startup.env b = env0 \/
   (runDatabase a = true /\ exists port, Startup.env b = Startup.db_env port env0)) ->
  Startup.Planned a cfgs env0 (Startup.catch e b).
Proof.
  intros Ha Hp He. unfold Startup.Planned, Startup.catch.
  cbn [Startup.goto Startup.phase Startup.args Startup.calls Startup.env].
  by rewrite provisioning_lift.
Qed.

Lemma Provisioned_cases e :
  Startup.Provisioned a env0 e ->
  e = env0 \/ (runDatabase a = true /\ exists port, e = Startup.db_env port env0).
Proof.
  unfold Startup.Provisioned. destruct (runDatabase a); [|by left].
  intros [port ->]. right. split; [done|]. by exists port.
Qed.

Lemma Planned_configure_and_clean b :
  Startup.args b = a ->
  Startup.provisioning (Startup.calls b) =
    Startup.build_calls a ++
    [Startup.HandleNodeProcessEvents; Startup.OnKillSignal] ++
    Startup.network_calls a ++ Startup.database_calls a ->
  Startup.Provisioned a env0 (Startup.env b) ->
  Startup.webpackConfig b = cfgs ->
  Startup.Planned a cfgs env0 (Startup.configure_and_clean b).
Proof.
  intros Ha Hp He Hw. unfold Startup.configure_and_clean. rewrite Hw.
  destruct (configure cfgs) as [cfgs' [e|]] eqn:Hcfg; cbn [fst snd].
  - apply Planned_catch; [done| |by apply Provisioned_cases].
    cbn [Startup.set_webpackConfig Startup.calls]. rewrite Hp. unfold Startup.plan.
    exists [Startup.RunClean]. by rewrite <- !app_assoc.
  - unfold Startup.Planned. cbn. rewrite provisioning_app, Hp. unfold Startup.plan.
    split; [done|]. split; [|done]. by rewrite <- !app_assoc.
Qed.

Lemma Planned_database b :
  Startup.args b = a ->
  Startup.provisioning (Startup.calls b) =
    Startup.build_calls a ++
    [Startup.HandleNodeProcessEvents; Startup.OnKillSignal] ++ Startup.network_calls a ->
  Startup.env b = env0 -> Startup.webpackConfig b = cfgs ->
  Startup.Planned a cfgs env0 (Startup.database b).
Proof.
  intros Ha Hp He Hw. unfold Startup.database. rewrite Ha.
  destruct (runDatabase a) eqn:Hdb.
  - unfold Startup.Planned. cbn. rewrite provisioning_app, Hp.
    repeat split; try done. by rewrite <- !app_assoc.
  - apply Planned_configure_and_clean; try done.
    + rewrite Hp. unfold Startup.database_calls. rewrite Hdb. by rewrite app_nil_r.
    + unfold Startup.Provisioned. by rewrite Hdb.
Qed.

Lemma Planned_executor b :
  Startup.args b = a ->
  Startup.provisioning (Startup.calls b) = Startup.build_calls a ->
  Startup.env b = env0 -> Startup.webpackConfig b = cfgs ->
  Startup.Planned a cfgs env0 (Startup.executor b).
Proof.
  intros Ha Hp He Hw. unfold Startup.executor. rewrite Ha.
  destruct (noDocker a) eqn:Hnd.
  - apply Planned_database; try done.
    cbn. rewrite provisioning_app, Hp. unfold Startup.network_calls. by rewrite Hnd.
  - unfold Startup.Planned. cbn. rewrite !provisioning_app, Hp.
    unfold Startup.network_calls. rewrite Hnd. repeat split; try done.
    by rewrite <- !app_assoc.
Qed.

Lemma Planned_start hot : Startup.Planned a cfgs env0 (Startup.start a cfgs env0 hot).
Proof.
  unfold Startup.start. destruct (initialBuild a) eqn:Hib.
  - unfold Startup.Planned. by cbn.
  - apply Planned_executor; try done. unfold Startup.build_calls. by rewrite Hib.
Qed.

Lemma Planned_step b i :
  Startup.Planned a cfgs env0 b -> Startup.Planned a cfgs env0 (Startup.step b i).
Proof.
  intros HP. pose proof HP as [Ha H]. unfold Startup.step.
  destruct (Startup.phase b) eqn:Hph, i as [[e|]|[e|]|[e|]|[e|port]|[e|] now|e];
    try exact HP;
    try (destruct (is_cleanup_event e); [|exact HP]);
    try (by apply Planned_lift).
  - (* the initial build failed *)
    destruct H as (Hib & Hp & He & Hw). unfold Startup.Planned. cbn.
    rewrite provisioning_app, Hp. repeat split; try done. by exists e.
  - (* the initial build is done *)
    destruct H as (Hib & Hp & He & Hw). apply Planned_executor; try done.
    unfold Startup.build_calls. by rewrite Hib.
  - destruct H as (Hnd & Hp & He & Hw). apply Planned_catch; [done| |by left].
    rewrite Hp. unfold Startup.plan. eexists. by rewrite <- !app_assoc.
  - destruct H as (Hnd & Hp & He & Hw). by apply Planned_database.
  - destruct H as (Hdb & Hp & He & Hw). apply Planned_catch; [done| |by left].
    rewrite Hp. unfold Startup.plan, Startup.database_calls. rewrite Hdb.
    eexists. rewrite <- !app_assoc. cbn. reflexivity.
  - destruct H as (Hdb & Hp & He & Hw). unfold Startup.db_container, Startup.Planned.
    cbn. rewrite provisioning_app, Hp, Ha. unfold Startup.database_calls. rewrite Hdb.
    repeat split; try done. by rewrite <- !app_assoc.
  - destruct H as (Hdb & Hp & He & Hw). apply Planned_catch; [done| |by left].
    rewrite Hp. unfold Startup.plan. eexists. by rewrite <- !app_assoc.
  - destruct H as (Hdb & Hp & He & Hw). apply Planned_configure_and_clean; try done.
    unfold Startup.Provisioned, Startup.db_started. cbn. rewrite Hdb, He. by exists port.
  - destruct H as (Hp & He & Hw). apply Planned_catch; [done| |by apply Provisioned_cases].
    by rewrite Hp.
  - destruct H as (Hp & He & Hw). unfold Startup.compile, Startup.Planned. cbn.
    by rewrite provisioning_app, Hp.
Qed.

Lemma Planned_run hot ins :
  Startup.Planned a cfgs env0 (Startup.run (Startup.start a cfgs env0 hot) ins).
Proof.
  apply (startup_reachable_ind a cfgs env0 hot); [apply Planned_start|].
  intros b i. apply Planned_step.
Qed.

End planned.

(** X11. The calls [start] has made to its collaborators are those of
    the plan, in its order: the initial build, the process and kill-signal
    handlers, the network, the data directory and the database container,
    the clean task.  They are all made, followed by one [webpack] call,
    when the executor runs the compilers; a failure stops them where it
    happens. *)
Theorem startup_calls_follow_plan
    (a : Args) (cfgs : list Config) (env0 : gmap string string) (hot : bool)
    (ins : list Startup.Input) :
  let b := Startup.run (Startup.start a cfgs env0 hot) ins in
  match Startup.phase b with
  | Startup.Running =>
      Startup.provisioning (Startup.calls b) =
      Startup.plan a ++ [Startup.Webpack (Startup.webpackConfig b)]
  | Startup.StartRejected =>
      exists e, Startup.provisioning (Startup.calls b) =
                [Startup.RunBuild; Startup.StartReject e]
  | _ => Startup.provisioning (Startup.calls b) `prefix_of` Startup.plan a
  end.
Proof.
  intros b. destruct (Planned_run a cfgs env0 hot ins) as [Ha H]. fold b in Ha, H.
  unfold Startup.plan.
  destruct (Startup.phase b).
  - destruct H as (Hib & -> & _). unfold Startup.build_calls. rewrite Hib.
    by eexists.
  - destruct H as (_ & -> & _). eexists. by rewrite <- !app_assoc.
  - destruct H as (Hdb & -> & _). unfold Startup.database_calls. rewrite Hdb.
    eexists. rewrite <- !app_assoc. by cbn.
  - destruct H as (_ & -> & _). eexists. by rewrite <- !app_assoc.
  - by destruct H as (-> & _).
  - by destruct H as (-> & _).
  - by destruct H as (H & _).
  - by destruct H as (_ & _ & _ & H).
Qed.

Lemma startup_calls_plan_prefix a cfgs env0 hot ins :
  let b := Startup.run (Startup.start a cfgs env0 hot) ins in
  (exists e, Startup.provisioning (Startup.calls b) =
             [Startup.RunBuild; Startup.StartReject e]) \/
  (exists k w,
     Startup.plan a ++ w = Startup.provisioning (Startup.calls b) ++ k /\
     (w = [] \/ (w = [Startup.Webpack (Startup.webpackConfig b)] /\ k = [] /\
                 Startup.phase b = Startup.Running))).
Proof.
  intros b. destruct (Planned_run a cfgs env0 hot ins) as [Ha H]. fold b in Ha, H.
  unfold Startup.plan.
  destruct (Startup.phase b) eqn:Hph.
  - right. destruct H as (Hib & -> & _). unfold Startup.build_calls. rewrite Hib.
    eexists _, []. split; [|by left]. by rewrite app_nil_r.
  - right. destruct H as (_ & -> & _). eexists _, []. split; [|by left].
    by rewrite app_nil_r, <- !app_assoc.
  - right. destruct H as (Hdb & -> & _). unfold Startup.database_calls. rewrite Hdb.
    eexists _, []. split; [|by left]. rewrite app_nil_r, <- !app_assoc. by cbn.
  - right. destruct H as (_ & -> & _). eexists _, []. split; [|by left].
    by rewrite app_nil_r, <- !app_assoc.
  - right. destruct H as (-> & _). exists [], []. by split; [|left].
  - right. destruct H as (-> & _). exists [], [Startup.Webpack (Startup.webpackConfig b)].
    split; [by rewrite app_nil_r|]. by right.
  - right. destruct H as ([k Hk] & _). exists k, []. split; [|by left].
    by rewrite app_nil_r.
  - left. by destruct H as (_ & _ & _ & H).
Qed.

Lemma plan_db a w l1 n p r :
  Startup.plan a ++ w = l1 ++ Startup.RunDbContainer n p :: r ->
  Forall (fun c => forall n' p', c <> Startup.RunDbContainer n' p') w ->
  runDatabase a = true /\ n = Startup.network /\
  p = (if persistDbData a then Some "./db/data-tdd" else None) /\
  In (Startup.EnsureDir "./db/data-tdd") l1 /\
  (noDocker a = false -> In (Startup.DockerNetworkCreate n) l1).
Proof.
  intros H Hw.
  assert (forall l, w = l ++ Startup.RunDbContainer n p :: r -> False) as Hnot.
  { intros l ->. rewrite Forall_app, Forall_cons in Hw.
    destruct Hw as (_ & Hw & _). by apply (Hw n p). }
  unfold Startup.plan, Startup.build_calls, Startup.network_calls,
    Startup.database_calls in H.
  destruct a as [ib rd pd nd]; cbn in *.
  destruct ib, rd, nd; cbn in H;
    repeat (destruct l1 as [|? l1]; simplify_eq/=;
            try (exfalso; by eapply Hnot));
    repeat split; intros; try done; auto 10.
Qed.

(** X12. A call of [start] without arguments never starts the database
    container before it has created the network: '--tdd-no-docker' turns
    the database off as well.  The data directory is ensured before the
    container starts, also under '--tdd-no-db-persist', which only
    withholds the directory from the container. *)
Theorem database_needs_network_by_default
    (argv : list string) (cfgs : list Config) (env0 : gmap string string) (hot : bool)
    (ins : list Startup.Input) (l1 l2 : list Startup.Call)
    (n : string) (p : option string) :
  Startup.calls (Startup.run (Startup.start (default_args argv) cfgs env0 hot) ins) =
    l1 ++ Startup.RunDbContainer n p :: l2 ->
  In (Startup.DockerNetworkCreate n) l1 /\
  In (Startup.EnsureDir "./db/data-tdd") l1 /\
  argv_includes "--tdd-no-docker" argv = false /\
  argv_includes "--tdd-no-db" argv = false /\
  p = (if argv_includes "--tdd-no-db-persist" argv then None else Some "./db/data-tdd").
Proof.
  intros Hc.
  pose proof (startup_calls_plan_prefix (default_args argv) cfgs env0 hot ins) as Hp.
  apply (f_equal Startup.provisioning) in Hc.
  rewrite provisioning_app in Hc. cbn [Startup.provisioning List.filter] in Hc.
  fold (Startup.provisioning l2) in Hc.
  assert (forall x, In x (Startup.provisioning l1) -> In x l1) as Hin.
  { intros x Hx. by apply List.filter_In in Hx as [? _]. }
  cbn zeta in Hp. rewrite Hc in Hp.
  destruct Hp as [[e He]|(k & w & Hk & Hw)].
  { clear -He. destruct (Startup.provisioning l1) as [|c1 [|c2 [|c3 m]]]; by simplify_eq/=. }
  rewrite <- app_assoc in Hk. simpl in Hk.
  apply plan_db in Hk as (Hdb & -> & Hpd & Hdir & Hnet);
    [|destruct Hw as [->|(-> & _)]; by repeat constructor].
  cbn in Hdb, Hpd, Hnet. apply andb_prop in Hdb as [Hnodb Hnodocker].
  apply negb_true_iff in Hnodb, Hnodocker.
  rewrite Hnodocker in Hnet. rewrite Hpd.
  repeat split; auto. by destruct (argv_includes "--tdd-no-db-persist" argv).
Qed.

(** With the default arguments of an empty command line, the container is
    the sixth call. *)
Lemma database_needs_network_by_default_witness :
  In (Startup.DockerNetworkCreate "ski-resorts-tdd")
     [Startup.RunBuild; Startup.HandleNodeProcessEvents; Startup.OnKillSignal;
      Startup.DockerNetworkCreate "ski-resorts-tdd"; Startup.EnsureDir "./db/data-tdd"].
Proof.
  exact (proj1 (database_needs_network_by_default [] [] ∅ true
                  [Startup.InitialBuildSettled None; Startup.NetworkSettled None;
                   Startup.EnsureDirSettled None]
                  [Startup.RunBuild; Startup.HandleNodeProcessEvents;
                   Startup.OnKillSignal;
                   Startup.DockerNetworkCreate "ski-resorts-tdd";
                   Startup.EnsureDir "./db/data-tdd"]
                  [] "ski-resorts-tdd" (Some "./db/data-tdd") eq_refl)).
Defined.

(** *** The environment and the configuration array *)



Lemma webpack_calls_app out1 out2 :
  Startup.webpack_calls (out1 ++ out2) =
  Startup.webpack_calls out1 ++ Startup.webpack_calls out2.
Proof. apply omap_app. Qed.

Lemma webpack_calls_provisioning out :
  Startup.webpack_calls (Startup.provisioning out) = Startup.webpack_calls out.
Proof.
  unfold Startup.webpack_calls, Startup.provisioning.
  induction out as [|c out IH]; [done|].
  destruct c; simpl; first [exact IH | f_equal; exact IH].
Qed.

Lemma webpack_calls_plan a : Startup.webpack_calls (Startup.plan a) = [].
Proof. by destruct a as [[] [] [] []]. Qed.

(** X14. [webpack] is called at most once, and only with the array in
    which [configure] has rewritten the client and the server
    configuration; when one of the two is missing from the array the
    compilers are never created. *)
Theorem webpack_gets_configured_array
    (a : Args) (cfgs : list Config) (env0 : gmap string string) (hot : bool)
    (ins : list Startup.Input) :
  let b := Startup.run (Startup.start a cfgs env0 hot) ins in
  match Startup.phase b with
  | Startup.Running =>
      Startup.webpack_calls (Startup.calls b) = [Startup.webpackConfig b] /\
      configure cfgs = (Startup.webpackConfig b, None)
  | _ => Startup.webpack_calls (Startup.calls b) = []
  end.
Proof.
  intros b. destruct (Planned_run a cfgs env0 hot ins) as [Ha H]. fold b in Ha, H.
  rewrite <- webpack_calls_provisioning.
  assert (forall l, l `prefix_of` Startup.plan a -> Startup.webpack_calls l = []) as Hpre.
  { intros l [k Hk]. pose proof (webpack_calls_plan a) as Hw.
    rewrite Hk, webpack_calls_app in Hw. by apply app_eq_nil in Hw as [? _]. }
  destruct (Startup.phase b).
  - by destruct H as (_ & -> & _).
  - destruct H as (_ & -> & _). apply Hpre. unfold Startup.plan. eexists.
    by rewrite <- !app_assoc.
  - destruct H as (Hdb & -> & _). apply Hpre. unfold Startup.plan, Startup.database_calls.
    rewrite Hdb. eexists. rewrite <- !app_assoc. by cbn.
  - destruct H as (_ & -> & _). apply Hpre. unfold Startup.plan. eexists.
    by rewrite <- !app_assoc.
  - destruct H as (-> & _). by apply Hpre.
  - destruct H as (-> & _ & H). split; [|done].
    by rewrite webpack_calls_app, webpack_calls_plan.
  - destruct H as (H & _). by apply Hpre.
  - by destruct H as (_ & _ & _ & e & ->).
Qed.

(** *** A startup that meets no failure *)

Lemma configure_and_clean_ok b cfgs' :
  configure (Startup.webpackConfig b) = (cfgs', None) ->
  Startup.configure_and_clean b =
  Startup.mk (Startup.args b) Startup.AwaitClean (Startup.env b) cfgs' (Startup.core b)
    (Startup.calls b ++ [Startup.RunClean]).
Proof. intros H. unfold Startup.configure_and_clean. by rewrite H. Qed.

(** X15. When every collaborator succeeds and the array holds a client
    and a server configuration, [start] reaches the compilers: it has made
    all the calls of the plan, [webpack] has the rewritten array, the
    environment names the database if there is one, and the executor is
    suspended on [clientPromise] in the initial state of the orchestration. *)
Theorem smooth_startup_reaches_compilers
    (a : Args) (cfgs cfgs' : list Config) (env0 : gmap string string) (hot : bool)
    (port : string) (now : Z) :
  configure cfgs = (cfgs', None) ->
  Startup.run (Startup.start a cfgs env0 hot) (Startup.smooth a port now) =
  Startup.mk a Startup.Running
    (if runDatabase a then Startup.db_env port env0 else env0)
    cfgs' (init hot now) (Startup.plan a ++ [Startup.Webpack cfgs']).
Proof.
  intros Hcfg. unfold Startup.smooth, Startup.start, Startup.plan.
  destruct a as [[] [] [] []];
    cbn -[configure Startup.db_env init];
    rewrite (configure_and_clean_ok _ cfgs') by exact Hcfg;
    reflexivity.
Qed.

(** The default arguments of an empty command line, and an array with a
    client and a server configuration. *)
Lemma smooth_startup_reaches_compilers_witness :
  let client := mkConfig (Some "client") ["@babel/polyfill"; "./src/client.js"]
                  "[name].[chunkhash:8].js" "[name].[chunkhash:8].chunk.js" None None
                  [mkRule "css" (Some "null-loader"); mkRule "js" None] [] in
  let server := mkConfig (Some "server") [] "server.js" "chunks/[name].js" None None [] [] in
  let b := Startup.run (Startup.start (default_args []) [client; server] ∅ true)
             (Startup.smooth (default_args []) "27017" 5) in
  Startup.phase b = Startup.Running /\
  Startup.webpackConfig b = [configure_client client; configure_server server].
Proof.
  intros client server b. unfold b.
  rewrite (smooth_startup_reaches_compilers (default_args []) [client; server]
             [configure_client client; configure_server server] ∅ true "27017" 5 eq_refl).
  by split.
Defined.

(** *** The executor's variables during the startup *)

Lemma orchestration_app out1 out2 :
  Startup.orchestration (out1 ++ out2) =
  Startup.orchestration out1 ++ Startup.orchestration out2.
Proof. apply omap_app. Qed.

Lemma orchestration_core out : Startup.orchestration (map Startup.Core out) = out.
Proof. induction out as [|e out IH]; [done|]. cbn. f_equal. exact IH. Qed.

Lemma orchestration_lift f b out :
  effects (f (Startup.core b)) = effects (Startup.core b) ++ out ->
  Startup.orchestration (Startup.calls b) = effects (Startup.core b) ->
  Startup.orchestration (Startup.calls (Startup.lift f b)) =
  effects (Startup.core (Startup.lift f b)).
Proof.
  intros Hout Htr. unfold Startup.lift. cbn [Startup.calls Startup.core].
  rewrite orchestration_app, orchestration_core, (new_effects_app _ _ out Hout), Hout.
  by rewrite Htr.
Qed.

Lemma create_promises_step now s e :
  is_cleanup_event e = true ->
  Startup.create_promises now (step s e) = step (Startup.create_promises now s) e.
Proof.
  destruct e; try done; intros _; cbn [step].
  - unfold cleanupAndExit, Startup.create_promises. cbn.
    by destruct (cleaning s).
  - unfold teardown_settled, Startup.create_promises. cbn.
    destruct (cleaning s) as [f|]; [|done].
    destruct (is_pending (fut_state f)); [|done].
    destruct res; cbn; by destruct (pc s).
Qed.

Lemma create_promises_run now evs : forall s,
  forallb is_cleanup_event evs = true ->
  Startup.create_promises now (run s evs) = run (Startup.create_promises now s) evs.
Proof.
  induction evs as [|e evs IH]; intros s Hevs; [done|].
  cbn in Hevs. apply andb_prop in Hevs as [He Hevs].
  cbn [run foldl]. fold (run (step s e) evs).
  fold (run (step (Startup.create_promises now s) e) evs).
  rewrite IH by done. by rewrite create_promises_step.
Qed.

Lemma Provisioning_reachable s : Provisioning s -> reachable s.
Proof. intros (hot & evs & _ & ->). by exists hot, 0%Z, evs. Qed.

Lemma Provisioning_created now s :
  Provisioning s -> reachable (Startup.create_promises now s).
Proof.
  intros (hot & evs & Hevs & ->). rewrite create_promises_run by done.
  by exists hot, now, evs.
Qed.

Lemma Provisioning_step s e :
  is_cleanup_event e = true -> Provisioning s -> Provisioning (step s e).
Proof.
  intros He (hot & evs & Hevs & ->). exists hot, (evs ++ [e]). split.
  - rewrite forallb_app, Hevs. cbn. by rewrite He.
  - unfold run. by rewrite foldl_app.
Qed.

Lemma mod_view_cleanup_step s e :
  is_cleanup_event e = true -> mod_view (step s e) = mod_view s.
Proof.
  destruct e; try done; intros _; cbn [step].
  - apply mod_view_cleanupAndExit.
  - apply mod_view_teardown_settled.
Qed.

Lemma Provisioning_unloaded s : Provisioning s -> app s = None.
Proof.
  intros (hot & evs & Hevs & ->).
  assert (forall s, mod_view (run s evs) = mod_view s) as H.
  { induction evs as [|e evs IH]; intros s; [done|].
    cbn in Hevs. apply andb_prop in Hevs as [He Hevs].
    cbn [run foldl]. fold (run (step s e) evs).
    rewrite IH by done. by apply mod_view_cleanup_step. }
  by destruct (mod_view_fields _ _ (H (init hot 0))) as (-> & _).
Qed.

Lemma extends_cleanup_step s e :
  is_cleanup_event e = true -> exists out, effects (step s e) = effects s ++ out.
Proof.
  destruct e; try done; intros _; cbn [step].
  - destruct (quiet_cleanupAndExit s) as (out & H & _). by exists out.
  - destruct (quiet_teardown_settled res s) as (out & H & _). by exists out.
Qed.

Lemma cleaning_cleanup_step s e :
  is_cleanup_event e = true ->
  is_Some_bool (cleaning s) = true -> is_Some_bool (cleaning (step s e)) = true.
Proof.
  destruct e; try done; intros _ H; cbn [step].
  - apply cleaning_cleanupAndExit.
  - unfold teardown_settled. destruct (cleaning s) as [f|] eqn:Hc; [|done].
    destruct (is_pending (fut_state f)); [|by rewrite Hc].
    destruct res; cbn; by destruct (pc s).
Qed.

Lemma CoreInv_call out b :
  Startup.orchestration out = [] ->
  Startup.phase (Startup.call out b) = Startup.phase b ->
  CoreInv b -> CoreInv (Startup.call out b).
Proof.
  intros Hout _ (Htr & Hc & H). unfold CoreInv.
  cbn [Startup.call Startup.calls Startup.core Startup.phase].
  by rewrite orchestration_app, Hout, app_nil_r.
Qed.

Lemma CoreInv_catch e b : CorePre b -> CoreInv (Startup.catch e b).
Proof.
  intros (Htr & Hc & Hp). unfold CoreInv, Startup.catch.
  cbn [Startup.goto Startup.calls Startup.core Startup.phase].
  split; [|split; [|split]].
  - destruct (quiet_enter_catch e (Startup.core b)) as (out & Hout & _).
    by apply (orchestration_lift _ _ out).
  - by apply CleanInv_enter_catch.
  - apply cleaning_enter_catch.
  - cbn. destruct (mod_view_fields _ _ (mod_view_enter_catch e (Startup.core b)))
      as (-> & _).
    by apply Provisioning_unloaded.
Qed.

Lemma CoreInv_configure_and_clean b :
  CorePre b -> CoreInv (Startup.configure_and_clean b).
Proof.
  intros (Htr & Hc & Hp). unfold Startup.configure_and_clean.
  destruct (configure (Startup.webpackConfig b)).2.
  - by apply CoreInv_catch.
  - unfold CoreInv. cbn. by rewrite orchestration_app, app_nil_r.
Qed.

Lemma CoreInv_database b : CorePre b -> CoreInv (Startup.database b).
Proof.
  intros H. unfold Startup.database. destruct (runDatabase _).
  - destruct H as (Htr & Hc & Hp). unfold CoreInv. cbn.
    by rewrite orchestration_app, app_nil_r.
  - by apply CoreInv_configure_and_clean.
Qed.

Lemma CoreInv_executor b : CorePre b -> CoreInv (Startup.executor b).
Proof.
  intros (Htr & Hc & Hp). unfold Startup.executor. destruct (noDocker _).
  - apply CoreInv_database. unfold CorePre. cbn.
    by rewrite orchestration_app, app_nil_r.
  - unfold CoreInv. cbn. by rewrite !orchestration_app, !app_nil_r.
Qed.

Lemma CoreInv_start a cfgs env0 hot : CoreInv (Startup.start a cfgs env0 hot).
Proof.
  assert (Provisioning (init hot 0)) as Hp by (by exists hot, []).
  assert (CleanInv (init hot 0)) as Hc by (by destruct (Inv_init hot 0)).
  unfold Startup.start. destruct (initialBuild a).
  - unfold CoreInv. cbn. repeat split; try done. by exists hot.
  - by apply CoreInv_executor.
Qed.

Lemma CoreInv_host_cleanup e b :
  is_cleanup_event e = true ->
  match Startup.phase b with
  | Startup.Running | Startup.StartRejected | Startup.AwaitInitialBuild => False
  | _ => True
  end ->
  CoreInv b -> CoreInv (Startup.host e b).
Proof.
  intros He Hph (Htr & Hc & H). unfold CoreInv, Startup.host.
  split; [|split].
  - destruct (extends_cleanup_step (Startup.core b) e He) as (out & Hout).
    by apply (orchestration_lift _ _ out).
  - by apply CleanInv_step.
  - cbn [Startup.lift Startup.phase Startup.core].
    destruct (Startup.phase b); try done; try (by apply Provisioning_step).
    destruct H as (Hcl & Happ). split; [by apply cleaning_cleanup_step|].
    by destruct (mod_view_fields _ _ (mod_view_cleanup_step (Startup.core b) e He))
      as (-> & _).
Qed.

Lemma CoreInv_step b i : CoreInv b -> CoreInv (Startup.step b i).
Proof.
  intros HI. pose proof HI as (Htr & Hc & H). unfold Startup.step.
  destruct (Startup.phase b) eqn:Hph, i as [[e|]|[e|]|[e|]|[e|port]|[e|] now|e];
    try exact HI;
    try (destruct (is_cleanup_event e) eqn:He; [|exact HI];
         apply CoreInv_host_cleanup; [done|by rewrite Hph|done]);
    try (by apply CoreInv_catch);
    try (by apply CoreInv_database).
  - (* the initial build failed *)
    unfold CoreInv. cbn. by rewrite orchestration_app, app_nil_r.
  - (* the initial build is done *)
    apply CoreInv_executor. split; [done|]. split; [done|].
    destruct H as (hot & ->). by exists hot, [].
  - unfold Startup.db_container, CoreInv. cbn. by rewrite orchestration_app, app_nil_r.
  - by apply CoreInv_configure_and_clean.
  - (* the compilers are created *)
    unfold Startup.compile, CoreInv. cbn. rewrite orchestration_app, app_nil_r.
    split; [done|]. split.
    + eapply CleanInv_view; [|exact Hc]. done.
    + by apply Provisioning_created.
  - (* a notification of the orchestration *)
    unfold CoreInv, Startup.host. split; [|split].
    + destruct (served_step_inv (Startup.core b) e (Inv_reachable _ H))
        as (out & Hout & _).
      by apply (orchestration_lift _ _ out).
    + by apply CleanInv_step.
    + cbn. rewrite Hph. by apply reachable_step.
Qed.

Lemma CoreInv_run a cfgs env0 hot ins :
  CoreInv (Startup.run (Startup.start a cfgs env0 hot) ins).
Proof.
  apply (startup_reachable_ind a cfgs env0 hot); [apply CoreInv_start|].
  intros b i. apply CoreInv_step.
Qed.

Lemma count_teardown_clean out :
  count is_teardown (clean_trace out) = count is_teardown out.
Proof. apply count_clean_trace. intros e He. unfold is_clean. by rewrite He. Qed.

Lemma count_outer_resolve_clean out :
  count is_outer_resolve (clean_trace out) = count is_outer_resolve out.
Proof.
  apply count_clean_trace. intros e He. unfold is_clean. rewrite He.
  by destruct (is_teardown e), (is_cleanup_call e).
Qed.

(** X16. Once the compilers exist, the variables of the executor are in
    a state of the orchestration that is reachable from its initial state,
    whatever kill signals arrived while the network and the database were
    set up; and the trace of the run holds all the orchestration did.  What
    holds of every reachable state of the orchestration therefore holds in
    every run of [start]. *)
Theorem orchestration_starts_from_init
    (a : Args) (cfgs : list Config) (env0 : gmap string string) (hot : bool)
    (ins : list Startup.Input) :
  let b := Startup.run (Startup.start a cfgs env0 hot) ins in
  Startup.phase b = Startup.Running ->
  reachable (Startup.core b) /\
  Startup.orchestration (Startup.calls b) = effects (Startup.core b).
Proof.
  intros b Hph. destruct (CoreInv_run a cfgs env0 hot ins) as (Htr & _ & H).
  fold b in Htr, H. rewrite Hph in H. by split.
Qed.

(** A kill signal while the clean task runs: the compilers are created all
    the same, and the cleanup future is already there. *)
Lemma orchestration_starts_from_init_witness :
  let client := mkConfig (Some "client") ["./src/client.js"] "[name].[chunkhash:8].js"
                  "[name].[chunkhash:8].chunk.js" None None [] [] in
  let server := mkConfig (Some "server") [] "server.js" "chunks/[name].js" None None [] [] in
  let b := Startup.run
             (Startup.start (mkArgs false false false true) [client; server] ∅ true)
             [Startup.Host KillSignal; Startup.CleanSettled None 5] in
  reachable (Startup.core b) /\ is_Some_bool (cleaning (Startup.core b)) = true.
Proof.
  intros client server b. split; [|reflexivity].
  exact (proj1 (orchestration_starts_from_init (mkArgs false false false true)
                  [client; server] ∅ true
                  [Startup.Host KillSignal; Startup.CleanSettled None 5] eq_refl)).
Defined.

(** *** Failures before the compilers *)

(** X17. After an exception between the network and the clean task the
    startup is over for good: the catch block has started the one teardown
    of the run, [webpack] was not and will not be called, no module is
    loaded, and [outerResolve] has been called exactly if the teardown has
    completed. *)
Theorem provisioning_failure_tears_down_once
    (a : Args) (cfgs : list Config) (env0 : gmap string string) (hot : bool)
    (ins : list Startup.Input) :
  let b := Startup.run (Startup.start a cfgs env0 hot) ins in
  Startup.phase b = Startup.Caught ->
  count is_teardown (Startup.orchestration (Startup.calls b)) = 1 /\
  (exists f,
     cleaning (Startup.core b) = Some f /\
     count is_outer_resolve (Startup.orchestration (Startup.calls b)) =
       (if is_fulfilled (fut_state f) then 1 else 0)) /\
  Startup.webpack_calls (Startup.calls b) = [] /\
  app (Startup.core b) = None /\
  forall i, Startup.phase (Startup.step b i) = Startup.Caught.
Proof.
  intros b Hph.
  destruct (CoreInv_run a cfgs env0 hot ins) as (Htr & Hc & H).
  destruct (Planned_run a cfgs env0 hot ins) as [_ HP].
  fold b in Htr, Hc, H, HP. rewrite Hph in H, HP. destruct H as (Hcl & Happ).
  rewrite Htr. destruct Hc as (_ & Hc).
  destruct (cleaning (Startup.core b)) as [f|] eqn:Hf; [|done].
  destruct Hc as (_ & Htd & _ & _ & Hor).
  rewrite count_teardown_clean in Htd. rewrite count_outer_resolve_clean in Hor.
  split; [done|]. split; [by exists f|]. split; [|split; [done|]].
  - rewrite <- webpack_calls_provisioning. destruct HP as ([k Hk] & _).
    pose proof (webpack_calls_plan a) as Hw.
    rewrite Hk, webpack_calls_app in Hw. by apply app_eq_nil in Hw as [? _].
  - intros i. unfold Startup.step. rewrite Hph.
    destruct i as [| | | | |e]; try done.
    by destruct (is_cleanup_event e).
Qed.

(** The network cannot be created; the teardown then completes. *)
Lemma provisioning_failure_tears_down_once_witness :
  let b := Startup.run (Startup.start (mkArgs false true true false) [] ∅ true)
             [Startup.NetworkSettled (Some (External "no docker"));
              Startup.Host (TeardownSettled None)] in
  count is_teardown (Startup.orchestration (Startup.calls b)) = 1.
Proof.
  exact (proj1 (provisioning_failure_tears_down_once (mkArgs false true true false)
                  [] ∅ true
                  [Startup.NetworkSettled (Some (External "no docker"));
                   Startup.Host (TeardownSettled None)] eq_refl)).
Defined.

(** X18. In a whole run of [start], whatever fails and however many kill
    signals arrive, before or after the compilers exist, [dockerTeardown]
    is called at most once, [outerResolve] is called at most once and only
    after the teardown was started, and until the kill-signal handler is
    registered nothing of the cleanup routine runs. *)
Theorem teardown_at_most_once_in_a_run
    (a : Args) (cfgs : list Config) (env0 : gmap string string) (hot : bool)
    (ins : list Startup.Input) :
  let b := Startup.run (Startup.start a cfgs env0 hot) ins in
  let out := Startup.orchestration (Startup.calls b) in
  count is_teardown out = (if is_Some_bool (cleaning (Startup.core b)) then 1 else 0) /\
  count is_outer_resolve out <= count is_teardown out /\
  match Startup.phase b with
  | Startup.AwaitInitialBuild | Startup.StartRejected => out = []
  | _ => True
  end.
Proof.
  intros b out. destruct (CoreInv_run a cfgs env0 hot ins) as (Htr & Hc & H).
  fold b in Htr, Hc, H. unfold out. rewrite Htr. split; [|split].
  - destruct Hc as (_ & Hc).
    destruct (cleaning (Startup.core b)) as [f|]; cbn.
    + destruct Hc as (_ & Htd & _). by rewrite count_teardown_clean in Htd.
    + rewrite <- count_teardown_clean. by rewrite Hc.
  - destruct Hc as (_ & Hc). rewrite <- count_teardown_clean, <- count_outer_resolve_clean.
    destruct (cleaning (Startup.core b)) as [f|].
    + destruct Hc as (_ & -> & _ & _ & ->). destruct (is_fulfilled _); lia.
    + by rewrite Hc.
  - destruct (Startup.phase b); try done; by destruct H as (hot' & ->).
Qed.
